(** * soxs.spectra: binned X-ray spectra, absorption, convolution, sampling

    A shallow embedding of [soxs/spectra.py] and the properties its
    specification states about it.

    Numbers.  A NumPy [float64] is modelled by [float]: an exact rational
    or one of the three IEEE special values (+inf, -inf, NaN).  The special
    values follow IEEE 754 (x/0, 0/0, inf-inf, 0*inf, comparisons with
    NaN); arithmetic on finite values is exact, so rounding, overflow and
    underflow of finite results are not modelled, and the sign of a zero is
    not tracked (a zero divisor is read as +0.0).

    Objects.  Spectra and random generators are Python objects: they live
    in a heap and are passed by reference.  A method is a computation in a
    state-and-exception monad over the [World] (heap, module globals, log);
    a raised exception keeps the world as it was at the raise.

    Files.  The file operations work on a file system that maps a path to
    the logical content of the file stored there; it is passed explicitly
    and returned by the operations that write. *)

From Stdlib Require Import QArith Qabs Qround ZArith Lia Lqa String.
From stdpp Require Import base option list gmap strings.

Open Scope Q_scope.

(** ** Floating-point values *)

Inductive float : Type :=
| Fin (q : Q)
| PInf
| NInf
| NaN.

(** The largest finite double, (2^53 - 1) * 2^971 = 1.7976931348623157e308. *)
Definition DBL_MAX : Q := inject_Z ((2 ^ 53 - 1) * 2 ^ 971).

Definition isnan (x : float) : bool :=
  match x with NaN => true | _ => false end.

Definition isinf (x : float) : bool :=
  match x with PInf | NInf => true | _ => false end.

Definition isfinite (x : float) : bool :=
  match x with Fin _ => true | _ => false end.

(** Strict comparison of rationals as a boolean. *)
Definition Qltb (a b : Q) : bool := negb (Qle_bool b a).

Definition fopp (x : float) : float :=
  match x with
  | Fin a => Fin (- a)
  | PInf => NInf
  | NInf => PInf
  | NaN => NaN
  end.

Definition fabs (x : float) : float :=
  match x with
  | Fin a => Fin (Qabs a)
  | PInf | NInf => PInf
  | NaN => NaN
  end.

Definition fadd (x y : float) : float :=
  match x, y with
  | NaN, _ | _, NaN => NaN
  | PInf, NInf | NInf, PInf => NaN
  | PInf, _ | _, PInf => PInf
  | NInf, _ | _, NInf => NInf
  | Fin a, Fin b => Fin (a + b)
  end.

Definition fsub (x y : float) : float := fadd x (fopp y).

(** [inf * a] for a finite [a]: NaN at zero, otherwise the sign rule. *)
Definition inf_times (pos : bool) (a : Q) : float :=
  if Qeq_bool a 0 then NaN
  else if Bool.eqb pos (Qltb 0 a) then PInf else NInf.

Definition fmul (x y : float) : float :=
  match x, y with
  | NaN, _ | _, NaN => NaN
  | PInf, PInf | NInf, NInf => PInf
  | PInf, NInf | NInf, PInf => NInf
  | PInf, Fin a | Fin a, PInf => inf_times true a
  | NInf, Fin a | Fin a, NInf => inf_times false a
  | Fin a, Fin b => Fin (a * b)
  end.

Definition fdiv (x y : float) : float :=
  match x, y with
  | NaN, _ | _, NaN => NaN
  | PInf, PInf | PInf, NInf | NInf, PInf | NInf, NInf => NaN
  | PInf, Fin b => if Qltb b 0 then NInf else PInf
  | NInf, Fin b => if Qltb b 0 then PInf else NInf
  | Fin _, PInf | Fin _, NInf => Fin 0
  | Fin a, Fin b =>
      if Qeq_bool b 0 then
        (if Qeq_bool a 0 then NaN else if Qltb 0 a then PInf else NInf)
      else Fin (a / b)
  end.

(** [x ** 3] *)
Definition fcube (x : float) : float := fmul (fmul x x) x.

(** [x < y]; false as soon as one side is NaN. *)
Definition flt (x y : float) : bool :=
  match x, y with
  | NaN, _ | _, NaN => false
  | _, NInf => false
  | NInf, _ => true
  | PInf, _ => false
  | _, PInf => true
  | Fin a, Fin b => Qltb a b
  end.

Definition fle (x y : float) : bool :=
  match x, y with
  | NaN, _ | _, NaN => false
  | NInf, _ => true
  | _, NInf => false
  | _, PInf => true
  | PInf, _ => false
  | Fin a, Fin b => Qle_bool a b
  end.

Definition fgt (x y : float) : bool := flt y x.
Definition fge (x y : float) : bool := fle y x.

(** [x == y] of IEEE 754: NaN is equal to nothing. *)
Definition feqb (x y : float) : bool :=
  match x, y with
  | Fin a, Fin b => Qeq_bool a b
  | PInf, PInf | NInf, NInf => true
  | _, _ => false
  end.

(** The same value: equal rationals, or the same special value. *)
Definition same (x y : float) : Prop :=
  match x, y with
  | Fin a, Fin b => a == b
  | PInf, PInf | NInf, NInf | NaN, NaN => True
  | _, _ => False
  end.

(** ** Exceptions and results *)

Inductive exn : Type :=
| RuntimeError (msg : string)
| NotImplementedError (msg : string)
| UnboundLocalError (var : string)
| ValueError
| IndexError
| TypeError
| UnitConversionError
| AttributeError (name : string)
| DanglingReference.

Inductive result (A : Type) : Type :=
| Ok (a : A)
| Raise (e : exn).
Arguments Ok {A} a.
Arguments Raise {A} e.

Definition rbind {A B} (r : result A) (k : A -> result B) : result B :=
  match r with
  | Ok a => k a
  | Raise e => Raise e
  end.

(** ** NumPy on one-dimensional arrays *)

Module np.

(** Broadcasting of a binary operation over two 1-d arrays. *)
Definition broadcast2 {A B C} (f : A -> B -> C)
    (xs : list A) (ys : list B) : result (list C) :=
  if Nat.eqb (length xs) (length ys) then Ok (zip_with f xs ys)
  else match xs, ys with
       | [x], _ => Ok (map (f x) ys)
       | _, [y] => Ok (map (fun x => f x y) xs)
       | _, _ => Raise ValueError
       end.

(** An in-place operation [xs op= ys]: [ys] is broadcast to the shape of
    [xs], which cannot change. *)
Definition inplace2 {A B} (f : A -> B -> A)
    (xs : list A) (ys : list B) : result (list A) :=
  if Nat.eqb (length xs) (length ys) then Ok (zip_with f xs ys)
  else match ys with
       | [y] => Ok (map (fun x => f x y) xs)
       | _ => Raise ValueError
       end.

Definition add := broadcast2 fadd.
Definition subtract := broadcast2 fsub.
Definition multiply := broadcast2 fmul.
Definition divide := broadcast2 fdiv.

(** [a.sum()] *)
Definition sum (xs : list float) : float := foldl fadd (Fin 0) xs.

(** [np.cumsum(a)] *)
Fixpoint cumsum_from (acc : float) (xs : list float) : list float :=
  match xs with
  | [] => []
  | x :: xs' => let acc' := fadd acc x in acc' :: cumsum_from acc' xs'
  end.
Definition cumsum (xs : list float) : list float :=
  match xs with
  | [] => []
  | x :: xs' => x :: cumsum_from x xs'
  end.

(** [np.diff(a)] *)
Fixpoint diff (xs : list float) : list float :=
  match xs with
  | x :: (y :: _) as xs' => fsub y x :: diff xs'
  | _ => []
  end.

(** [a[1:]] and [a[:-1]] *)
Definition tail1 {A} (xs : list A) : list A := drop 1 xs.
Definition init1 {A} (xs : list A) : list A := take (length xs - 1) xs.

(** [a[i]] with Python's negative indices. *)
Definition getitem {A} (xs : list A) (i : Z) : result A :=
  let n := Z.of_nat (length xs) in
  let j := if (i <? 0)%Z then (n + i)%Z else i in
  if ((0 <=? j) && (j <? n))%Z then
    match xs !! Z.to_nat j with
    | Some x => Ok x
    | None => Raise IndexError
    end
  else Raise IndexError.

(** [a[idxs]] for an integer index array. *)
Fixpoint take_idxs {A} (xs : list A) (idxs : list nat) : result (list A) :=
  match idxs with
  | [] => Ok []
  | i :: idxs' =>
      rbind (getitem xs (Z.of_nat i)) (fun x =>
      rbind (take_idxs xs idxs') (fun r => Ok (x :: r)))
  end.

(** [a[mask]] for a boolean mask of the length of [a]. *)
Definition select {A} (xs : list A) (mask : list bool) : result (list A) :=
  if Nat.eqb (length xs) (length mask) then
    Ok (omap (fun p : A * bool => if p.2 then Some p.1 else None)
             (zip xs mask))
  else Raise IndexError.

(** [a[mask] = v] *)
Definition setmask {A} (xs : list A) (mask : list bool) (v : A)
    : result (list A) :=
  if Nat.eqb (length xs) (length mask) then
    Ok (zip_with (fun x (m : bool) => if m then v else x) xs mask)
  else Raise IndexError.

(** [np.where(mask)[0]] *)
Fixpoint where_from (i : nat) (mask : list bool) : list nat :=
  match mask with
  | [] => []
  | m :: mask' =>
      if m then i :: where_from (S i) mask' else where_from (S i) mask'
  end.
Definition where_ (mask : list bool) : list nat := where_from 0 mask.

Definition logical_and := broadcast2 andb.

(** [np.all] *)
Definition all (bs : list bool) : bool := forallb id bs.

(** [np.isclose(a, b)] with the default [rtol=1e-5], [atol=1e-8]. *)
Definition isclose1 (a b : float) : bool :=
  if isfinite a && isfinite b then
    fle (fabs (fsub a b)) (fadd (Fin 1.0e-8) (fmul (Fin 1.0e-5) (fabs b)))
  else feqb a b.
Definition isclose := broadcast2 isclose1.

(** [np.nan_to_num(x)]: NaN becomes 0, an infinity the finite double of
    largest magnitude and the same sign. *)
Definition nan_to_num1 (x : float) : float :=
  match x with
  | NaN => Fin 0
  | PInf => Fin DBL_MAX
  | NInf => Fin (- DBL_MAX)
  | Fin q => Fin q
  end.
Definition nan_to_num (xs : list float) : list float := map nan_to_num1 xs.

(** The order of [np.sort] and [np.searchsorted]: NaN sorts last. *)
Definition less (a b : float) : bool :=
  flt a b || (isnan b && negb (isnan a)).

(** [np.searchsorted(a, v)] (side left): binary search for the first
    index whose element is not [less] than [v]. *)
Fixpoint binsearch (fuel : nat) (a : list float) (v : float) (lo hi : nat)
    : nat :=
  match fuel with
  | O => lo
  | S fuel' =>
      if (lo <? hi)%nat then
        let m := (lo + (hi - lo) / 2)%nat in
        match a !! m with
        | Some x => if less x v then binsearch fuel' a v (S m) hi
                    else binsearch fuel' a v lo m
        | None => lo
        end
      else lo
  end.
Definition searchsorted (a : list float) (v : float) : nat :=
  binsearch (S (length a)) a v 0 (length a).

(** [a.sort()]: ascending, by insertion. *)
Fixpoint insert_sorted (x : float) (xs : list float) : list float :=
  match xs with
  | [] => [x]
  | y :: ys => if less y x then y :: insert_sorted x ys else x :: y :: ys
  end.
Definition sort (xs : list float) : list float :=
  foldr insert_sorted [] xs.

(** [np.interp(x, xp, fp)] at one point, for increasing [xp]: the
    end values outside the range of [xp], linear in between. *)
Fixpoint interp_seg (x : float) (xp fp : list float) : float :=
  match xp, fp with
  | x0 :: (x1 :: _) as xp', f0 :: (f1 :: _) as fp' =>
      if flt x x1 then
        (if feqb x0 x then f0
         else fadd (fmul (fdiv (fsub f1 f0) (fsub x1 x0)) (fsub x x0)) f0)
      else interp_seg x xp' fp'
  | _, f0 :: _ => f0
  | _, [] => NaN
  end.
Definition interp1 (xp fp : list float) (x : float) : float :=
  if isnan x then NaN
  else match xp, fp with
       | x0 :: _, f0 :: _ => if fle x x0 then f0 else interp_seg x xp fp
       | _, _ => NaN
       end.
Definition interp (xs xp fp : list float) : result (list float) :=
  match xp with
  | [] => Raise ValueError
  | _ => if Nat.eqb (length xp) (length fp) then Ok (map (interp1 xp fp) xs)
         else Raise ValueError
  end.

End np.

(** ** External collaborators

    What [soxs/spectra.py] imports and this file does not define: the
    constants of [soxs.constants], the exponential, the tabulated
    cross-section file and the SciPy spline built on it, NumPy's random
    generator and the effective-area responses of [soxs.response]. *)

(** An effective-area response: [arf.filename], [arf.interpolate_area]. *)
Record Response : Type := {
  filename : string;
  interpolate_area : float -> float
}.

Class Externals : Type := {
  (** [soxs.constants] *)
  erg_per_keV : Q;
  hc : Q;
  sigma_to_fwhm : Q;
  sqrt2pi : Q;
  (** the factor of [emid.to("erg")] *)
  keV_to_erg : Q;
  (** [np.exp] on a finite argument *)
  exp : Q -> Q;
  (** [tbabs_table.h5]: the datasets emin, emax and cross_section *)
  tbabs_file_emin : Q;
  tbabs_file_emax : Q;
  tbabs_file_cross_section : list Q;
  (** [InterpolatedUnivariateSpline(x, y, k=5)] evaluated inside the range
      of its knots *)
  spline5 : list float -> list float -> float -> float;
  (** [numpy.random.RandomState]: its state, seeding and the two draws *)
  RandomState : Type;
  RandomState_seed : Z -> RandomState;
  RandomState_poisson : RandomState -> float -> result nat * RandomState;
  RandomState_uniform : RandomState -> nat -> list Q * RandomState;
  (** [soxs.response] *)
  AuxiliaryResponseFile : string -> Response;
  FlatResponse : float -> float -> float -> nat -> Response
}.

(** [np.exp] on a float. *)
Definition fexp `{Externals} (x : float) : float :=
  match x with
  | Fin q => Fin (exp q)
  | PInf => PInf
  | NInf => Fin 0
  | NaN => NaN
  end.

(** [np.linspace(start, stop, num)] *)
Definition linspace (start stop : float) (num : nat) : list float :=
  match num with
  | O => []
  | 1%nat => [start]
  | _ =>
      let step := fdiv (fsub stop start) (Fin (inject_Z (Z.of_nat (num - 1)))) in
      map (fun i : nat => fadd start (fmul (Fin (inject_Z (Z.of_nat i))) step))
          (seq 0 num)
  end.

(** [astropy.modeling.functional_models.Gaussian1D(amplitude, mean, stddev)]
    at [x]: amplitude * exp(-0.5 * (x - mean)**2 / stddev**2). *)
Definition Gaussian1D `{Externals} (amplitude mean stddev x : float) : float :=
  let d := fsub x mean in
  fmul amplitude
       (fexp (fdiv (fmul (Fin (-0.5)) (fmul d d)) (fmul stddev stddev))).

(** ** Objects and the world *)

Inductive pyclass : Type :=
| cSpectrum
| cCountRateSpectrum
| cConvolvedSpectrum.

Global Instance pyclass_eq_dec : EqDecision pyclass.
Proof. solve_decision. Defined.

(** The unit tag, the class attribute [_units]. *)
Inductive unit_tag : Type :=
| photon_flux_density   (* "photon/(cm**2*s*keV)" *)
| count_rate_density.   (* "photon/(s*keV)" *)

Global Instance unit_tag_eq_dec : EqDecision unit_tag.
Proof. solve_decision. Defined.

Definition _units (c : pyclass) : unit_tag :=
  match c with
  | cSpectrum => photon_flux_density
  | cCountRateSpectrum | cConvolvedSpectrum => count_rate_density
  end.

(** The unit of a flux density multiplied by an area in cm**2; [None] is a
    unit that is neither of the two tags. *)
Definition times_cm2 (u : unit_tag) : option unit_tag :=
  match u with
  | photon_flux_density => Some count_rate_density
  | count_rate_density => None
  end.

(** A flux handed to a constructor: bare numbers or a [Quantity]. *)
Inductive flux_arg : Type :=
| Bare (v : list float)
| Quantity (u : option unit_tag) (v : list float).

(** The third argument of [ConvolvedSpectrum(ebins, flux, arf)]. *)
Inductive arf_arg : Type :=
| ArfNumber (area : float)
| ArfStr (name : string)
| ArfObject (r : Response).

(** The attributes of a spectrum instance. *)
Record SpectrumObj : Type := {
  class_ : pyclass;
  ebins : list float;
  emid : list float;
  flux : list float;
  nbins : nat;
  de : list float;
  total_flux : float;
  total_energy_flux : float;
  cumspec : list float;
  arf : option Response
}.

Inductive LogRecord : Type :=
| LogCreating (n_ph : nat)
| LogFinished.

(** The spline object held by the module global [_tbabs_spline]. *)
Record Spline : Type := {
  knots : list float;
  values : list float
}.

Record World `{Externals} : Type := {
  heap : list SpectrumObj;             (* the spectrum instances *)
  generators : list RandomState;       (* the RandomState instances *)
  _tbabs_emid : option (list float);   (* module globals *)
  _tbabs_sigma : option (list float);
  _tbabs_spline : option Spline;
  clock : Z;                           (* the system time *)
  mylog : list LogRecord               (* what mylog.info received *)
}.

(** A reference is an index into the heap. *)
Abbreviation ref := nat (only parsing).

Section Monad.
Context `{ext : Externals}.

Definition M (A : Type) : Type := World -> result A * World.

Definition ret {A} (a : A) : M A := fun w => (Ok a, w).

Definition bind {A B} (m : M A) (k : A -> M B) : M B :=
  fun w => match m w with
           | (Ok a, w') => k a w'
           | (Raise e, w') => (Raise e, w')
           end.

Definition raise {A} (e : exn) : M A := fun w => (Raise e, w).

Definition lift {A} (r : result A) : M A := fun w => (r, w).

Definition get_world : M World := fun w => (Ok w, w).
Definition put_world (w : World) : M () := fun _ => (Ok tt, w).

End Monad.

#[global] Instance result_ret : MRet result := @Ok.
#[global] Instance result_bind : MBind result := fun A B k r => rbind r k.
#[global] Instance M_ret `{Externals} : MRet M := @ret _.
#[global] Instance M_bind `{Externals} : MBind M := fun A B k m => bind m k.

Section Store.
Context `{ext : Externals}.

Definition with_heap (h : list SpectrumObj) (w : World) : World :=
  {| heap := h; generators := generators w;
     _tbabs_emid := _tbabs_emid w; _tbabs_sigma := _tbabs_sigma w;
     _tbabs_spline := _tbabs_spline w; clock := clock w;
     mylog := mylog w |}.

Definition with_generators (g : list RandomState) (w : World) : World :=
  {| heap := heap w; generators := g;
     _tbabs_emid := _tbabs_emid w; _tbabs_sigma := _tbabs_sigma w;
     _tbabs_spline := _tbabs_spline w; clock := clock w;
     mylog := mylog w |}.

Definition with_mylog (l : list LogRecord) (w : World) : World :=
  {| heap := heap w; generators := generators w;
     _tbabs_emid := _tbabs_emid w; _tbabs_sigma := _tbabs_sigma w;
     _tbabs_spline := _tbabs_spline w; clock := clock w;
     mylog := l |}.

(** Reading the instance behind a reference. *)
Definition deref (self : ref) : M SpectrumObj :=
  fun w => match heap w !! self with
           | Some o => (Ok o, w)
           | None => (Raise DanglingReference, w)
           end.

(** Updating the attributes of the instance behind a reference. *)
Definition modify (self : ref) (f : SpectrumObj -> SpectrumObj) : M () :=
  fun w => match heap w !! self with
           | Some o => (Ok tt, with_heap (<[self := f o]> (heap w)) w)
           | None => (Raise DanglingReference, w)
           end.

(** A new instance. *)
Definition alloc (o : SpectrumObj) : M ref :=
  fun w => (Ok (length (heap w)), with_heap (heap w ++ [o]) w).

Definition deref_generator (g : ref) : M RandomState :=
  fun w => match generators w !! g with
           | Some st => (Ok st, w)
           | None => (Raise DanglingReference, w)
           end.

Definition update_generator (g : ref) (st : RandomState) : M () :=
  fun w => (Ok tt, with_generators (<[g := st]> (generators w)) w).

Definition alloc_generator (st : RandomState) : M ref :=
  fun w => (Ok (length (generators w)),
            with_generators (generators w ++ [st]) w).

(** [mylog.info(...)] *)
Definition mylog_info (r : LogRecord) : M () :=
  fun w => (Ok tt, with_mylog (mylog w ++ [r]) w).

Definition set_flux (v : list float) (o : SpectrumObj) : SpectrumObj :=
  {| class_ := class_ o; ebins := ebins o; emid := emid o; flux := v;
     nbins := nbins o; de := de o; total_flux := total_flux o;
     total_energy_flux := total_energy_flux o; cumspec := cumspec o;
     arf := arf o |}.

Definition set_total_flux (v : float) (o : SpectrumObj) : SpectrumObj :=
  {| class_ := class_ o; ebins := ebins o; emid := emid o; flux := flux o;
     nbins := nbins o; de := de o; total_flux := v;
     total_energy_flux := total_energy_flux o; cumspec := cumspec o;
     arf := arf o |}.

Definition set_total_energy_flux (v : float) (o : SpectrumObj)
    : SpectrumObj :=
  {| class_ := class_ o; ebins := ebins o; emid := emid o; flux := flux o;
     nbins := nbins o; de := de o; total_flux := total_flux o;
     total_energy_flux := v; cumspec := cumspec o; arf := arf o |}.

Definition set_cumspec (v : list float) (o : SpectrumObj) : SpectrumObj :=
  {| class_ := class_ o; ebins := ebins o; emid := emid o; flux := flux o;
     nbins := nbins o; de := de o; total_flux := total_flux o;
     total_energy_flux := total_energy_flux o; cumspec := v;
     arf := arf o |}.

Definition set_arf (v : option Response) (o : SpectrumObj) : SpectrumObj :=
  {| class_ := class_ o; ebins := ebins o; emid := emid o; flux := flux o;
     nbins := nbins o; de := de o; total_flux := total_flux o;
     total_energy_flux := total_energy_flux o; cumspec := cumspec o;
     arf := v |}.

End Store.

(** ** Module-level functions *)

(** The tables of [wabs_cross_section]. *)
Definition wabs_emax : list float :=
  map Fin [0.0; 0.1; 0.284; 0.4; 0.532; 0.707; 0.867; 1.303; 1.840;
           2.471; 3.210; 4.038; 7.111; 8.331; 10.0].
Definition wabs_c0 : list float :=
  map Fin [17.3; 34.6; 78.1; 71.4; 95.5; 308.9; 120.6; 141.3;
           202.7; 342.7; 352.2; 433.9; 629.0; 701.2].
Definition wabs_c1 : list float :=
  map Fin [608.1; 267.9; 18.8; 66.8; 145.8; -380.6; 169.3;
           146.8; 104.7; 18.7; 18.7; -2.4; 30.9; 25.2].
Definition wabs_c2 : list float :=
  map Fin [-2150.0; -476.1; 4.3; -51.4; -61.1; 294.0; -47.7;
           -31.5; -17.0; 0.0; 0.0; 0.75; 0.0; 0.0].

(** [np.minimum(np.searchsorted(emax, E)-1, 13)] *)
Definition wabs_idxs (E : float) : Z :=
  Z.min (Z.of_nat (np.searchsorted wabs_emax E) - 1) 13.

(** [wabs_cross_section] at one energy. *)
Definition wabs_cross_section1 (E : float) : result float :=
  let idxs := wabs_idxs E in
  c0 ← np.getitem wabs_c0 idxs;
  c1 ← np.getitem wabs_c1 idxs;
  c2 ← np.getitem wabs_c2 idxs;
  mret (fdiv (fmul (fadd (fadd c0 (fmul c1 E)) (fmul (fmul c2 E) E))
                   (Fin 1.0e-24))
             (fcube E)).

Definition wabs_cross_section (E : list float) : result (list float) :=
  mapM wabs_cross_section1 E.

(** [InterpolatedUnivariateSpline(x, y, k=5, ext=1)]: more than five
    points are needed. *)
Definition InterpolatedUnivariateSpline (x y : list float) : result Spline :=
  if (length x <=? 5)%nat then Raise ValueError
  else Ok {| knots := x; values := y |}.

(** Calling the spline: with [ext=1] it is zero outside its knots. *)
Definition spline_call `{Externals} (s : Spline) (x : float) : float :=
  match head (knots s), last (knots s) with
  | Some lo, Some hi =>
      if flt x lo || flt hi x then Fin 0
      else spline5 (knots s) (values s) x
  | _, _ => Fin 0
  end.

Section Functions.
Context `{ext : Externals}.

Definition get_wabs_absorb (e : list float) (nH : float)
    : result (list float) :=
  sigma ← wabs_cross_section e;
  mret (map (fun s => fexp (fmul (fmul (fopp nH) (Fin 1.0e22)) s)) sigma).

Definition with_tbabs (emid sigma : option (list float))
    (spl : option Spline) (w : World) : World :=
  {| heap := heap w; generators := generators w;
     _tbabs_emid := emid; _tbabs_sigma := sigma; _tbabs_spline := spl;
     clock := clock w; mylog := mylog w |}.

Definition tbabs_cross_section (E : list float) : M (list float) :=
  w ← get_world;
  spl ← match _tbabs_spline w with
        | Some spl => mret spl
        | None =>
            let sigma := map Fin tbabs_file_cross_section in
            put_world (with_tbabs (_tbabs_emid w) (Some sigma) None w);;
            let nbins := length sigma in
            let ebins := linspace (Fin tbabs_file_emin)
                                  (Fin tbabs_file_emax) (nbins + 1) in
            s ← lift (np.add (np.tail1 ebins) (np.init1 ebins));
            let emid := map (fmul (Fin 0.5)) s in
            put_world (with_tbabs (Some emid) (Some sigma) None w);;
            spl ← lift (InterpolatedUnivariateSpline emid sigma);
            put_world (with_tbabs (Some emid) (Some sigma) (Some spl) w);;
            mret spl
        end;
  mret (map (spline_call spl) E).

Definition get_tbabs_absorb (e : list float) (nH : float)
    : M (list float) :=
  sigma ← tbabs_cross_section e;
  mret (map (fun s => fexp (fmul (fmul (fopp nH) (Fin 1.0e22)) s)) sigma).

(** The [prng] argument of the samplers. *)
Inductive prng_arg : Type :=
| PrngNone
| PrngSeed (seed : Z)
| PrngInstance (g : ref).

(** Modelled from the spec: [soxs.utils.parse_prng] is not part of the
    sources at hand.  Randomness flows through an explicitly passed,
    optionally seeded generator: a generator instance is used as it is,
    an integer seeds a new generator, and [None] "sets the seed based on
    the system time" (the docstrings of [generate_energies]). *)
Definition parse_prng (prng : prng_arg) : M ref :=
  match prng with
  | PrngInstance g => mret g
  | PrngSeed seed => alloc_generator (RandomState_seed seed)
  | PrngNone => w ← get_world; alloc_generator (RandomState_seed (clock w))
  end.

(** [prng.poisson(lam)] *)
Definition prng_poisson (prng : ref) (lam : float) : M nat :=
  st ← deref_generator prng;
  let '(r, st') := RandomState_poisson st lam in
  update_generator prng st';;
  lift r.

(** [prng.uniform(size=n)] *)
Definition prng_uniform (prng : ref) (n : nat) : M (list float) :=
  st ← deref_generator prng;
  let '(v, st') := RandomState_uniform st n in
  update_generator prng st';;
  mret (map Fin v).

Definition _generate_energies (spec : ref) (t_exp rate : float)
    (prng : ref) (quiet : bool) : M (list float) :=
  s ← deref spec;
  let cumspec := cumspec s in
  n_ph ← prng_poisson prng (fmul t_exp rate);
  (if quiet then mret tt else mylog_info (LogCreating n_ph));;
  randvec ← prng_uniform prng n_ph;
  let randvec := np.sort randvec in
  s ← deref spec;
  e ← lift (np.interp randvec cumspec (ebins s));
  (if quiet then mret tt else mylog_info LogFinished);;
  mret e.

End Functions.

(** ** class Spectrum *)

(** What [generate_energies] returns: an [Energies] quantity (the energies
    and their [flux] attribute), or a plain quantity in keV. *)
Inductive sample : Type :=
| Energies (energy : list float) (flux : float)
| QuantityKeV (energy : list float).

Module Spectrum.
Section Methods.
Context `{ext : Externals}.

Definition _compute_total_flux (self : ref) : M () :=
  s ← deref self;
  fd ← lift (np.multiply (flux s) (de s));
  modify self (set_total_flux (np.sum fd));;
  s ← deref self;
  fe ← lift (np.multiply (flux s)
                         (map (fun e => fmul e (Fin keV_to_erg)) (emid s)));
  fed ← lift (np.multiply fe (de s));
  modify self (set_total_energy_flux (fdiv (np.sum fed) (Fin 1.0)));;
  s ← deref self;
  fd ← lift (np.multiply (flux s) (de s));
  let cumspec := np.cumsum fd in
  let cumspec := Fin 0.0 :: cumspec in
  last ← lift (np.getitem cumspec (-1));
  modify self (set_cumspec (map (fun c => fdiv c last) cumspec)).

(** [u.Quantity(flux, self._units)].  A [Quantity] carries one of the two
    unit tags of the classes, which astropy does not convert into each
    other, or ([None]) the unit of a count rate multiplied by an area,
    which it converts into neither.  A unit that astropy converts into the
    unit of the class (a flux density per m**2, say) is not represented. *)
Definition as_quantity (cls : pyclass) (flux : flux_arg)
    : result (list float) :=
  match flux with
  | Bare v => Ok v
  | Quantity u v =>
      if decide (u = Some (_units cls)) then Ok v
      else Raise UnitConversionError
  end.

(** [cls.__init__(self, ebins, flux)]; the aggregates of the new instance
    are unset until [_compute_total_flux] has run. *)
Definition __init__ (cls : pyclass) (ebins : list float) (flux : flux_arg)
    : M ref :=
  s ← lift (np.add (np.tail1 ebins) (np.init1 ebins));
  let emid := map (fmul (Fin 0.5)) s in
  fl ← lift (as_quantity cls flux);
  self ← alloc {| class_ := cls; ebins := ebins; emid := emid; flux := fl;
                  nbins := length emid; de := np.diff ebins;
                  total_flux := NaN; total_energy_flux := NaN;
                  cumspec := []; arf := None |};
  _compute_total_flux self;;
  mret self.

(** [type(self)(ebins, flux)]: the constructor of [ConvolvedSpectrum]
    takes a third argument. *)
Definition type_self (cls : pyclass) (ebins : list float) (flux : flux_arg)
    : M ref :=
  match cls with
  | cConvolvedSpectrum => raise TypeError
  | _ => __init__ cls ebins flux
  end.

Definition _check_binning_units (self other : ref) : M () :=
  s ← deref self;
  o ← deref other;
  differ ← (if negb (nbins s =? nbins o)%nat then mret true
            else c ← lift (np.isclose (ebins s) (ebins o));
                 mret (negb (np.all c)));
  if differ : bool then
    raise (RuntimeError
             "Energy binning for these two spectra is not the same!!")
  else if negb (bool_decide (_units (class_ s) = _units (class_ o))) then
    raise (RuntimeError "The units for these two spectra are not the same!")
  else mret tt.

Definition __add__ (self other : ref) : M ref :=
  _check_binning_units self other;;
  s ← deref self;
  o ← deref other;
  fl ← lift (np.add (flux s) (flux o));
  type_self (class_ s) (ebins s) (Quantity (Some (_units (class_ s))) fl).

Definition __iadd__ (self other : ref) : M ref :=
  _check_binning_units self other;;
  s ← deref self;
  o ← deref other;
  fl ← lift (np.inplace2 fadd (flux s) (flux o));
  modify self (set_flux fl);;
  mret self.

Definition __sub__ (self other : ref) : M ref :=
  _check_binning_units self other;;
  s ← deref self;
  o ← deref other;
  fl ← lift (np.subtract (flux s) (flux o));
  type_self (class_ s) (ebins s) (Quantity (Some (_units (class_ s))) fl).

Definition restrict_within_band (self : ref) (emin emax : option float)
    : M () :=
  match emin with
  | Some emin =>
      s ← deref self;
      fl ← lift (np.setmask (flux s) (map (fun e => flt e emin) (emid s))
                            (Fin 0.0));
      modify self (set_flux fl)
  | None => mret tt
  end;;
  match emax with
  | Some emax =>
      s ← deref self;
      fl ← lift (np.setmask (flux s) (map (fun e => fgt e emax) (emid s))
                            (Fin 0.0));
      modify self (set_flux fl)
  | None => mret tt
  end;;
  _compute_total_flux self.

Definition get_flux_in_band (self : ref) (emin emax : float)
    : M (float * float) :=
  s ← deref self;
  range ← lift (np.logical_and (map (fun e => fge e emin) (emid s))
                               (map (fun e => fle e emax) (emid s)));
  fd ← lift (np.multiply (flux s) (de s));
  p ← lift (np.select fd range);
  fe ← lift (np.multiply (flux s)
                         (map (fun e => fmul e (Fin keV_to_erg)) (emid s)));
  fed ← lift (np.multiply fe (de s));
  e ← lift (np.select fed range);
  mret (np.sum p, fdiv (np.sum e) (Fin 1.0)).

Definition _new_spec_from_band (self : ref) (emin emax : float)
    : M (list float * list float) :=
  s ← deref self;
  band ← lift (np.logical_and (map (fun e => fge e emin) (ebins s))
                              (map (fun e => fle e emax) (ebins s)));
  let idxs := np.where_ band in
  ebins' ← lift (np.take_idxs (ebins s) idxs);
  flux' ← lift (np.take_idxs (flux s) (np.init1 idxs));
  mret (ebins', flux').

Definition new_spec_from_band (self : ref) (emin emax : float) : M ref :=
  '(ebins', flux') ← _new_spec_from_band self emin emax;
  __init__ cSpectrum ebins' (Bare flux').

Definition rescale_flux (self : ref) (new_flux : float)
    (emin emax : option float) (flux_type : string) : M () :=
  s ← deref self;
  emin ← match emin with
         | None => lift (np.getitem (ebins s) 0)
         | Some emin => mret emin
         end;
  emax ← match emax with
         | None => lift (np.getitem (ebins s) (-1))
         | Some emax => mret emax
         end;
  idxs ← lift (np.logical_and (map (fun e => fge e emin) (emid s))
                              (map (fun e => fle e emax) (emid s)));
  f ← (if String.eqb flux_type "photons" then
         fd ← lift (np.multiply (flux s) (de s));
         v ← lift (np.select fd idxs);
         mret (Some (np.sum v))
       else if String.eqb flux_type "energy" then
         fe ← lift (np.multiply (flux s)
                      (map (fun e => fmul e (Fin keV_to_erg)) (emid s)));
         fed ← lift (np.multiply fe (de s));
         v ← lift (np.select fed idxs);
         mret (Some (np.sum v))
       else mret None);
  f ← match f with
      | Some f => mret f
      | None => raise (UnboundLocalError "f")
      end;
  s ← deref self;
  modify self (set_flux (map (fun x => fmul x (fdiv new_flux f)) (flux s)));;
  _compute_total_flux self.

Definition apply_foreground_absorption (self : ref) (nH : float)
    (model : string) (redshift : float) : M () :=
  s ← deref self;
  let e := map (fun m => fmul m (fadd (Fin 1.0) redshift)) (emid s) in
  sigma ← (if String.eqb model "wabs" then
             sigma ← lift (wabs_cross_section e); mret (Some sigma)
           else if String.eqb model "tbabs" then
             sigma ← tbabs_cross_section e; mret (Some sigma)
           else mret None);
  sigma ← match sigma with
          | Some sigma => mret sigma
          | None => raise (UnboundLocalError "sigma")
          end;
  s ← deref self;
  fl ← lift (np.inplace2 fmul (flux s)
               (map (fun x => fexp (fmul (fmul (fopp nH) (Fin 1.0e22)) x))
                    sigma));
  modify self (set_flux fl);;
  _compute_total_flux self.

Definition add_emission_line (self : ref)
    (line_center line_width line_amp : float) (line_type : string) : M () :=
  f ← (if String.eqb line_type "gaussian" then
         let sigma := fdiv line_width (Fin sigma_to_fwhm) in
         let line_amp := fdiv line_amp (fmul (Fin sqrt2pi) sigma) in
         mret (Gaussian1D line_amp line_center sigma)
       else raise (NotImplementedError
                     ("Line profile type '" ++ line_type
                        ++ "' not implemented!")));
  s ← deref self;
  fl ← lift (np.inplace2 fadd (flux s) (map f (emid s)));
  modify self (set_flux fl);;
  _compute_total_flux self.

Definition add_absorption_line (self : ref)
    (line_center line_width equiv_width : float) (line_type : string)
    : M () :=
  let equiv_width := fmul equiv_width (Fin 1.0e-3) in
  f ← (if String.eqb line_type "gaussian" then
         let sigma := fdiv line_width (Fin sigma_to_fwhm) in
         let B := fmul (fmul equiv_width line_center) line_center in
         let B := fdiv B (fmul (fmul (Fin hc) (Fin sqrt2pi)) sigma) in
         mret (Gaussian1D B line_center sigma)
       else raise (NotImplementedError
                     ("Line profile type '" ++ line_type
                        ++ "' not implemented!")));
  s ← deref self;
  fl ← lift (np.inplace2 fmul (flux s)
               (map (fun e => fexp (fopp (f e))) (emid s)));
  modify self (set_flux fl);;
  _compute_total_flux self.

Definition generate_energies (self : ref) (t_exp area : float)
    (prng : prng_arg) (quiet : bool) : M sample :=
  prng ← parse_prng prng;
  s ← deref self;
  let rate := fmul area (total_flux s) in
  energy ← _generate_energies self t_exp rate prng quiet;
  let flux := fdiv (fdiv (fmul (np.sum energy) (Fin erg_per_keV)) t_exp)
                   area in
  mret (Energies energy flux).

End Methods.
End Spectrum.

(** ** class CountRateSpectrum(Spectrum) *)

Module CountRateSpectrum.
Section Methods.
Context `{ext : Externals}.

Definition generate_energies (self : ref) (t_exp : float)
    (prng : prng_arg) (quiet : bool) : M sample :=
  prng ← parse_prng prng;
  s ← deref self;
  let rate := total_flux s in
  energy ← _generate_energies self t_exp rate prng quiet;
  mret (QuantityKeV energy).

End Methods.
End CountRateSpectrum.

(** ** class ConvolvedSpectrum(CountRateSpectrum) *)

Module ConvolvedSpectrum.
Section Methods.
Context `{ext : Externals}.

Definition __init__ (ebins : list float) (flux : flux_arg) (arf : arf_arg)
    : M ref :=
  self ← Spectrum.__init__ cConvolvedSpectrum ebins flux;
  arf ← match arf with
        | ArfNumber area =>
            lo ← lift (np.getitem ebins 0);
            hi ← lift (np.getitem ebins (-1));
            mret (FlatResponse lo hi area (length ebins - 1))
        | ArfStr name => mret (AuxiliaryResponseFile name)
        | ArfObject r => mret r
        end;
  modify self (set_arf (Some arf));;
  mret self.

(** [self.arf] *)
Definition get_arf (self : ref) : M Response :=
  s ← deref self;
  match arf s with
  | Some r => mret r
  | None => raise (AttributeError "arf")
  end.

Definition __add__ (self other : ref) : M ref :=
  Spectrum._check_binning_units self other;;
  s ← deref self;
  o ← deref other;
  fl ← lift (np.add (flux s) (flux o));
  r ← get_arf self;
  __init__ (ebins s) (Quantity (Some (_units (class_ s))) fl) (ArfObject r).

Definition __sub__ (self other : ref) : M ref :=
  Spectrum._check_binning_units self other;;
  s ← deref self;
  o ← deref other;
  fl ← lift (np.subtract (flux s) (flux o));
  r ← get_arf self;
  __init__ (ebins s) (Quantity (Some (_units (class_ s))) fl) (ArfObject r).

(** [ConvolvedSpectrum.convolve(spectrum, arf)]; [AuxiliaryResponseFile]
    is built from a file name. *)
Definition convolve (spectrum : ref) (arf : arf_arg) : M ref :=
  r ← match arf with
      | ArfObject r => mret r
      | ArfStr name => mret (AuxiliaryResponseFile name)
      | ArfNumber _ => raise TypeError
      end;
  s ← deref spectrum;
  let earea := map (interpolate_area r) (emid s) in
  rate ← lift (np.multiply (flux s) earea);
  __init__ (ebins s) (Quantity (times_cm2 (_units (class_ s))) rate)
           (ArfObject r).

Definition new_spec_from_band (self : ref) (emin emax : float) : M ref :=
  '(ebins', flux') ← Spectrum._new_spec_from_band self emin emax;
  r ← get_arf self;
  __init__ ebins' (Bare flux') (ArfObject r).

Definition deconvolve (self : ref) : M ref :=
  r ← get_arf self;
  s ← deref self;
  let earea := map (interpolate_area r) (emid s) in
  fl ← lift (np.divide (flux s) earea);
  let fl := np.nan_to_num fl in
  Spectrum.__init__ cSpectrum (ebins s) (Bare fl).

Definition generate_energies (self : ref) (t_exp : float)
    (prng : prng_arg) (quiet : bool) : M sample :=
  prng ← parse_prng prng;
  s ← deref self;
  let rate := total_flux s in
  energy ← _generate_energies self t_exp rate prng quiet;
  r ← get_arf self;
  let earea := map (interpolate_area r) energy in
  let flux := fdiv (fdiv (fmul (np.sum energy) (Fin erg_per_keV)) t_exp)
                   (np.sum earea) in
  mret (Energies energy flux).

Definition apply_foreground_absorption (self : ref) (nH : float)
    (model : string) : M () :=
  raise (NotImplementedError "").

End Methods.
End ConvolvedSpectrum.

(** ** Method calls

    [obj.m self args] is the call [self.m(args)]: the method is looked up
    in the class of [self]; an optional argument left out is [None]. *)

Module obj.
Section Calls.
Context `{ext : Externals}.

Definition __add__ (self other : ref) : M ref :=
  s ← deref self;
  match class_ s with
  | cConvolvedSpectrum => ConvolvedSpectrum.__add__ self other
  | _ => Spectrum.__add__ self other
  end.

Definition __sub__ (self other : ref) : M ref :=
  s ← deref self;
  match class_ s with
  | cConvolvedSpectrum => ConvolvedSpectrum.__sub__ self other
  | _ => Spectrum.__sub__ self other
  end.

Definition __iadd__ (self other : ref) : M ref :=
  Spectrum.__iadd__ self other.

Definition new_spec_from_band (self : ref) (emin emax : float) : M ref :=
  s ← deref self;
  match class_ s with
  | cConvolvedSpectrum => ConvolvedSpectrum.new_spec_from_band self emin emax
  | _ => Spectrum.new_spec_from_band self emin emax
  end.

(** [self.apply_foreground_absorption(nH, model=..., redshift=...)]: the
    override of [ConvolvedSpectrum] has no [redshift] parameter. *)
Definition apply_foreground_absorption (self : ref) (nH : float)
    (model : option string) (redshift : option float) : M () :=
  s ← deref self;
  match class_ s with
  | cConvolvedSpectrum =>
      match redshift with
      | Some _ => raise TypeError
      | None => ConvolvedSpectrum.apply_foreground_absorption
                  self nH (default "wabs"%string model)
      end
  | _ => Spectrum.apply_foreground_absorption
           self nH (default "wabs"%string model) (default (Fin 0.0) redshift)
  end.

(** [self.generate_energies(t_exp, area=..., prng=..., quiet=...)]: only
    the flux-domain class takes (and requires) an area. *)
Definition generate_energies (self : ref) (t_exp : float)
    (area : option float) (prng : prng_arg) (quiet : bool) : M sample :=
  s ← deref self;
  match class_ s, area with
  | cSpectrum, Some area =>
      Spectrum.generate_energies self t_exp area prng quiet
  | cCountRateSpectrum, None =>
      CountRateSpectrum.generate_energies self t_exp prng quiet
  | cConvolvedSpectrum, None =>
      ConvolvedSpectrum.generate_energies self t_exp prng quiet
  | _, _ => raise TypeError
  end.

(** [self.deconvolve()] *)
Definition deconvolve (self : ref) : M ref :=
  s ← deref self;
  match class_ s with
  | cConvolvedSpectrum => ConvolvedSpectrum.deconvolve self
  | _ => raise (AttributeError "deconvolve")
  end.

End Calls.
End obj.

(** ** The data model of the specification *)

(** The bin midpoints of a sequence of edges. *)
Definition midpoints (edges : list float) : list float :=
  map (fmul (Fin 0.5)) (zip_with fadd (np.tail1 edges) (np.init1 edges)).

(** A well-formed spectrum instance: the derived arrays are those of its
    edges, there is one flux value per bin, and the convolved instances are
    those bound to a response. *)
Record well_formed (o : SpectrumObj) : Prop := {
  wf_edges : (1 <= length (ebins o))%nat;
  wf_emid : emid o = midpoints (ebins o);
  wf_de : de o = np.diff (ebins o);
  wf_nbins : nbins o = length (emid o);
  wf_flux : length (flux o) = nbins o;
  wf_arf : is_Some (arf o) <-> class_ o = cConvolvedSpectrum
}.

(** The photon rate of the specification: the sum over the bins of flux
    times width. *)
Definition photon_rate (o : SpectrumObj) : float :=
  np.sum (zip_with fmul (flux o) (de o)).

(** The energy rate: the sum of flux times midpoint energy (in erg) times
    width. *)
Definition energy_rate `{Externals} (o : SpectrumObj) : float :=
  fdiv (np.sum (zip_with fmul
                  (zip_with fmul (flux o)
                     (map (fun e => fmul e (Fin keV_to_erg)) (emid o)))
                  (de o)))
       (Fin 1.0).

(** The cumulative distribution of the specification: the cumulative sum
    of flux times width, prefixed with 0, divided by its last entry. *)
Definition distribution (o : SpectrumObj) : list float :=
  let c := Fin 0.0 :: np.cumsum (zip_with fmul (flux o) (de o)) in
  map (fun x => fdiv x (List.last c (Fin 0))) c.

(** Two arrays hold the same values. *)
Definition same_array (xs ys : list float) : Prop := Forall2 same xs ys.

(** The cached aggregates agree with the current flux. *)
Definition aggregates_consistent (o : SpectrumObj) : Prop :=
  same (total_flux o) (photon_rate o)
  /\ same_array (cumspec o) (distribution o).

(** An instance whose aggregates are re-derived from its flux. *)
Definition refreshed `{Externals} (o : SpectrumObj) : SpectrumObj :=
  set_cumspec (distribution o)
    (set_total_energy_flux (energy_rate o)
       (set_total_flux (photon_rate o) o)).

(** The instance of class [cls] with edges [edges], flux [v] and response
    [r]. *)
Definition instance `{Externals} (cls : pyclass) (edges v : list float)
    (r : option Response) : SpectrumObj :=
  set_arf r
    (refreshed {| class_ := cls; ebins := edges; emid := midpoints edges;
                  flux := v; nbins := length (midpoints edges);
                  de := np.diff edges; total_flux := NaN;
                  total_energy_flux := NaN; cumspec := []; arf := None |}).

(** The two ways two spectra fail to be combinable: their edge sequences
    differ in length or beyond the tolerance of [np.isclose], or their unit
    tags differ. *)
Definition edges_differ (a b : SpectrumObj) : bool :=
  negb (length (ebins a) =? length (ebins b))%nat
  || negb (forallb id (zip_with np.isclose1 (ebins a) (ebins b))).

Definition units_differ (a b : SpectrumObj) : bool :=
  negb (bool_decide (_units (class_ a) = _units (class_ b))).

(** ** A stand-in for the external collaborators

    Used to run the model on concrete inputs.  The exponential is replaced
    by a rational function with its sign and monotonicity, the generator by
    a linear congruence, the spline by linear interpolation. *)

Module standin.

Definition rational_exp (x : Q) : Q :=
  if Qle_bool 0 x then 1 + x else 1 / (1 - x).

Definition next (st : Z) : Z := ((1103515245 * st + 12345) mod 2147483648)%Z.

Fixpoint draws (st : Z) (n : nat) : list Q * Z :=
  match n with
  | O => ([], st)
  | S n' =>
      let st' := next st in
      let '(v, st'') := draws st' n' in
      (Qmake st' 2147483648 :: v, st'')
  end.

Definition poisson (st : Z) (lam : float) : result nat * Z :=
  match lam with
  | Fin q => if Qle_bool 0 q then (Ok (Z.to_nat (Qfloor q)), next st)
             else (Raise ValueError, st)
  | _ => (Raise ValueError, st)
  end.

Definition flat (lo hi area : float) (n : nat) : Response :=
  {| filename := "flat_response";
     interpolate_area := fun e => if fle lo e && fle e hi then area
                                  else Fin 0 |}.

#[export] Instance externals : Externals := {|
  erg_per_keV := 1.60217662e-9;
  hc := 12.39841875;
  sigma_to_fwhm := 2.3548;
  sqrt2pi := 2.50662827463;
  keV_to_erg := 1.602176634e-9;
  exp := rational_exp;
  tbabs_file_emin := 0;
  tbabs_file_emax := 8;
  tbabs_file_cross_section := [8.0e-22; 4.0e-22; 2.0e-22; 1.0e-22;
                               5.0e-23; 2.5e-23; 1.2e-23; 6.0e-24];
  spline5 := fun x y e => np.interp1 x y e;
  RandomState := Z;
  RandomState_seed := fun seed => seed;
  RandomState_poisson := poisson;
  RandomState_uniform := draws;
  AuxiliaryResponseFile := fun name =>
    {| filename := name; interpolate_area := fun _ => Fin 100 |};
  FlatResponse := flat
|}.

End standin.

(** The world before anything is created. *)
Definition empty_world `{Externals} (time : Z) : World :=
  {| heap := []; generators := [];
     _tbabs_emid := None; _tbabs_sigma := None; _tbabs_spline := None;
     clock := time; mylog := [] |}.

(** ** Vocabulary of the statements *)

Section Vocabulary.
Context `{ext : Externals}.

(** What a successful constructor call does: one new instance at the end
    of the heap, nothing else touched. *)
Definition returns_new (m : M ref) (w : World) (o : SpectrumObj) : Prop :=
  m w = (Ok (length (heap w)), with_heap (heap w ++ [o]) w).

(** What every refreshing operation establishes: it returns, and leaves
    [self] well formed with aggregates that agree with its flux. *)
Definition refreshes (m : M ()) (w : World) (self : ref) : Prop :=
  exists w' s',
    m w = (Ok tt, w')
    /\ heap w' !! self = Some s'
    /\ well_formed s'
    /\ aggregates_consistent s'.

End Vocabulary.

(** The energies drawn for an instance [o] by a generator in state [st]:
    the Poisson count, that many uniform variates, sorted and mapped
    through the inverse of the cumulative distribution. *)
Definition drawn `{Externals} (o : SpectrumObj) (st : RandomState)
    (t_exp rate : float) : result (list float) :=
  let '(r, st1) := RandomState_poisson st (fmul t_exp rate) in
  n_ph ← r;
  let '(v, _) := RandomState_uniform st1 n_ph in
  np.interp (np.sort (map Fin v)) (cumspec o) (ebins o).

(** The state of the generator that [parse_prng] hands to the sampler. *)
Definition generator_state `{Externals} (w : World) (prng : prng_arg)
    : option RandomState :=
  match prng with
  | PrngSeed seed => Some (RandomState_seed seed)
  | PrngInstance g => generators w !! g
  | PrngNone => Some (RandomState_seed (clock w))
  end.

(** What [generate_energies] returns for an instance [o] and a generator
    in state [st]. *)
Definition sampled `{Externals} (o : SpectrumObj) (t_exp : float)
    (area : option float) (st : RandomState) : result sample :=
  match class_ o, area with
  | cSpectrum, Some area =>
      energy ← drawn o st t_exp (fmul area (total_flux o));
      Ok (Energies energy
            (fdiv (fdiv (fmul (np.sum energy) (Fin erg_per_keV)) t_exp)
                  area))
  | cCountRateSpectrum, None =>
      energy ← drawn o st t_exp (total_flux o);
      Ok (QuantityKeV energy)
  | cConvolvedSpectrum, None =>
      energy ← drawn o st t_exp (total_flux o);
      match arf o with
      | Some r =>
          Ok (Energies energy
                (fdiv (fdiv (fmul (np.sum energy) (Fin erg_per_keV)) t_exp)
                      (np.sum (map (interpolate_area r) energy))))
      | None => Raise (AttributeError "arf")
      end
  | _, _ => Raise TypeError
  end.

(** The spline that [tbabs_cross_section] builds from the table file. *)
Definition tbabs_spline_of_file `{Externals} : Spline :=
  let sigma := map Fin tbabs_file_cross_section in
  let edges := linspace (Fin tbabs_file_emin) (Fin tbabs_file_emax)
                        (length sigma + 1) in
  {| knots := midpoints edges; values := sigma |}.

(** The spline that a call of [tbabs_cross_section] uses: the cached one,
    or else the one of the file. *)
Definition tbabs_spline_in_use `{Externals} (w : World) : Spline :=
  default tbabs_spline_of_file (_tbabs_spline w).

(** The transmission factor [np.exp(-nH*1.0e22*sigma)]. *)
Definition transmission `{Externals} (nH sigma : float) : float :=
  fexp (fmul (fmul (fopp nH) (Fin 1.0e22)) sigma).

(** What the statements use of the exponential: it is positive, below 1
    on negative arguments, and 1 at 0. *)
Record exponential_laws `{Externals} : Prop := {
  exp_positive : forall x, 0 < exp x;
  exp_below_1 : forall x, x < 0 -> exp x < 1;
  exp_at_0 : forall x, x == 0 -> exp x == 1
}.

(** A positive finite number. *)
Definition positive (x : float) : Prop := exists q, x = Fin q /\ 0 < q.

(** The messages of the two errors of [_check_binning_units]. *)
Definition binning_message : string :=
  "Energy binning for these two spectra is not the same!!".
Definition units_message : string :=
  "The units for these two spectra are not the same!".

(** ** Concrete inputs *)

Module example.

#[local] Existing Instance standin.externals.

(** A response of constant area. *)
Definition constant_response (area : Q) : Response :=
  {| filename := "constant.arf"; interpolate_area := fun _ => Fin area |}.

(** [Spectrum([0,1,2], [1,1])] and [Spectrum([0,1,2], [1,3])]. *)
Definition a : SpectrumObj :=
  instance cSpectrum [Fin 0; Fin 1; Fin 2] [Fin 1; Fin 1] None.
Definition b : SpectrumObj :=
  instance cSpectrum [Fin 0; Fin 1; Fin 2] [Fin 1; Fin 3] None.

(** [ConvolvedSpectrum([1,2], [1], arf)] with a response of area zero. *)
Definition c : SpectrumObj :=
  instance cConvolvedSpectrum [Fin 1; Fin 2] [Fin 1]
    (Some (constant_response 0)).

(** [CountRateSpectrum([1,2], [1])]. *)
Definition rate : SpectrumObj :=
  instance cCountRateSpectrum [Fin 1; Fin 2] [Fin 1] None.

(** [Spectrum([8,9], [1])]: one bin above the stand-in table. *)
Definition high : SpectrumObj :=
  instance cSpectrum [Fin 8; Fin 9] [Fin 1] None.

(** [Spectrum([1,2,4], [3,5])]. *)
Definition soft : SpectrumObj :=
  instance cSpectrum [Fin 1; Fin 2; Fin 4] [Fin 3; Fin 5] None.

(** A world holding the given instances. *)
Definition world (objects : list SpectrumObj) : World :=
  with_heap objects (empty_world 0).

End example.

(** ** Vocabulary of the further properties *)

(** An array of finite values. *)
Definition finite_array (xs : list float) : Prop :=
  Forall (fun x => isfinite x = true) xs.

(** The sum of a list of rationals. *)
Definition Qsum (qs : list Q) : Q := foldr Qplus 0 qs.

(** The running sums of a list of rationals, from [a] on. *)
Fixpoint partial_sums (a : Q) (qs : list Q) : list Q :=
  match qs with
  | [] => []
  | q :: qs' => (a + q) :: partial_sums (a + q) qs'
  end.

(** The flux that [restrict_within_band] leaves in a bin of midpoint [e]
    that held [x]. *)
Definition restricted (emin emax : option float) (e x : float) : float :=
  if from_option (fun lo => flt e lo) false emin
     || from_option (fun hi => fgt e hi) false emax
  then Fin 0.0 else x.

(** The midpoint test of [get_flux_in_band] and [rescale_flux]. *)
Definition in_band (emin emax e : float) : bool := fge e emin && fle e emax.

(** Adjacent entries do not decrease. *)
Definition nondecreasing (xs : list float) : Prop :=
  forall i x y, xs !! i = Some x -> xs !! S i = Some y -> fle x y = true.

(** The entries of [xs] at the positions where [mask] holds: the value of
    [xs[mask]]. *)
Definition masked {A} (xs : list A) (mask : list bool) : list A :=
  omap (fun p : A * bool => if p.2 then Some p.1 else None) (zip xs mask).

(** The photon rate of the bins whose midpoint lies in the band. *)
Definition band_photon_rate (emin emax : float) (o : SpectrumObj) : float :=
  np.sum (masked (zip_with fmul (flux o) (de o))
                 (map (in_band emin emax) (emid o))).

(** The energy integral of the band, as [rescale_flux] computes it, and
    the energy rate that [get_flux_in_band] returns. *)
Definition band_energy_sum `{Externals} (emin emax : float)
    (o : SpectrumObj) : float :=
  np.sum (masked (zip_with fmul
                    (zip_with fmul (flux o)
                       (map (fun e => fmul e (Fin keV_to_erg)) (emid o)))
                    (de o))
                 (map (in_band emin emax) (emid o))).

Definition band_energy_rate `{Externals} (emin emax : float)
    (o : SpectrumObj) : float :=
  fdiv (band_energy_sum emin emax o) (Fin 1.0).

(** A band limit of [rescale_flux]: the argument, or by default an end of
    the edges. *)
Definition band_limit (given : option float) (edges : list float) (i : Z)
    (limit : float) : Prop :=
  match given with
  | Some x => x = limit
  | None => np.getitem edges i = Ok limit
  end.

(** ** Files

    The logical layout of the two file formats that [write_file],
    [write_h5_file] and [from_file] use: a text file of two columns (the
    bin midpoint and the flux) under a header, and an HDF5 file with the
    datasets "emin", "emax" and "spectrum" and the attribute "arf".  The
    file system maps a path to the file stored there; it is passed to the
    file operations and returned by those that write. *)

Record H5 : Type := {
  h5_emin : option float;
  h5_emax : option float;
  h5_spectrum : option (list float);
  h5_arf : option string
}.

Inductive file : Type :=
| HDF5 (f : H5)
| Text (header : string) (rows : list (float * float)).

Abbreviation FileSystem := (gmap string file) (only parsing).

(** What a file operation raises: an exception of the rest of the module,
    or one of the file layer. *)
Inductive io_exn : Type :=
| PyExn (e : exn)
| IOError (msg : string)
| OSError
| KeyError (name : string).

Inductive io_result (A : Type) : Type :=
| Done (a : A)
| Failed (e : io_exn).
Arguments Done {A} a.
Arguments Failed {A} e.

(** The value of the class attribute [_units]. *)
Definition unit_name (u : unit_tag) : string :=
  match u with
  | photon_flux_density => "photon/(cm**2*s*keV)"
  | count_rate_density => "photon/(s*keV)"
  end.

Definition tab : string := String (Ascii.ascii_of_nat 9) EmptyString.
Definition newline : string := String (Ascii.ascii_of_nat 10) EmptyString.

(** [filename.endswith(suffix)] *)
Fixpoint endswith (s suffix : string) : bool :=
  if String.eqb s suffix then true
  else match s with
       | EmptyString => false
       | String _ s' => endswith s' suffix
       end.

(** A run of the constructor inside a file operation. *)
Definition constructed `{Externals} (r : result ref * World)
    : io_result ref * World :=
  match r with
  | (Ok self, w) => (Done self, w)
  | (Raise e, w) => (Failed (PyExn e), w)
  end.

(** ** class Spectrum, continued

    The operators [*] and [/], the interpolating call, the constant-flux
    constructor and the file operations. *)

(** The other operand of [*]: a number, or an object with an [eff_area]
    attribute, a response. *)
Inductive factor : Type :=
| Number (x : float)
| HasEffArea (r : Response).

Module Spectrum'.
Section Methods.
Context `{ext : Externals}.

Definition __mul__ (self : ref) (other : factor) : M ref :=
  match other with
  | HasEffArea r => ConvolvedSpectrum.convolve self (ArfObject r)
  | Number x =>
      s ← deref self;
      Spectrum.type_self (class_ s) (ebins s)
        (Quantity (Some (_units (class_ s))) (map (fmul x) (flux s)))
  end.

Definition __rmul__ := __mul__.

Definition __truediv__ (self : ref) (other : float) : M ref :=
  s ← deref self;
  Spectrum.type_self (class_ s) (ebins s)
    (Quantity (Some (_units (class_ s)))
       (map (fun x => fdiv x other) (flux s))).

Definition __div__ := __truediv__.

(** [self(e)]: [self.func] reads the midpoints and the flux of the
    instance when it is called. *)
Definition __call__ (self : ref) (e : list float) : M (list float) :=
  s ← deref self;
  lift (np.interp e (emid s) (flux s)).

(** [cls.from_constant(const_flux, emin, emax, nbins)]; the class
    [ConvolvedSpectrum] overrides it to raise. *)
Definition from_constant (cls : pyclass) (const_flux emin emax : float)
    (nbins : nat) : M ref :=
  match cls with
  | cConvolvedSpectrum => raise (NotImplementedError "")
  | _ =>
      let ebins := linspace emin emax (nbins + 1) in
      let flux := map (fmul const_flux) (replicate nbins (Fin 1.0)) in
      Spectrum.__init__ cls ebins (Bare flux)
  end.

Definition write_file (self : ref) (specfile : string) (overwrite : bool)
    (fs : FileSystem) (w : World) : io_result () * FileSystem :=
  if bool_decide (is_Some (fs !! specfile)) && negb overwrite then
    (Failed (IOError ("File " ++ specfile ++ " exists and overwrite=False!")),
     fs)
  else
    match heap w !! self with
    | None => (Failed (PyExn DanglingReference), fs)
    | Some s =>
        let header := ("Energy" ++ tab ++ "Flux" ++ newline ++ "keV" ++ tab
                         ++ unit_name (_units (class_ s)))%string in
        if (length (emid s) =? length (flux s))%nat then
          (Done tt, <[specfile := Text header (zip (emid s) (flux s))]> fs)
        else (Failed (PyExn ValueError), fs)
    end.

Definition write_h5_file (self : ref) (specfile : string) (overwrite : bool)
    (fs : FileSystem) (w : World) : io_result () * FileSystem :=
  if bool_decide (is_Some (fs !! specfile)) && negb overwrite then
    (Failed (IOError ("File " ++ specfile ++ " exists and overwrite=False!")),
     fs)
  else
    (* [h5py.File(specfile, "w")] creates or truncates the file *)
    let f0 := {| h5_emin := None; h5_emax := None; h5_spectrum := None;
                 h5_arf := None |} in
    match heap w !! self with
    | None => (Failed (PyExn DanglingReference), <[specfile := HDF5 f0]> fs)
    | Some s =>
        match np.getitem (ebins s) 0 with
        | Raise e => (Failed (PyExn e), <[specfile := HDF5 f0]> fs)
        | Ok emin =>
            let f1 := {| h5_emin := Some emin; h5_emax := None;
                         h5_spectrum := None; h5_arf := None |} in
            match np.getitem (ebins s) (-1) with
            | Raise e => (Failed (PyExn e), <[specfile := HDF5 f1]> fs)
            | Ok emax =>
                let f := {| h5_emin := Some emin; h5_emax := Some emax;
                            h5_spectrum := Some (flux s);
                            h5_arf := filename <$> arf s |} in
                (Done tt, <[specfile := HDF5 f]> fs)
            end
        end
    end.

(** [cls(ebins, flux, arf)] and [cls(ebins, flux)] *)
Definition construct (cls : pyclass) (ebins flux : list float)
    (arf : option string) : M ref :=
  match arf with
  | Some name =>
      match cls with
      | cConvolvedSpectrum =>
          ConvolvedSpectrum.__init__ ebins (Bare flux) (ArfStr name)
      | _ => raise TypeError
      end
  | None => Spectrum.type_self cls ebins (Bare flux)
  end.

Definition from_file (cls : pyclass) (filename : string) (fs : FileSystem)
    (w : World) : io_result ref * World :=
  if endswith filename ".h5" then
    match fs !! filename with
    | Some (HDF5 f) =>
        match h5_spectrum f with
        | None => (Failed (KeyError "spectrum"), w)
        | Some flux =>
            let nbins := length flux in
            match h5_emin f with
            | None => (Failed (KeyError "emin"), w)
            | Some emin =>
                match h5_emax f with
                | None => (Failed (KeyError "emax"), w)
                | Some emax =>
                    let ebins := linspace emin emax (nbins + 1) in
                    constructed (construct cls ebins flux (h5_arf f) w)
                end
            end
        end
    | _ => (Failed OSError, w)   (* no such file, or not an HDF5 file *)
    end
  else
    match fs !! filename with
    | Some (Text _ rows) =>
        let emid := rows.*1 in
        let flux := rows.*2 in
        match emid with
        | m0 :: m1 :: _ =>
            let de := fsub m1 m0 in
            let half := fmul (Fin 0.5) de in
            let ebins := map (fun m => fsub m half) emid
                           ++ [fadd (List.last emid NaN) half] in
            constructed (construct cls ebins flux None w)
        | _ =>
            (* fewer than two rows: nothing to unpack, or [np.diff] of a
               scalar *)
            (Failed (PyExn ValueError), w)
        end
    | Some (HDF5 _) => (Failed (PyExn ValueError), w)   (* not a text file *)
    | None => (Failed OSError, w)
    end.

End Methods.
End Spectrum'.

(** Adjacent entries increase. *)
Definition increasing (xs : list float) : Prop :=
  forall i x y, xs !! i = Some x -> xs !! S i = Some y -> flt x y = true.

(** Edges at a constant distance [h] from one another, from [a] on. *)
Definition uniform_edges (a h : Q) (edges : list float) : Prop :=
  forall i e,
    edges !! i = Some e ->
    exists q, e = Fin q /\ q == a + inject_Z (Z.of_nat i) * h.

(** * Properties *)

(** ** Running computations *)

Section Running.
Context `{ext : Externals}.

Lemma bind_ret {A B} (a : A) (k : A -> M B) w : (mret a ≫= k) w = k a w.
Proof. reflexivity. Qed.

Lemma bind_raise {A B} (e : exn) (k : A -> M B) w :
  (raise e ≫= k) w = (Raise e, w).
Proof. reflexivity. Qed.

Lemma bind_lift {A B} (r : result A) (k : A -> M B) w :
  (lift r ≫= k) w = match r with Ok a => k a w | Raise e => (Raise e, w) end.
Proof. destruct r; reflexivity. Qed.

Lemma bind_bind {A B C} (m : M A) (k : A -> M B) (k' : B -> M C) w :
  ((m ≫= k) ≫= k') w = (m ≫= fun a => k a ≫= k') w.
Proof.
  unfold mbind, M_bind, bind. destruct (m w) as [[a|e] w1]; reflexivity.
Qed.

Lemma bind_deref {B} self (k : SpectrumObj -> M B) w o :
  heap w !! self = Some o -> (deref self ≫= k) w = k o w.
Proof. intros E. unfold mbind, M_bind, bind, deref. now rewrite E. Qed.

Lemma bind_modify {B} self f (k : () -> M B) w o :
  heap w !! self = Some o ->
  (modify self f ≫= k) w = k tt (with_heap (<[self := f o]> (heap w)) w).
Proof. intros E. unfold mbind, M_bind, bind, modify. now rewrite E. Qed.

Lemma run_modify self f w o :
  heap w !! self = Some o ->
  modify self f w = (Ok tt, with_heap (<[self := f o]> (heap w)) w).
Proof. intros E. unfold modify. now rewrite E. Qed.

Lemma bind_alloc {B} o (k : ref -> M B) w :
  (alloc o ≫= k) w = k (length (heap w)) (with_heap (heap w ++ [o]) w).
Proof. reflexivity. Qed.

Lemma bind_Ok {A B} (m : M A) (k : A -> M B) w a w1 :
  m w = (Ok a, w1) -> (m ≫= k) w = k a w1.
Proof. intros E. unfold mbind, M_bind, bind. now rewrite E. Qed.

Lemma bind_Raise {A B} (m : M A) (k : A -> M B) w e w1 :
  m w = (Raise e, w1) -> (m ≫= k) w = (Raise e, w1).
Proof. intros E. unfold mbind, M_bind, bind. now rewrite E. Qed.

(** The heap after an update of [self]. *)
Lemma heap_insert_lookup (h : list SpectrumObj) self o o' :
  h !! self = Some o -> <[self := o']> h !! self = Some o'.
Proof. intros E. apply list_lookup_insert_eq. eapply lookup_lt_Some, E. Qed.

Lemma lookup_with_heap_insert w w0 self o o' :
  heap w !! self = Some o ->
  heap (with_heap (<[self := o']> (heap w)) w0) !! self = Some o'.
Proof. apply heap_insert_lookup. Qed.

Lemma heap_insert_other (h : list SpectrumObj) self other o' :
  self <> other -> <[self := o']> h !! other = h !! other.
Proof. intros. now apply list_lookup_insert_ne. Qed.

Lemma heap_app_lookup (h : list SpectrumObj) o :
  (h ++ [o]) !! length h = Some o.
Proof. rewrite lookup_app_r by lia. now rewrite Nat.sub_diag. Qed.

Lemma heap_app_insert (h : list SpectrumObj) o o' :
  <[length h := o']> (h ++ [o]) = h ++ [o'].
Proof.
  rewrite insert_app_r_alt by lia. now rewrite Nat.sub_diag.
Qed.

Lemma heap_app_old (h : list SpectrumObj) o l x :
  h !! l = Some x -> (h ++ [o]) !! l = Some x.
Proof. intros E. rewrite lookup_app_l; [done | eapply lookup_lt_Some, E]. Qed.

(** Arrays of one shape combine element-wise. *)
Lemma broadcast2_same_length {A B C} (f : A -> B -> C) xs ys :
  length xs = length ys -> np.broadcast2 f xs ys = Ok (zip_with f xs ys).
Proof. intros E. unfold np.broadcast2. now rewrite E, Nat.eqb_refl. Qed.

Lemma multiply_same_length xs ys :
  length xs = length ys -> np.multiply xs ys = Ok (zip_with fmul xs ys).
Proof. apply broadcast2_same_length. Qed.

Lemma inplace2_same_length {A B} (f : A -> B -> A) xs ys :
  length xs = length ys -> np.inplace2 f xs ys = Ok (zip_with f xs ys).
Proof. intros E. unfold np.inplace2. now rewrite E, Nat.eqb_refl. Qed.

Lemma getitem_last {A} (x : A) (l : list A) d :
  np.getitem (x :: l) (-1) = Ok (List.last (x :: l) d).
Proof.
  unfold np.getitem.
  replace ((-1 <? 0)%Z) with true by reflexivity.
  cbv zeta.
  assert (Hn : (Z.of_nat (length (x :: l)) + -1 = Z.of_nat (length l))%Z)
    by (simpl length; lia).
  rewrite Hn.
  assert (Hb : ((0 <=? Z.of_nat (length l))
                && (Z.of_nat (length l) <? Z.of_nat (length (x :: l))))%Z
               = true).
  { apply andb_true_intro; split;
      [apply Z.leb_le; lia | apply Z.ltb_lt; simpl length; lia]. }
  rewrite Hb, Nat2Z.id.
  assert (Hl : (x :: l) !! length l = Some (List.last (x :: l) d)).
  { clear. revert x. induction l as [|y l IH]; intros x; [reflexivity|].
    simpl length.
    change ((x :: y :: l) !! S (length l)) with ((y :: l) !! length l).
    rewrite IH. reflexivity. }
  now rewrite Hl.
Qed.

Lemma length_tail1_init1 {A} (xs : list A) :
  length (np.tail1 xs) = length (np.init1 xs).
Proof.
  unfold np.tail1, np.init1. rewrite length_drop, length_take. lia.
Qed.

Lemma length_diff xs : length (np.diff xs) = (length xs - 1)%nat.
Proof.
  induction xs as [|x [|y xs] IH]; [reflexivity | reflexivity |].
  change (np.diff (x :: y :: xs)) with (fsub y x :: np.diff (y :: xs)).
  simpl length in *. lia.
Qed.

Lemma length_midpoints xs : length (midpoints xs) = (length xs - 1)%nat.
Proof.
  unfold midpoints.
  rewrite length_map, length_zip_with, <- length_tail1_init1.
  unfold np.tail1. rewrite length_drop. lia.
Qed.

(** [_compute_total_flux] on an instance with one flux value per bin. *)
Lemma compute_total_flux_ok w self o :
  heap w !! self = Some o ->
  length (flux o) = length (de o) ->
  length (emid o) = length (de o) ->
  Spectrum._compute_total_flux self w
  = (Ok tt, with_heap (<[self := refreshed o]> (heap w)) w).
Proof.
  intros Hs Hfl Hem. unfold Spectrum._compute_total_flux.
  rewrite (bind_deref _ _ _ _ Hs).
  rewrite multiply_same_length by done.
  rewrite bind_lift, (bind_modify _ _ _ _ _ Hs).
  pose proof (lookup_with_heap_insert w w self _
                (set_total_flux (np.sum (zip_with fmul (flux o) (de o))) o)
                Hs) as Hs1.
  rewrite (bind_deref _ _ _ _ Hs1). cbn [flux set_total_flux emid de].
  rewrite multiply_same_length by (rewrite length_map; congruence).
  rewrite bind_lift.
  rewrite multiply_same_length
    by (rewrite length_zip_with, length_map; lia).
  rewrite bind_lift, (bind_modify _ _ _ _ _ Hs1).
  match goal with
  | |- context [with_heap (<[self := ?x]> (heap ?wa)) ?wa] =>
      pose proof (lookup_with_heap_insert wa wa self _ x Hs1) as Hs2
  end.
  rewrite (bind_deref _ _ _ _ Hs2).
  cbn [flux set_total_flux set_total_energy_flux emid de].
  rewrite multiply_same_length by done.
  rewrite bind_lift, (getitem_last _ _ (Fin 0)), bind_lift.
  rewrite (run_modify _ _ _ _ Hs2).
  cbn [heap with_heap]. rewrite !list_insert_insert_eq.
  reflexivity.
Qed.

(** The constructor on one flux value per bin. *)
Lemma init_ok cls edges fl v w :
  Spectrum.as_quantity cls fl = Ok v ->
  length v = (length edges - 1)%nat ->
  Spectrum.__init__ cls edges fl w
  = (Ok (length (heap w)),
     with_heap (heap w ++ [instance cls edges v None]) w).
Proof.
  intros Hq Hv. unfold Spectrum.__init__.
  unfold np.add. rewrite broadcast2_same_length by apply length_tail1_init1.
  rewrite bind_lift, Hq, bind_lift, bind_alloc.
  erewrite bind_Ok.
  2:{ apply compute_total_flux_ok with (w := with_heap _ w).
      - apply heap_app_lookup.
      - cbn [flux de]. rewrite length_diff. exact Hv.
      - cbn [emid de]. fold (midpoints edges).
        now rewrite length_midpoints, length_diff. }
  cbn [heap with_heap]. rewrite heap_app_insert. reflexivity.
Qed.

Lemma convolved_init_ok edges fl v r w :
  Spectrum.as_quantity cConvolvedSpectrum fl = Ok v ->
  length v = (length edges - 1)%nat ->
  ConvolvedSpectrum.__init__ edges fl (ArfObject r) w
  = (Ok (length (heap w)),
     with_heap (heap w ++ [instance cConvolvedSpectrum edges v (Some r)]) w).
Proof.
  intros Hq Hv. unfold ConvolvedSpectrum.__init__.
  erewrite bind_Ok by (apply init_ok; eassumption).
  rewrite bind_ret.
  erewrite bind_modify by apply (heap_app_lookup (heap w)).
  cbn [heap with_heap]. rewrite heap_app_insert. reflexivity.
Qed.

End Running.

(** ** Cached aggregates (C3) *)

Section Aggregates.
Context `{ext : Externals}.

Lemma same_refl x : same x x.
Proof. destruct x; simpl; auto. reflexivity. Qed.

Lemma same_array_refl xs : same_array xs xs.
Proof. induction xs; constructor; auto using same_refl. Qed.

Lemma refreshed_consistent o : aggregates_consistent (refreshed o).
Proof. split; [apply same_refl | apply same_array_refl]. Qed.

(** Whenever [_compute_total_flux] returns on an instance with one flux
    value per bin, the aggregates of the instance are those of its flux. *)
Lemma compute_total_flux_consistent w self o :
  heap w !! self = Some o ->
  length (flux o) = length (de o) ->
  length (emid o) = length (de o) ->
  exists w' o',
    Spectrum._compute_total_flux self w = (Ok tt, w')
    /\ heap w' !! self = Some o'
    /\ flux o' = flux o
    /\ aggregates_consistent o'.
Proof.
  intros Hs Hfl Hem. eexists _, _. split; [|split; [|split]].
  - apply compute_total_flux_ok; eassumption.
  - cbn [heap with_heap]. eapply heap_insert_lookup, Hs.
  - reflexivity.
  - apply refreshed_consistent.
Qed.

End Aggregates.

(** ** The Wisconsin cross section (C6) *)

Section Wabs.

Lemma Qltb_true a b : Qltb a b = true <-> a < b.
Proof.
  unfold Qltb. rewrite negb_true_iff, <- not_true_iff_false, Qle_bool_iff.
  split; [apply Qnot_le_lt | apply Qlt_not_le].
Qed.

Lemma Qltb_false a b : Qltb a b = false <-> b <= a.
Proof. unfold Qltb. now rewrite negb_false_iff, Qle_bool_iff. Qed.

Lemma Qeq_bool_false a b : ~ a == b -> Qeq_bool a b = false.
Proof.
  intros E. apply not_true_iff_false. intros E'. now apply Qeq_bool_eq in E'.
Qed.

Lemma less_Fin a q : np.less (Fin a) (Fin q) = Qltb a q.
Proof. unfold np.less. simpl. apply orb_false_r. Qed.

Lemma fdiv_Fin a b : ~ b == 0 -> fdiv (Fin a) (Fin b) = Fin (a / b).
Proof. intros E. unfold fdiv. now rewrite (Qeq_bool_false _ _ E). Qed.

Lemma getitem_nat {A} (xs : list A) (k : nat) x :
  xs !! k = Some x -> np.getitem xs (Z.of_nat k) = Ok x.
Proof.
  intros E. pose proof (lookup_lt_Some _ _ _ E) as Hk. unfold np.getitem.
  replace (Z.of_nat k <? 0)%Z with false by (symmetry; apply Z.ltb_ge; lia).
  cbv zeta.
  replace ((0 <=? Z.of_nat k) && (Z.of_nat k <? Z.of_nat (length xs)))%Z
    with true.
  - now rewrite Nat2Z.id, E.
  - symmetry. apply andb_true_intro.
    split; [apply Z.leb_le | apply Z.ltb_lt]; lia.
Qed.

(** The segment of a positive energy: the binary search stops at the
    segment whose left boundary is below the energy and whose right
    boundary, for all but the topmost, is not; the polynomial of that
    segment is positive there. *)
Lemma wabs_segment q :
  0 < q ->
  exists (k : nat) (lo c0 c1 c2 : Q),
    wabs_idxs (Fin q) = Z.of_nat k
    /\ (k <= 13)%nat
    /\ wabs_emax !! k = Some (Fin lo)
    /\ wabs_c0 !! k = Some (Fin c0)
    /\ wabs_c1 !! k = Some (Fin c1)
    /\ wabs_c2 !! k = Some (Fin c2)
    /\ lo < q
    /\ (forall hi,
          (k < 13)%nat -> wabs_emax !! S k = Some (Fin hi) -> q <= hi)
    /\ 0 < c0 + c1 * q + c2 * q * q.
Proof.
  intros Hq.
  unfold wabs_idxs, np.searchsorted, wabs_emax.
  cbn -[np.less Z.min Z.sub Z.of_nat].
  rewrite !less_Fin.
  repeat match goal with
         | |- context [Qltb ?a q] =>
             let E := fresh "E" in
             destruct (Qltb a q) eqn:E;
             [apply Qltb_true in E | apply Qltb_false in E]
         end.
  all: try (exfalso; lra).
  all: match goal with
       | |- context [Z.min (Z.of_nat ?n - 1) 13] =>
           let k := eval vm_compute in
                      (Z.to_nat (Z.min (Z.of_nat n - 1) 13)) in
           exists k
       end.
  all: eexists _, _, _, _.
  all: split; [reflexivity|].
  all: split; [lia|].
  all: do 4 (split; [reflexivity|]).
  all: split; [lra|].
  all: split;
    [ intros hi Hk Hhi; try (exfalso; lia);
      injection Hhi as <-; lra
    | nra ].
Qed.

(** The cross section at a positive energy is the polynomial of the
    segment found by [wabs_idxs]. *)
Lemma wabs_cross_section1_formula q (k : nat) c0 c1 c2 :
  0 < q ->
  wabs_idxs (Fin q) = Z.of_nat k ->
  wabs_c0 !! k = Some (Fin c0) ->
  wabs_c1 !! k = Some (Fin c1) ->
  wabs_c2 !! k = Some (Fin c2) ->
  wabs_cross_section1 (Fin q)
  = Ok (Fin ((c0 + c1 * q + c2 * q * q) * 1.0e-24 / (q * q * q))).
Proof.
  intros Hq Hk H0 H1 H2.
  assert (Hq3 : 0 < q * q * q)
    by (repeat apply Qmult_lt_0_compat; exact Hq).
  unfold wabs_cross_section1. rewrite Hk.
  rewrite (getitem_nat _ _ _ H0), (getitem_nat _ _ _ H1),
    (getitem_nat _ _ _ H2).
  cbn [mbind result_bind rbind mret result_ret fmul fadd fcube].
  rewrite fdiv_Fin; [reflexivity|].
  intros E. rewrite E in Hq3. apply (Qlt_irrefl _ Hq3).
Qed.

End Wabs.

(** ** In-place operations and the cached aggregates (C3) *)

(** Steps of a computation in a world whose heap is known at [self]; a
    lifted result is stepped over once it is known. *)
Ltac mstep :=
  first
    [ rewrite bind_bind
    | rewrite bind_ret
    | rewrite bind_raise
    | rewrite bind_alloc
    | match goal with
      | |- context [(lift (Ok ?a) ≫= _) _] => rewrite (bind_lift (Ok a))
      | |- context [(lift (Raise ?e) ≫= _) _] => rewrite (bind_lift (Raise e))
      | Hs : heap ?w !! ?self = Some _
        |- context [(deref ?self ≫= _) ?w] =>
          rewrite (bind_deref _ _ _ _ Hs)
      | Hs : heap ?w !! ?self = Some ?o
        |- context [(modify ?self ?f ≫= _) ?w] =>
          rewrite (bind_modify _ _ _ _ _ Hs);
          pose proof (lookup_with_heap_insert w w self o (f o) Hs)
      end ];
  cbv beta.

Ltac msteps := repeat mstep.

(** The last step: [_compute_total_flux] on the current instance. *)
Ltac mrefresh :=
  match goal with
  | Hs : heap ?w !! ?self = Some ?o
    |- Spectrum._compute_total_flux ?self ?w = _ =>
      rewrite (compute_total_flux_ok w self o Hs);
      [ cbn [heap with_heap]; rewrite ?list_insert_insert_eq
      | cbn [flux set_flux de emid] ..]
  end.

Section Mutators.
Context `{ext : Externals}.

Lemma wf_lengths o :
  well_formed o ->
  length (flux o) = length (de o)
  /\ length (emid o) = length (de o)
  /\ length (flux o) = length (emid o)
  /\ length (emid o) = (length (ebins o) - 1)%nat.
Proof.
  intros [He Hm Hd Hn Hf Ha].
  rewrite Hf, Hn, Hd, Hm, length_diff, length_midpoints. auto.
Qed.

Lemma wf_set_flux o fl :
  well_formed o -> length fl = length (flux o) -> well_formed (set_flux fl o).
Proof.
  intros [He Hm Hd Hn Hf Ha] Hl. split; cbn; try assumption. congruence.
Qed.

Lemma wf_refreshed o : well_formed o -> well_formed (refreshed o).
Proof. intros [He Hm Hd Hn Hf Ha]. split; cbn; assumption. Qed.

(** A flux assignment followed by [_compute_total_flux]. *)
Lemma set_flux_then_refresh w self s fl :
  heap w !! self = Some s ->
  well_formed s ->
  length fl = length (flux s) ->
  (modify self (set_flux fl) ≫= fun _ => Spectrum._compute_total_flux self) w
  = (Ok tt,
     with_heap (<[self := refreshed (set_flux fl s)]> (heap w)) w).
Proof.
  intros Hs Hwf Hl. destruct (wf_lengths _ Hwf) as (L1 & L2 & L3 & L4).
  rewrite (bind_modify _ _ _ _ _ Hs). cbv beta.
  pose proof (lookup_with_heap_insert w w self _ (set_flux fl s) Hs) as Hs1.
  rewrite (compute_total_flux_ok _ _ _ Hs1); cbn [flux set_flux de emid];
    [| congruence | assumption].
  cbn [heap with_heap]. now rewrite list_insert_insert_eq.
Qed.

Lemma refreshes_intro (m : M ()) w self s fl :
  heap w !! self = Some s ->
  well_formed s ->
  m w = (Ok tt, with_heap (<[self := refreshed (set_flux fl s)]> (heap w)) w) ->
  length fl = length (flux s) ->
  refreshes m w self.
Proof.
  intros Hs Hwf E Hl. eexists _, _. split; [exact E|].
  split; [eapply heap_insert_lookup, Hs|].
  split; [now apply wf_refreshed, wf_set_flux | apply refreshed_consistent].
Qed.

Lemma setmask_same_length {A} (xs : list A) mask v :
  length xs = length mask ->
  np.setmask xs mask v
  = Ok (zip_with (fun x (m : bool) => if m then v else x) xs mask).
Proof. intros E. unfold np.setmask. now rewrite E, Nat.eqb_refl. Qed.

Lemma select_same_length {A} (xs : list A) mask :
  length xs = length mask ->
  np.select xs mask
  = Ok (omap (fun p : A * bool => if p.2 then Some p.1 else None)
             (zip xs mask)).
Proof. intros E. unfold np.select. now rewrite E, Nat.eqb_refl. Qed.

Lemma logical_and_same_length xs ys :
  length xs = length ys -> np.logical_and xs ys = Ok (zip_with andb xs ys).
Proof. apply broadcast2_same_length. Qed.

(** Band restriction re-derives the aggregates. *)
Lemma restrict_within_band_refreshes w self s emin emax :
  heap w !! self = Some s ->
  well_formed s ->
  refreshes (Spectrum.restrict_within_band self emin emax) w self.
Proof.
  intros Hs Hwf. destruct (wf_lengths _ Hwf) as (L1 & L2 & L3 & L4).
  unfold Spectrum.restrict_within_band.
  destruct emin as [emin|], emax as [emax|];
    (eapply refreshes_intro; [exact Hs | exact Hwf | msteps |]).
  - rewrite setmask_same_length by (now rewrite length_map).
    msteps. cbn [flux set_flux emid].
    rewrite setmask_same_length
      by (now rewrite length_zip_with, !length_map, L3, Nat.min_id).
    msteps. mrefresh; [reflexivity | |];
      now rewrite ?length_zip_with, ?length_map, ?L3, ?Nat.min_id.
  - now rewrite ?length_zip_with, ?length_map, ?L3, ?Nat.min_id.
  - rewrite setmask_same_length by (now rewrite length_map).
    msteps. mrefresh; [reflexivity | |];
      now rewrite ?length_zip_with, ?length_map, ?L3, ?Nat.min_id.
  - now rewrite ?length_zip_with, ?length_map, ?L3, ?Nat.min_id.
  - rewrite setmask_same_length by (now rewrite length_map).
    msteps. mrefresh; [reflexivity | |];
      now rewrite ?length_zip_with, ?length_map, ?L3, ?Nat.min_id.
  - now rewrite ?length_zip_with, ?length_map, ?L3, ?Nat.min_id.
  - mrefresh; [| assumption ..].
    replace s with (set_flux (flux s) s) at 2 by (now destruct s).
    reflexivity.
  - reflexivity.
Qed.

Lemma getitem_first {A} (xs : list A) :
  (1 <= length xs)%nat -> exists x, np.getitem xs 0 = Ok x.
Proof. destruct xs as [|x xs]; simpl; [lia|]. intros _. now exists x. Qed.

Lemma getitem_final {A} (xs : list A) :
  (1 <= length xs)%nat -> exists x, np.getitem xs (-1) = Ok x.
Proof.
  destruct xs as [|x xs]; simpl length; [lia|]. intros _.
  exists (List.last (x :: xs) x). apply getitem_last.
Qed.

(** The band limits of [rescale_flux] once the defaults are filled in. *)
Lemma rescale_limits (s : SpectrumObj) e0 e1 emin emax :
  np.getitem (ebins s) 0 = Ok e0 ->
  np.getitem (ebins s) (-1) = Ok e1 ->
  match emin with
  | None => lift (np.getitem (ebins s) 0)
  | Some emin => mret emin
  end = lift (Ok (default e0 emin))
  /\ match emax with
     | None => lift (np.getitem (ebins s) (-1))
     | Some emax => mret emax
     end = lift (Ok (default e1 emax)).
Proof.
  intros He0 He1. split.
  - destruct emin; [reflexivity | now rewrite He0].
  - destruct emax; [reflexivity | now rewrite He1].
Qed.

(** Rescaling re-derives the aggregates. *)
Lemma rescale_flux_refreshes w self s new_flux emin emax flux_type :
  heap w !! self = Some s ->
  well_formed s ->
  flux_type = "photons"%string \/ flux_type = "energy"%string ->
  refreshes (Spectrum.rescale_flux self new_flux emin emax flux_type) w self.
Proof.
  intros Hs Hwf Hft. destruct (wf_lengths _ Hwf) as (L1 & L2 & L3 & L4).
  destruct (getitem_first _ (wf_edges _ Hwf)) as [e0 He0].
  destruct (getitem_final _ (wf_edges _ Hwf)) as [e1 He1].
  destruct (rescale_limits s e0 e1 emin emax He0 He1) as [Hlo Hhi].
  unfold Spectrum.rescale_flux.
  destruct Hft as [-> | ->];
    (eapply refreshes_intro; [exact Hs | exact Hwf | | ]).
  - msteps. rewrite Hlo. msteps. rewrite Hhi. msteps.
    rewrite logical_and_same_length by (now rewrite !length_map).
    msteps.
    replace (String.eqb "photons" "photons") with true by reflexivity.
    cbv iota. msteps.
    rewrite multiply_same_length by exact L1. msteps.
    rewrite select_same_length
      by (now rewrite !length_zip_with, !length_map, <- L1, <- L3,
            !Nat.min_id).
    msteps. mrefresh; [reflexivity | |];
      now rewrite ?length_map.
  - now rewrite length_map.
  - msteps. rewrite Hlo. msteps. rewrite Hhi. msteps.
    rewrite logical_and_same_length by (now rewrite !length_map).
    msteps.
    replace (String.eqb "energy" "photons") with false by reflexivity.
    replace (String.eqb "energy" "energy") with true by reflexivity.
    cbv iota. msteps.
    rewrite multiply_same_length by (now rewrite length_map).
    msteps.
    rewrite multiply_same_length
      by (now rewrite length_zip_with, length_map, <- L3, Nat.min_id).
    msteps.
    rewrite select_same_length
      by (now rewrite !length_zip_with, !length_map, <- L1, <- L3,
            !Nat.min_id).
    msteps. mrefresh; [reflexivity | |];
      now rewrite ?length_map.
  - now rewrite length_map.
Qed.

(** The segment index is always one that Python accepts. *)
Lemma wabs_cross_section1_total E : exists v, wabs_cross_section1 E = Ok v.
Proof.
  unfold wabs_cross_section1.
  assert (Hr : (-1 <= wabs_idxs E <= 13)%Z) by (unfold wabs_idxs; lia).
  assert (Hc : exists k : nat,
             (k <= 14)%nat /\ wabs_idxs E = (Z.of_nat k - 1)%Z).
  { exists (Z.to_nat (wabs_idxs E + 1)). split; lia. }
  destruct Hc as (k & Hk & ->).
  do 15 (destruct k as [|k]; [eexists; reflexivity|]). lia.
Qed.

Lemma wabs_cross_section_total e :
  exists sigma, wabs_cross_section e = Ok sigma /\ length sigma = length e.
Proof.
  unfold wabs_cross_section. induction e as [|x e (sg & E & L)].
  - now exists [].
  - destruct (wabs_cross_section1_total x) as [v Hv].
    exists (v :: sg). cbn [mapM]. rewrite Hv, E. cbn. auto.
Qed.

(** Foreground absorption with the Wisconsin model re-derives the
    aggregates. *)
Lemma apply_foreground_absorption_refreshes w self s nH redshift :
  heap w !! self = Some s ->
  well_formed s ->
  refreshes (Spectrum.apply_foreground_absorption self nH "wabs" redshift)
            w self.
Proof.
  intros Hs Hwf. destruct (wf_lengths _ Hwf) as (L1 & L2 & L3 & L4).
  destruct (wabs_cross_section_total
              (map (fun m => fmul m (fadd (Fin 1.0) redshift)) (emid s)))
    as (sigma & Hsg & Lsg).
  rewrite length_map in Lsg.
  unfold Spectrum.apply_foreground_absorption.
  eapply refreshes_intro; [exact Hs | exact Hwf | | ].
  - msteps.
    replace (String.eqb "wabs" "wabs") with true by reflexivity.
    cbv iota. msteps. rewrite Hsg. msteps.
    rewrite inplace2_same_length by (rewrite length_map; congruence).
    msteps. mrefresh; [reflexivity | |];
      rewrite ?length_zip_with, ?length_map; lia.
  - rewrite ?length_zip_with, ?length_map; lia.
Qed.

(** Line injection re-derives the aggregates. *)
Lemma add_emission_line_refreshes w self s line_center line_width line_amp :
  heap w !! self = Some s ->
  well_formed s ->
  refreshes (Spectrum.add_emission_line self line_center line_width line_amp
               "gaussian") w self.
Proof.
  intros Hs Hwf. destruct (wf_lengths _ Hwf) as (L1 & L2 & L3 & L4).
  unfold Spectrum.add_emission_line.
  eapply refreshes_intro; [exact Hs | exact Hwf | | ].
  - replace (String.eqb "gaussian" "gaussian") with true by reflexivity.
    cbv iota zeta. msteps.
    rewrite inplace2_same_length by (now rewrite length_map).
    msteps. mrefresh; [reflexivity | |];
      rewrite ?length_zip_with, ?length_map; lia.
  - rewrite ?length_zip_with, ?length_map; lia.
Qed.

Lemma add_absorption_line_refreshes w self s line_center line_width
    equiv_width :
  heap w !! self = Some s ->
  well_formed s ->
  refreshes (Spectrum.add_absorption_line self line_center line_width
               equiv_width "gaussian") w self.
Proof.
  intros Hs Hwf. destruct (wf_lengths _ Hwf) as (L1 & L2 & L3 & L4).
  unfold Spectrum.add_absorption_line.
  eapply refreshes_intro; [exact Hs | exact Hwf | | ].
  - replace (String.eqb "gaussian" "gaussian") with true by reflexivity.
    cbv iota zeta. msteps.
    rewrite inplace2_same_length by (now rewrite length_map).
    msteps. mrefresh; [reflexivity | |];
      rewrite ?length_zip_with, ?length_map; lia.
  - rewrite ?length_zip_with, ?length_map; lia.
Qed.

End Mutators.

(** ** Combining spectra (C3, C4) *)

Section Combining.
Context `{ext : Externals}.

(** [_check_binning_units] raises exactly when the edges or the unit tags
    differ, and changes nothing. *)
Lemma check_binning_units_run w self other s o :
  heap w !! self = Some s ->
  heap w !! other = Some o ->
  well_formed s ->
  well_formed o ->
  Spectrum._check_binning_units self other w
  = if edges_differ s o then (Raise (RuntimeError binning_message), w)
    else if units_differ s o then (Raise (RuntimeError units_message), w)
    else (Ok tt, w).
Proof.
  intros Hs Ho Ws Wo.
  destruct (wf_lengths _ Ws) as (_ & _ & _ & Ls).
  destruct (wf_lengths _ Wo) as (_ & _ & _ & Lo).
  pose proof (wf_edges _ Ws). pose proof (wf_edges _ Wo).
  unfold Spectrum._check_binning_units, edges_differ, units_differ.
  msteps.
  rewrite (wf_nbins _ Ws), (wf_nbins _ Wo), Ls, Lo.
  destruct (Nat.eqb_spec (length (ebins s)) (length (ebins o))) as [E|E].
  - replace (length (ebins s) - 1 =? length (ebins o) - 1)%nat with true
      by (symmetry; apply Nat.eqb_eq; lia).
    cbn [negb orb]. msteps.
    unfold np.isclose. rewrite broadcast2_same_length by exact E.
    msteps. unfold np.all.
    destruct (forallb id _); cbn [negb]; [|reflexivity].
    destruct (bool_decide _); reflexivity.
  - replace (length (ebins s) - 1 =? length (ebins o) - 1)%nat with false
      by (symmetry; apply Nat.eqb_neq; lia).
    cbn [negb orb]. msteps. reflexivity.
Qed.

(** In-place addition of a combinable spectrum: the flux of [self] is
    replaced, its aggregates are left as they were. *)
Lemma iadd_run w self other s o :
  heap w !! self = Some s ->
  heap w !! other = Some o ->
  well_formed s ->
  well_formed o ->
  edges_differ s o = false ->
  units_differ s o = false ->
  obj.__iadd__ self other w
  = (Ok self,
     with_heap (<[self := set_flux (zip_with fadd (flux s) (flux o)) s]>
                  (heap w)) w).
Proof.
  intros Hs Ho Ws Wo Ed Ud.
  unfold obj.__iadd__, Spectrum.__iadd__.
  erewrite bind_Ok
    by (rewrite (check_binning_units_run _ _ _ _ _ Hs Ho Ws Wo), Ed, Ud;
        reflexivity).
  msteps.
  rewrite inplace2_same_length.
  - msteps. reflexivity.
  - destruct (wf_lengths _ Ws) as (_ & _ & -> & ->).
    destruct (wf_lengths _ Wo) as (_ & _ & -> & ->).
    apply orb_false_elim in Ed as [Ed _].
    apply negb_false_iff, Nat.eqb_eq in Ed. now rewrite Ed.
Qed.

End Combining.

Section CombiningTheorems.
Context `{ext : Externals}.

(** C3 (a defect of the code).  Every in-place operation must leave the
    cached aggregates consistent with the new flux.  Band restriction,
    rescaling, absorption and line injection do (the lemmas
    [..._refreshes] above); in-place addition does not.  With
    [a = Spectrum([0,1,2], [1,1])] and [b = Spectrum([0,1,2], [1,3])],
    after [a += b] the flux of [a] is [2, 4], but its [total_flux] is still
    2 where the sum of flux times width is 6, and its cumulative
    distribution is still [0, 1/2, 1] where that of the new flux is
    [0, 1/3, 1]. *)
Theorem iadd_leaves_stale_aggregates :
  let edges := [Fin 0; Fin 1; Fin 2] in
  let program :=
    a ← Spectrum.__init__ cSpectrum edges (Bare [Fin 1; Fin 1]);
    b ← Spectrum.__init__ cSpectrum edges (Bare [Fin 1; Fin 3]);
    obj.__iadd__ a b in
  exists w s,
    program (empty_world 0) = (Ok 0%nat, w)
    /\ heap w !! 0%nat = Some s
    /\ same_array (flux s) [Fin 2; Fin 4]
    /\ same (total_flux s) (Fin 2)
    /\ same (photon_rate s) (Fin 6)
    /\ same_array (cumspec s) [Fin 0; Fin 0.5; Fin 1]
    /\ same_array (distribution s) [Fin 0; Fin (1 # 3); Fin 1]
    /\ ~ aggregates_consistent s.
Proof.
  cbv zeta. eexists _, _.
  split; [vm_compute; reflexivity|].
  split; [reflexivity|].
  split; [repeat constructor|].
  split; [reflexivity|].
  split; [reflexivity|].
  split; [repeat constructor|].
  split; [repeat constructor|].
  intros [E _]. vm_compute in E. discriminate E.
Qed.

Lemma returns_new_keeps (m : M ref) w o l x :
  returns_new m w o ->
  heap w !! l = Some x ->
  heap (m w).2 !! l = Some x.
Proof. intros -> E. cbn. now apply heap_app_old. Qed.

Lemma combined_flux_length (f : float -> float -> float) s o :
  well_formed s ->
  well_formed o ->
  edges_differ s o = false ->
  length (flux s) = length (flux o)
  /\ length (zip_with f (flux s) (flux o)) = (length (ebins s) - 1)%nat.
Proof.
  intros Ws Wo Ed.
  destruct (wf_lengths _ Ws) as (_ & _ & L1 & L2).
  destruct (wf_lengths _ Wo) as (_ & _ & L3 & L4).
  apply orb_false_elim in Ed as [Ed _].
  apply negb_false_iff, Nat.eqb_eq in Ed.
  rewrite length_zip_with. lia.
Qed.

Lemma as_quantity_own cls v :
  Spectrum.as_quantity cls (Quantity (Some (_units cls)) v) = Ok v.
Proof. unfold Spectrum.as_quantity. now rewrite decide_True. Qed.

Lemma wf_arf_cases s :
  well_formed s ->
  (class_ s = cConvolvedSpectrum /\ exists r, arf s = Some r)
  \/ (class_ s <> cConvolvedSpectrum /\ arf s = None).
Proof.
  intros Ws. destruct (wf_arf _ Ws) as [W1 W2].
  destruct (decide (class_ s = cConvolvedSpectrum)) as [E|E].
  - left. split; [exact E|]. destruct (W2 E) as [r Hr]. eauto.
  - right. split; [exact E|]. destruct (arf s) eqn:Ha; [|reflexivity].
    exfalso. apply E, W1. eauto.
Qed.

(** C4.  For two well-formed spectra [a] and [b], [a + b] and [a - b]
    raise the binning-mismatch error, leaving the world as it is, whenever
    the edge sequences differ (in length, or beyond the tolerance of
    [np.isclose]) or the unit tags differ; otherwise each returns a new
    instance of the class of [a], on the edges of [a], whose flux is the
    element-wise sum (difference), and [a] and [b] are unchanged. *)
Theorem add_subtract_contract w a b sa sb :
  heap w !! a = Some sa ->
  heap w !! b = Some sb ->
  well_formed sa ->
  well_formed sb ->
  if edges_differ sa sb || units_differ sa sb then
    (exists msg, obj.__add__ a b w = (Raise (RuntimeError msg), w))
    /\ (exists msg, obj.__sub__ a b w = (Raise (RuntimeError msg), w))
  else
    let sum := instance (class_ sa) (ebins sa)
                 (zip_with fadd (flux sa) (flux sb)) (arf sa) in
    let difference := instance (class_ sa) (ebins sa)
                        (zip_with fsub (flux sa) (flux sb)) (arf sa) in
    returns_new (obj.__add__ a b) w sum
    /\ returns_new (obj.__sub__ a b) w difference
    /\ heap (obj.__add__ a b w).2 !! a = Some sa
    /\ heap (obj.__add__ a b w).2 !! b = Some sb
    /\ heap (obj.__sub__ a b w).2 !! a = Some sa
    /\ heap (obj.__sub__ a b w).2 !! b = Some sb.
Proof.
  intros Ha Hb Wa Wb.
  pose proof (check_binning_units_run _ _ _ _ _ Ha Hb Wa Wb) as Hck.
  destruct (edges_differ sa sb) eqn:Ed; cbn [orb].
  { (* the edges differ *)
    split; exists binning_message;
      unfold obj.__add__, obj.__sub__; msteps;
      unfold ConvolvedSpectrum.__add__, ConvolvedSpectrum.__sub__,
        Spectrum.__add__, Spectrum.__sub__;
      destruct (class_ sa); now rewrite (bind_Raise _ _ _ _ _ Hck). }
  destruct (units_differ sa sb) eqn:Ud.
  { split; exists units_message;
      unfold obj.__add__, obj.__sub__; msteps;
      unfold ConvolvedSpectrum.__add__, ConvolvedSpectrum.__sub__,
        Spectrum.__add__, Spectrum.__sub__;
      destruct (class_ sa); now rewrite (bind_Raise _ _ _ _ _ Hck). }
  cbv zeta.
  destruct (combined_flux_length fadd _ _ Wa Wb Ed) as [Lf La].
  destruct (combined_flux_length fsub _ _ Wa Wb Ed) as [_ Ls].
  assert (Hadd : returns_new (obj.__add__ a b) w
                   (instance (class_ sa) (ebins sa)
                      (zip_with fadd (flux sa) (flux sb)) (arf sa))).
  { unfold returns_new, obj.__add__. msteps.
    destruct (wf_arf_cases _ Wa) as [[Hc [r Hr]] | [Hc Hr]].
    - rewrite Hc. unfold ConvolvedSpectrum.__add__.
      rewrite (bind_Ok _ _ _ _ _ Hck). msteps.
      unfold np.add. rewrite broadcast2_same_length by exact Lf. msteps.
      unfold ConvolvedSpectrum.get_arf. msteps. rewrite Hr. msteps.
      rewrite Hc. apply convolved_init_ok; [apply as_quantity_own | exact La].
    - replace (match class_ sa with
               | cConvolvedSpectrum => ConvolvedSpectrum.__add__ a b
               | _ => Spectrum.__add__ a b
               end) with (Spectrum.__add__ a b)
        by (destruct (class_ sa); congruence).
      unfold Spectrum.__add__.
      rewrite (bind_Ok _ _ _ _ _ Hck). msteps.
      unfold np.add. rewrite broadcast2_same_length by exact Lf. msteps.
      rewrite Hr. unfold Spectrum.type_self.
      replace (match class_ sa with
               | cConvolvedSpectrum => raise TypeError
               | _ => Spectrum.__init__ (class_ sa) (ebins sa)
                        (Quantity (Some (_units (class_ sa)))
                           (zip_with fadd (flux sa) (flux sb)))
               end) with (Spectrum.__init__ (class_ sa) (ebins sa)
                            (Quantity (Some (_units (class_ sa)))
                               (zip_with fadd (flux sa) (flux sb))))
        by (destruct (class_ sa); congruence).
      apply init_ok; [apply as_quantity_own | exact La]. }
  assert (Hsub : returns_new (obj.__sub__ a b) w
                   (instance (class_ sa) (ebins sa)
                      (zip_with fsub (flux sa) (flux sb)) (arf sa))).
  { unfold returns_new, obj.__sub__. msteps.
    destruct (wf_arf_cases _ Wa) as [[Hc [r Hr]] | [Hc Hr]].
    - rewrite Hc. unfold ConvolvedSpectrum.__sub__.
      rewrite (bind_Ok _ _ _ _ _ Hck). msteps.
      unfold np.subtract. rewrite broadcast2_same_length by exact Lf.
      msteps.
      unfold ConvolvedSpectrum.get_arf. msteps. rewrite Hr. msteps.
      rewrite Hc. apply convolved_init_ok; [apply as_quantity_own | exact Ls].
    - replace (match class_ sa with
               | cConvolvedSpectrum => ConvolvedSpectrum.__sub__ a b
               | _ => Spectrum.__sub__ a b
               end) with (Spectrum.__sub__ a b)
        by (destruct (class_ sa); congruence).
      unfold Spectrum.__sub__.
      rewrite (bind_Ok _ _ _ _ _ Hck). msteps.
      unfold np.subtract. rewrite broadcast2_same_length by exact Lf.
      msteps.
      rewrite Hr. unfold Spectrum.type_self.
      replace (match class_ sa with
               | cConvolvedSpectrum => raise TypeError
               | _ => Spectrum.__init__ (class_ sa) (ebins sa)
                        (Quantity (Some (_units (class_ sa)))
                           (zip_with fsub (flux sa) (flux sb)))
               end) with (Spectrum.__init__ (class_ sa) (ebins sa)
                            (Quantity (Some (_units (class_ sa)))
                               (zip_with fsub (flux sa) (flux sb))))
        by (destruct (class_ sa); congruence).
      apply init_ok; [apply as_quantity_own | exact Ls]. }
  repeat split; try assumption; eauto using returns_new_keeps.
Qed.

End CombiningTheorems.

(** ** Convolution and deconvolution (C1, C2) *)

Section Convolution.
Context `{ext : Externals}.

Lemma instance_well_formed cls edges v r :
  (1 <= length edges)%nat ->
  length v = (length edges - 1)%nat ->
  (is_Some r <-> cls = cConvolvedSpectrum) ->
  well_formed (instance cls edges v r).
Proof.
  intros He Hv Hr. split; cbn; try done.
  now rewrite length_midpoints.
Qed.

(** [deconvolve] on a well-formed convolved spectrum. *)
Lemma deconvolve_run w c s r :
  heap w !! c = Some s ->
  class_ s = cConvolvedSpectrum ->
  arf s = Some r ->
  well_formed s ->
  returns_new (obj.deconvolve c) w
    (instance cSpectrum (ebins s)
       (np.nan_to_num
          (zip_with fdiv (flux s) (map (interpolate_area r) (emid s))))
       None).
Proof.
  intros Hs Hc Hr Ws. destruct (wf_lengths _ Ws) as (L1 & L2 & L3 & L4).
  unfold returns_new, obj.deconvolve. msteps. rewrite Hc.
  unfold ConvolvedSpectrum.deconvolve, ConvolvedSpectrum.get_arf.
  msteps. rewrite Hr. msteps.
  unfold np.divide. rewrite broadcast2_same_length by (now rewrite length_map).
  msteps. apply init_ok; [reflexivity|].
  unfold np.nan_to_num. rewrite length_map, length_zip_with, length_map. lia.
Qed.

Lemma nan_to_num1_finite x : isfinite (np.nan_to_num1 x) = true.
Proof. now destruct x. Qed.

(** [convolve] on a well-formed flux-domain spectrum. *)
Lemma convolve_run w sp s r :
  heap w !! sp = Some s ->
  class_ s = cSpectrum ->
  well_formed s ->
  returns_new (ConvolvedSpectrum.convolve sp (ArfObject r)) w
    (instance cConvolvedSpectrum (ebins s)
       (zip_with fmul (flux s) (map (interpolate_area r) (emid s)))
       (Some r)).
Proof.
  intros Hs Hc Ws. destruct (wf_lengths _ Ws) as (L1 & L2 & L3 & L4).
  unfold returns_new, ConvolvedSpectrum.convolve. msteps.
  rewrite multiply_same_length by (now rewrite length_map).
  msteps. rewrite Hc. apply convolved_init_ok; [reflexivity|].
  rewrite length_zip_with, length_map. lia.
Qed.

(** Multiplying by a positive finite area and dividing by it again. *)
Lemma round_trip_bin f a :
  0 < a -> same (np.nan_to_num1 (fdiv (fmul (Fin f) (Fin a)) (Fin a))) (Fin f).
Proof.
  intros Ha. cbn [fmul].
  rewrite fdiv_Fin by (intros E; rewrite E in Ha; apply (Qlt_irrefl _ Ha)).
  cbn. field. intros E. rewrite E in Ha. apply (Qlt_irrefl _ Ha).
Qed.

Lemma round_trip_array (area : float -> float) fl em :
  length fl = length em ->
  Forall (fun x => isfinite x = true) fl ->
  Forall (fun e => exists a, area e = Fin a /\ 0 < a) em ->
  same_array
    (np.nan_to_num
       (zip_with fdiv (zip_with fmul fl (map area em)) (map area em)))
    fl.
Proof.
  revert em. induction fl as [|x fl IH]; intros [|e em] L Hf Ha;
    try discriminate; [constructor|].
  inversion Hf as [|? ? Hx Hf']; inversion Ha as [|? ? (a & Ea & Pa) Ha'];
    subst.
  cbn [map zip_with np.nan_to_num]. constructor.
  - rewrite Ea. destruct x as [f| | |]; try discriminate.
    now apply round_trip_bin.
  - apply IH; [now injection L | assumption ..].
Qed.

End Convolution.

Section ConvolutionTheorems.
Context `{ext : Externals}.

(** C1 (as amended).  For every well-formed ConvolvedSpectrum,
    [deconvolve] returns a new flux-domain Spectrum on the same edges whose
    flux is the quotient of count rate and interpolated area passed through
    [np.nan_to_num]: every value of it is finite; a NaN quotient (0/0)
    becomes exactly 0, an infinite quotient becomes the finite double of
    largest magnitude and the same sign, a finite quotient is kept.  In a
    bin of zero area that is 0 for a zero count rate and +-DBL_MAX, not 0,
    for a nonzero one. *)
Theorem deconvolve_sanitises w c s r :
  heap w !! c = Some s ->
  class_ s = cConvolvedSpectrum ->
  arf s = Some r ->
  well_formed s ->
  let quotient := zip_with fdiv (flux s) (map (interpolate_area r) (emid s)) in
  let result := instance cSpectrum (ebins s) (np.nan_to_num quotient) None in
  returns_new (obj.deconvolve c) w result
  /\ _units (class_ result) = photon_flux_density
  /\ Forall (fun x => isfinite x = true) (flux result)
  /\ (forall i q,
        quotient !! i = Some q ->
        flux result !! i
        = Some match q with
               | NaN => Fin 0
               | PInf => Fin DBL_MAX
               | NInf => Fin (- DBL_MAX)
               | Fin v => Fin v
               end)
  /\ (forall i f e a,
        flux s !! i = Some (Fin f) ->
        emid s !! i = Some e ->
        interpolate_area r e = Fin a ->
        a == 0 ->
        flux result !! i
        = Some (if Qeq_bool f 0 then Fin 0
                else if Qltb 0 f then Fin DBL_MAX else Fin (- DBL_MAX))).
Proof.
  intros Hs Hc Hr Ws quotient result.
  split; [now apply deconvolve_run|].
  split; [reflexivity|].
  assert (Hq : forall i q, quotient !! i = Some q ->
                 flux result !! i = Some (np.nan_to_num1 q)).
  { intros i q E. cbn. unfold np.nan_to_num.
    now rewrite list_lookup_fmap, E. }
  split; [|split].
  - cbn. unfold np.nan_to_num. apply Forall_map, Forall_forall.
    intros x _. apply nan_to_num1_finite.
  - intros i q E. rewrite (Hq _ _ E). now destruct q.
  - intros i f e a Ef Ee Ea Za.
    rewrite (Hq i (fdiv (Fin f) (Fin a))).
    + unfold fdiv. rewrite (proj2 (Qeq_bool_iff a 0) Za).
      destruct (Qeq_bool f 0); [reflexivity|]. now destruct (Qltb 0 f).
    + unfold quotient.
      rewrite lookup_zip_with, Ef, list_lookup_fmap, Ee. cbn -[fdiv].
      now rewrite Ea.
Qed.

(** C2.  For a well-formed flux-domain Spectrum [s] with finite flux and a
    response whose interpolated area is positive (and finite) at every bin
    midpoint, [convolve] returns a convolved spectrum whose [deconvolve]
    returns a flux-domain Spectrum on the edges of [s] with the flux of [s]
    in every bin; [s] itself is unchanged. *)
Theorem convolve_deconvolve_round_trip w sp s r :
  heap w !! sp = Some s ->
  class_ s = cSpectrum ->
  well_formed s ->
  Forall (fun x => isfinite x = true) (flux s) ->
  Forall (fun e => exists a, interpolate_area r e = Fin a /\ 0 < a)
         (emid s) ->
  exists c w1 d w2 s',
    ConvolvedSpectrum.convolve sp (ArfObject r) w = (Ok c, w1)
    /\ obj.deconvolve c w1 = (Ok d, w2)
    /\ heap w2 !! d = Some s'
    /\ class_ s' = cSpectrum
    /\ ebins s' = ebins s
    /\ same_array (flux s') (flux s)
    /\ heap w2 !! sp = Some s.
Proof.
  intros Hs Hc Ws Hf Ha. destruct (wf_lengths _ Ws) as (L1 & L2 & L3 & L4).
  pose proof (convolve_run _ _ _ r Hs Hc Ws) as Hcv.
  set (conv := instance cConvolvedSpectrum (ebins s)
                 (zip_with fmul (flux s) (map (interpolate_area r) (emid s)))
                 (Some r)) in *.
  assert (Wc : well_formed conv).
  { apply instance_well_formed; [apply (wf_edges _ Ws) | |].
    - rewrite length_zip_with, length_map. lia.
    - split; [reflexivity | intros _; eexists; reflexivity]. }
  set (w1 := with_heap (heap w ++ [conv]) w).
  assert (Hl : heap w1 !! length (heap w) = Some conv)
    by apply heap_app_lookup.
  pose proof (deconvolve_run w1 _ conv r Hl eq_refl eq_refl Wc) as Hdc.
  eexists _, _, _, _, _.
  split; [exact Hcv|]. split; [exact Hdc|].
  split; [apply heap_app_lookup|].
  split; [reflexivity|]. split; [reflexivity|].
  split.
  - cbn. rewrite <- (wf_emid _ Ws). now apply round_trip_array.
  - cbn. now apply heap_app_old, heap_app_old.
Qed.

End ConvolutionTheorems.

Section ConvolutionExamples.
#[local] Existing Instance standin.externals.

(** C1 as stated fails: a bin of zero area whose count rate is not zero
    does not get flux zero.  [ConvolvedSpectrum([1,2], [1], arf)] with a
    response of area 0 deconvolves to the flux [DBL_MAX]. *)
Lemma deconvolve_zero_area_not_zero :
  ~ (forall (ext : Externals) w c s r w' d s',
       heap w !! c = Some s ->
       class_ s = cConvolvedSpectrum ->
       arf s = Some r ->
       well_formed s ->
       obj.deconvolve c w = (Ok d, w') ->
       heap w' !! d = Some s' ->
       forall i e x,
         emid s !! i = Some e ->
         interpolate_area r e = Fin 0 ->
         flux s' !! i = Some x ->
         same x (Fin 0)).
Proof.
  intros claim.
  assert (W : well_formed example.c).
  { apply instance_well_formed; [cbn; lia | reflexivity |].
    split; [reflexivity | intros _; eexists; reflexivity]. }
  pose proof (deconvolve_run (ext := standin.externals)
                (example.world [example.c]) 0%nat example.c
                (example.constant_response 0) eq_refl eq_refl eq_refl W)
    as Run.
  specialize (claim standin.externals _ _ _ _ _ _ _
                (eq_refl : heap (example.world [example.c]) !! 0%nat
                           = Some example.c)
                eq_refl eq_refl W Run (heap_app_lookup _ _)
                0%nat _ (Fin DBL_MAX) eq_refl eq_refl eq_refl).
  vm_compute in claim. discriminate claim.
Qed.

Lemma example_c_well_formed : well_formed example.c.
Proof.
  apply instance_well_formed; [cbn; lia | reflexivity |].
  split; [reflexivity | intros _; eexists; reflexivity].
Qed.

Lemma example_a_well_formed : well_formed example.a.
Proof.
  apply instance_well_formed; [cbn; lia | reflexivity |].
  split; [intros [? E]; discriminate E | intros E; discriminate E].
Qed.

Lemma example_b_well_formed : well_formed example.b.
Proof.
  apply instance_well_formed; [cbn; lia | reflexivity |].
  split; [intros [? E]; discriminate E | intros E; discriminate E].
Qed.

Lemma deconvolve_sanitises_witness :
  let w := example.world [example.c] in
  heap w !! 0%nat = Some example.c
  /\ class_ example.c = cConvolvedSpectrum
  /\ arf example.c = Some (example.constant_response 0)
  /\ returns_new (obj.deconvolve 0%nat) w
       (instance cSpectrum [Fin 1; Fin 2]
          (np.nan_to_num [fdiv (Fin 1) (Fin 0)]) None).
Proof.
  cbv zeta. split; [reflexivity|]. split; [reflexivity|].
  split; [reflexivity|].
  exact (proj1 (deconvolve_sanitises (example.world [example.c]) 0%nat
                  example.c (example.constant_response 0)
                  eq_refl eq_refl eq_refl example_c_well_formed)).
Defined.

Lemma convolve_deconvolve_round_trip_witness :
  let w := example.world [example.a] in
  let r := example.constant_response 2 in
  heap w !! 0%nat = Some example.a
  /\ class_ example.a = cSpectrum
  /\ Forall (fun x => isfinite x = true) (flux example.a)
  /\ Forall (fun e => exists a, interpolate_area r e = Fin a /\ 0 < a)
            (emid example.a)
  /\ exists c w1 d w2 s',
       ConvolvedSpectrum.convolve 0%nat (ArfObject r) w = (Ok c, w1)
       /\ obj.deconvolve c w1 = (Ok d, w2)
       /\ heap w2 !! d = Some s'
       /\ class_ s' = cSpectrum
       /\ ebins s' = ebins example.a
       /\ same_array (flux s') (flux example.a)
       /\ heap w2 !! 0%nat = Some example.a.
Proof.
  cbv zeta.
  assert (Hf : Forall (fun x => isfinite x = true) (flux example.a))
    by (repeat constructor).
  assert (Ha : Forall (fun e => exists a,
                         interpolate_area (example.constant_response 2) e
                         = Fin a /\ 0 < a) (emid example.a))
    by (repeat constructor; exists 2; split; reflexivity).
  split; [reflexivity|]. split; [reflexivity|].
  split; [exact Hf|]. split; [exact Ha|].
  exact (convolve_deconvolve_round_trip (example.world [example.a]) 0%nat
           example.a (example.constant_response 2)
           eq_refl eq_refl example_a_well_formed Hf Ha).
Defined.

Lemma add_subtract_contract_witness :
  let w := example.world [example.a; example.b] in
  heap w !! 0%nat = Some example.a
  /\ heap w !! 1%nat = Some example.b
  /\ returns_new (obj.__add__ 0%nat 1%nat) w
       (instance cSpectrum [Fin 0; Fin 1; Fin 2]
          [fadd (Fin 1) (Fin 1); fadd (Fin 1) (Fin 3)] None)
  /\ returns_new (obj.__sub__ 0%nat 1%nat) w
       (instance cSpectrum [Fin 0; Fin 1; Fin 2]
          [fsub (Fin 1) (Fin 1); fsub (Fin 1) (Fin 3)] None).
Proof.
  cbv zeta. split; [reflexivity|]. split; [reflexivity|].
  pose proof (add_subtract_contract
                (example.world [example.a; example.b]) 0%nat 1%nat
                example.a example.b eq_refl eq_refl
                example_a_well_formed example_b_well_formed) as T.
  change (edges_differ example.a example.b
          || units_differ example.a example.b) with false in T.
  cbv iota zeta in T.
  exact (conj (proj1 T) (proj1 (proj2 T))).
Defined.

End ConvolutionExamples.

(** ** The segment of a positive energy (C6) *)

(** C6.  For every positive energy [E], [wabs_cross_section] is
    (c0 + c1*E + c2*E^2) * 1e-24 / E^3 with the coefficients of segment [k]
    of the 14-entry tables, where [k] is the segment whose boundaries
    enclose [E] (left boundary below [E], right boundary not below [E]),
    the topmost segment (index 13) serving every energy above its left
    boundary, hence every energy beyond 10 keV; the index never leaves
    0..13. *)
Theorem wabs_cross_section_segment q :
  0 < q ->
  exists (k : nat) (lo c0 c1 c2 : Q),
    wabs_idxs (Fin q) = Z.of_nat k
    /\ (k <= 13)%nat
    /\ wabs_emax !! k = Some (Fin lo)
    /\ wabs_c0 !! k = Some (Fin c0)
    /\ wabs_c1 !! k = Some (Fin c1)
    /\ wabs_c2 !! k = Some (Fin c2)
    /\ lo < q
    /\ (forall hi,
          (k < 13)%nat -> wabs_emax !! S k = Some (Fin hi) -> q <= hi)
    /\ (10 < q -> k = 13%nat)
    /\ wabs_cross_section1 (Fin q)
       = Ok (Fin ((c0 + c1 * q + c2 * q * q) * 1.0e-24 / (q * q * q))).
Proof.
  intros Hq.
  destruct (wabs_segment q Hq)
    as (k & lo & c0 & c1 & c2 & Hk & Hr & Hlo & H0 & H1 & H2 & Hl & Hh & _).
  exists k, lo, c0, c1, c2. repeat (split; [assumption|]).
  split; [|now apply (wabs_cross_section1_formula q k)].
  intros H10. destruct (Nat.eq_dec k 13%nat) as [E|E]; [exact E|].
  exfalso. assert (Hk13 : (k < 13)%nat) by lia.
  clear - Hk13 Hh H10.
  do 13 (destruct k as [|k];
         [specialize (Hh _ Hk13 eq_refl); lra|]).
  lia.
Qed.

Lemma wabs_cross_section_segment_witness :
  0 < 1
  /\ exists (k : nat) (lo c0 c1 c2 : Q),
       wabs_idxs (Fin 1) = Z.of_nat k
       /\ (k <= 13)%nat
       /\ wabs_emax !! k = Some (Fin lo)
       /\ wabs_c0 !! k = Some (Fin c0)
       /\ wabs_c1 !! k = Some (Fin c1)
       /\ wabs_c2 !! k = Some (Fin c2)
       /\ lo < 1
       /\ (forall hi,
             (k < 13)%nat -> wabs_emax !! S k = Some (Fin hi) -> 1 <= hi)
       /\ (10 < 1 -> k = 13%nat)
       /\ wabs_cross_section1 (Fin 1)
          = Ok (Fin ((c0 + c1 * 1 + c2 * 1 * 1) * 1.0e-24 / (1 * 1 * 1))).
Proof.
  split; [reflexivity|].
  apply (wabs_cross_section_segment 1). reflexivity.
Defined.

(** At 1 keV the segment is number 6, (0.867, 1.303]. *)
Example wabs_at_1keV :
  wabs_idxs (Fin 1) = 6%Z
  /\ wabs_cross_section1 (Fin 1)
     = Ok (Fin ((120.6 + 169.3 * 1 + -47.7 * 1 * 1) * 1.0e-24 / (1 * 1 * 1))).
Proof. split; reflexivity. Qed.

(** ** Unsupported arguments and variants (C5, C9) *)

Section Refusals.
Context `{ext : Externals}.

(** C9.  [rescale_flux] with a [flux_type] that is neither "photons" nor
    "energy" raises: the integrated total [f] is never bound, and the
    spectrum (its flux and its aggregates, the whole world) is left as it
    was.  On a spectrum with at least one edge the error is the
    UnboundLocalError of [f]. *)
Theorem rescale_flux_unknown_flux_type w self s new_flux emin emax flux_type :
  heap w !! self = Some s ->
  flux_type <> "photons"%string ->
  flux_type <> "energy"%string ->
  exists e,
    Spectrum.rescale_flux self new_flux emin emax flux_type w = (Raise e, w)
    /\ ((1 <= length (ebins s))%nat -> e = UnboundLocalError "f").
Proof.
  intros Hs Hp He.
  apply String.eqb_neq in Hp, He.
  assert (Tail : forall lo hi,
             (idxs ← lift (np.logical_and
                             (map (fun e => fge e lo) (emid s))
                             (map (fun e => fle e hi) (emid s)));
              f ← (if String.eqb flux_type "photons" then
                     fd ← lift (np.multiply (flux s) (de s));
                     v ← lift (np.select fd idxs);
                     mret (Some (np.sum v))
                   else if String.eqb flux_type "energy" then
                     fe ← lift (np.multiply (flux s)
                                  (map (fun e => fmul e (Fin keV_to_erg))
                                       (emid s)));
                     fed ← lift (np.multiply fe (de s));
                     v ← lift (np.select fed idxs);
                     mret (Some (np.sum v))
                   else mret None);
              f ← match f with
                  | Some f => mret f
                  | None => raise (UnboundLocalError "f")
                  end;
              s ← deref self;
              modify self
                (set_flux (map (fun x => fmul x (fdiv new_flux f)) (flux s)));;
              Spectrum._compute_total_flux self) w
             = (Raise (UnboundLocalError "f"), w)).
  { intros lo hi.
    rewrite logical_and_same_length by (now rewrite !length_map).
    msteps. rewrite Hp, He. msteps. reflexivity. }
  unfold Spectrum.rescale_flux. msteps.
  destruct emin as [lo|], emax as [hi|]; msteps.
  - eexists. split; [apply Tail | reflexivity].
  - destruct (np.getitem (ebins s) (-1)) as [hi|e] eqn:E1.
    + msteps. eexists. split; [apply Tail | reflexivity].
    + msteps. eexists. split; [reflexivity|]. intros L.
      destruct (getitem_final _ L) as [x Hx]. congruence.
  - destruct (np.getitem (ebins s) 0) as [lo|e] eqn:E0.
    + msteps. eexists. split; [apply Tail | reflexivity].
    + msteps. eexists. split; [reflexivity|]. intros L.
      destruct (getitem_first _ L) as [x Hx]. congruence.
  - destruct (np.getitem (ebins s) 0) as [lo|e] eqn:E0.
    + msteps. destruct (np.getitem (ebins s) (-1)) as [hi|e] eqn:E1.
      * msteps. eexists. split; [apply Tail | reflexivity].
      * msteps. eexists. split; [reflexivity|]. intros L.
        destruct (getitem_final _ L) as [x Hx]. congruence.
    + msteps. eexists. split; [reflexivity|]. intros L.
      destruct (getitem_first _ L) as [x Hx]. congruence.
Qed.

(** The override of [ConvolvedSpectrum]: the call with [nH] and an
    optional [model] raises NotImplementedError and changes nothing. *)
Lemma convolved_absorption_refused w c s nH model :
  heap w !! c = Some s ->
  class_ s = cConvolvedSpectrum ->
  obj.apply_foreground_absorption c nH model None w
  = (Raise (NotImplementedError ""), w).
Proof.
  intros Hs Hc. unfold obj.apply_foreground_absorption. msteps.
  now rewrite Hc.
Qed.

(** The override declares [nH] and [model] only, whereas the method it
    overrides also takes a [redshift]: a call that passes one fails with
    TypeError before the body of the override is reached.  The spectrum is
    left as it was in this case as well. *)
Lemma convolved_absorption_stale_signature w c s nH model z :
  heap w !! c = Some s ->
  class_ s = cConvolvedSpectrum ->
  obj.apply_foreground_absorption c nH model (Some z) w = (Raise TypeError, w).
Proof.
  intros Hs Hc. unfold obj.apply_foreground_absorption. msteps.
  now rewrite Hc.
Qed.

End Refusals.

Section RefusalExamples.
#[local] Existing Instance standin.externals.

Lemma rescale_flux_unknown_flux_type_witness :
  let w := example.world [example.a] in
  heap w !! 0%nat = Some example.a
  /\ "counts"%string <> "photons"%string
  /\ "counts"%string <> "energy"%string
  /\ exists e,
       Spectrum.rescale_flux 0%nat (Fin 1) None None "counts" w = (Raise e, w)
       /\ ((1 <= length (ebins example.a))%nat -> e = UnboundLocalError "f").
Proof.
  cbv zeta. split; [reflexivity|].
  assert (N1 : "counts"%string <> "photons"%string) by discriminate.
  assert (N2 : "counts"%string <> "energy"%string) by discriminate.
  split; [exact N1|]. split; [exact N2|].
  exact (rescale_flux_unknown_flux_type (example.world [example.a]) 0%nat
           example.a (Fin 1) None None "counts" eq_refl N1 N2).
Defined.

Lemma example_rate_well_formed : well_formed example.rate.
Proof.
  apply instance_well_formed; [cbn; lia | reflexivity |].
  split; [intros [? E]; discriminate E | intros E; discriminate E].
Qed.

(** C5 as stated fails on a plain CountRateSpectrum: its unit tag is the
    count-rate density, yet the absorption is applied and returns. *)
Lemma count_rate_spectrum_is_absorbed :
  ~ (forall (ext : Externals) w c s nH model redshift,
       heap w !! c = Some s ->
       _units (class_ s) = count_rate_density ->
       exists msg,
         obj.apply_foreground_absorption c nH model redshift w
         = (Raise (NotImplementedError msg), w)).
Proof.
  intros claim.
  destruct (claim standin.externals (example.world [example.rate]) 0%nat
              example.rate (Fin 1) (Some "wabs"%string) (Some (Fin 0))
              eq_refl eq_refl) as [msg E].
  apply (f_equal fst) in E. vm_compute in E. discriminate E.
Qed.

End RefusalExamples.

(** ** Band extraction (C10) *)

Section Bands.
Context `{ext : Externals}.

Lemma where_from_bound i mask :
  Forall (fun j => (i <= j < i + length mask)%nat) (np.where_from i mask).
Proof.
  revert i. induction mask as [|m mask IH]; intros i; [constructor|].
  cbn [np.where_from length].
  assert (Hrec : Forall (fun j => (i <= j < i + S (length mask))%nat)
                   (np.where_from (S i) mask)).
  { eapply Forall_impl; [apply IH|]. cbn. intros j Hj. lia. }
  destruct m; [constructor; [lia | exact Hrec] | exact Hrec].
Qed.

(** The selected indices increase: every one but the last is below the
    last position. *)
Lemma where_from_init1_bound i mask :
  Forall (fun j => (j < i + length mask - 1)%nat)
         (np.init1 (np.where_from i mask)).
Proof.
  revert i. induction mask as [|m mask IH]; intros i; [constructor|].
  cbn [np.where_from length].
  assert (Hrec : Forall (fun j => (j < i + S (length mask) - 1)%nat)
                   (np.init1 (np.where_from (S i) mask))).
  { eapply Forall_impl; [apply IH|]. cbn. intros j Hj. lia. }
  destruct m; [|exact Hrec].
  destruct (np.where_from (S i) mask) as [|j l] eqn:E; [constructor|].
  unfold np.init1 in *. cbn [length] in *.
  replace (S (S (length l)) - 1)%nat with (S (S (length l) - 1)) by lia.
  cbn [take]. constructor; [|exact Hrec].
  pose proof (where_from_bound (S i) mask) as Hb. rewrite E in Hb.
  inversion Hb as [|? ? Hj _]; subst. lia.
Qed.

Lemma take_idxs_in_range {A} (xs : list A) idxs :
  Forall (fun j => (j < length xs)%nat) idxs ->
  exists ys, np.take_idxs xs idxs = Ok ys /\ length ys = length idxs.
Proof.
  induction 1 as [|j idxs Hj _ (ys & E & L)]; [now exists []|].
  destruct (lookup_lt_is_Some_2 xs j Hj) as [x Hx].
  exists (x :: ys). cbn [np.take_idxs].
  rewrite (getitem_nat _ _ _ Hx), E. cbn. auto.
Qed.

(** [_new_spec_from_band] on a well-formed spectrum returns edges and one
    flux value per bin between them, and changes nothing. *)
Lemma new_spec_from_band_arrays w self s emin emax :
  heap w !! self = Some s ->
  well_formed s ->
  exists edges' flux',
    Spectrum._new_spec_from_band self emin emax w = (Ok (edges', flux'), w)
    /\ length flux' = (length edges' - 1)%nat.
Proof.
  intros Hs Ws. destruct (wf_lengths _ Ws) as (L1 & L2 & L3 & L4).
  unfold Spectrum._new_spec_from_band.
  set (band := zip_with andb (map (fun e => fge e emin) (ebins s))
                             (map (fun e => fle e emax) (ebins s))).
  assert (Lb : length band = length (ebins s))
    by (unfold band; rewrite length_zip_with, !length_map; lia).
  destruct (take_idxs_in_range (ebins s) (np.where_ band)) as (eb & Eeb & Leb).
  { eapply Forall_impl; [apply (where_from_bound 0)|]. cbn. intros j Hj. lia. }
  destruct (take_idxs_in_range (flux s) (np.init1 (np.where_ band)))
    as (fl & Efl & Lfl).
  { eapply Forall_impl; [apply (where_from_init1_bound 0)|].
    cbn. intros j Hj. lia. }
  exists eb, fl. split.
  - msteps.
    rewrite logical_and_same_length by (now rewrite !length_map).
    msteps. fold band. rewrite Eeb. msteps. rewrite Efl. msteps. reflexivity.
  - rewrite Lfl, Leb. unfold np.init1. rewrite length_take. lia.
Qed.

(** C10.  On a well-formed CountRateSpectrum, [new_spec_from_band] returns a
    new instance of the plain class Spectrum: its unit tag is the photon
    flux density, not the count-rate tag of the spectrum it was cut from.
    On a ConvolvedSpectrum the override returns a ConvolvedSpectrum bound to
    the same response. *)
Theorem new_spec_from_band_class w self s emin emax :
  heap w !! self = Some s ->
  well_formed s ->
  (class_ s = cCountRateSpectrum ->
   exists edges' flux' result,
     result = instance cSpectrum edges' flux' None
     /\ returns_new (obj.new_spec_from_band self emin emax) w result
     /\ class_ result = cSpectrum
     /\ _units (class_ result) = photon_flux_density
     /\ _units (class_ s) = count_rate_density)
  /\ (class_ s = cConvolvedSpectrum ->
      exists edges' flux' r result,
        arf s = Some r
        /\ result = instance cConvolvedSpectrum edges' flux' (Some r)
        /\ returns_new (obj.new_spec_from_band self emin emax) w result
        /\ class_ result = cConvolvedSpectrum
        /\ arf result = Some r).
Proof.
  intros Hs Ws.
  destruct (new_spec_from_band_arrays _ _ _ emin emax Hs Ws)
    as (eb & fl & Run & L).
  split; intros Hc.
  - exists eb, fl, (instance cSpectrum eb fl None).
    split; [reflexivity|]. split; [|rewrite Hc; auto].
    unfold returns_new, obj.new_spec_from_band. msteps. rewrite Hc.
    unfold Spectrum.new_spec_from_band.
    rewrite (bind_Ok _ _ _ _ _ Run). now apply init_ok.
  - destruct (wf_arf_cases _ Ws) as [[_ [r Hr]] | [Hn _]]; [|congruence].
    exists eb, fl, r, (instance cConvolvedSpectrum eb fl (Some r)).
    split; [exact Hr|]. split; [reflexivity|]. split; [|auto].
    unfold returns_new, obj.new_spec_from_band. msteps. rewrite Hc.
    unfold ConvolvedSpectrum.new_spec_from_band.
    rewrite (bind_Ok _ _ _ _ _ Run).
    unfold ConvolvedSpectrum.get_arf. msteps. rewrite Hr. msteps.
    now apply convolved_init_ok.
Qed.

End Bands.

Section BandExamples.
#[local] Existing Instance standin.externals.

Lemma new_spec_from_band_class_witness :
  let w := example.world [example.rate] in
  heap w !! 0%nat = Some example.rate
  /\ class_ example.rate = cCountRateSpectrum
  /\ exists edges' flux' result,
       result = instance cSpectrum edges' flux' None
       /\ returns_new (obj.new_spec_from_band 0%nat (Fin 0) (Fin 5)) w result
       /\ class_ result = cSpectrum
       /\ _units (class_ result) = photon_flux_density
       /\ _units (class_ example.rate) = count_rate_density.
Proof.
  cbv zeta. split; [reflexivity|]. split; [reflexivity|].
  exact (proj1 (new_spec_from_band_class (example.world [example.rate]) 0%nat
                  example.rate (Fin 0) (Fin 5) eq_refl
                  example_rate_well_formed) eq_refl).
Defined.

(** The band [1, 2] of [CountRateSpectrum([1,2], [1])] is the whole
    spectrum, as a Spectrum. *)
Example new_spec_from_band_rate :
  returns_new (obj.new_spec_from_band 0%nat (Fin 1) (Fin 2))
    (example.world [example.rate])
    (instance cSpectrum [Fin 1; Fin 2] [Fin 1] None).
Proof. reflexivity. Qed.

End BandExamples.

(** ** Sampling (C8) *)

Section Sampling.
Context `{ext : Externals}.

Lemma generators_app_lookup (g : list RandomState) st :
  (g ++ [st]) !! length g = Some st.
Proof. rewrite lookup_app_r by lia. now rewrite Nat.sub_diag. Qed.

(** [_generate_energies] returns what the state of its generator and the
    instance determine, whatever the rest of the world and the log flag;
    it leaves the heap of spectra as it was. *)
Lemma _generate_energies_result w spec o g st t_exp rate quiet :
  heap w !! spec = Some o ->
  generators w !! g = Some st ->
  (_generate_energies spec t_exp rate g quiet w).1 = drawn o st t_exp rate
  /\ heap (_generate_energies spec t_exp rate g quiet w).2 = heap w.
Proof.
  intros Hs Hg.
  assert (Hlt : (g < length (generators w))%nat)
    by (eapply lookup_lt_Some, Hg).
  unfold _generate_energies, prng_poisson, prng_uniform, drawn.
  unfold mbind, M_bind, bind, deref, deref_generator, update_generator,
    mylog_info, lift, mret, M_ret, ret.
  rewrite Hs, Hg.
  destruct (RandomState_poisson st (fmul t_exp rate)) as [[n|e] st1];
    [|split; reflexivity].
  unfold result_bind, rbind.
  cbn [heap generators with_generators with_mylog].
  assert (Hg1 : forall l : list RandomState,
             length l = length (generators w) ->
             <[g := st1]> l !! g = Some st1)
    by (intros l Hl; apply list_lookup_insert_eq; lia).
  destruct quiet; cbn [heap generators with_generators with_mylog];
    rewrite (Hg1 _ eq_refl);
    destruct (RandomState_uniform st1 n) as [v st2];
    cbn [heap generators with_generators with_mylog];
    rewrite Hs;
    destruct (np.interp (np.sort (map Fin v)) (cumspec o) (ebins o));
    split; reflexivity.
Qed.

(** [parse_prng] yields a generator in the state [generator_state], and
    leaves the spectra as they were. *)
Lemma parse_prng_run w prng st :
  generator_state w prng = Some st ->
  exists g w',
    parse_prng prng w = (Ok g, w')
    /\ heap w' = heap w
    /\ generators w' !! g = Some st.
Proof.
  destruct prng as [|seed|g]; cbn [generator_state parse_prng]; intros E.
  - injection E as <-. eexists _, _. split; [reflexivity|].
    split; [reflexivity | apply generators_app_lookup].
  - injection E as <-. eexists _, _. split; [reflexivity|].
    split; [reflexivity | apply generators_app_lookup].
  - exists g, w. auto.
Qed.

(** [generate_energies] returns what the state of the generator, the
    instance, the exposure time and the area determine. *)
Lemma generate_energies_result w self o t_exp area prng st quiet :
  heap w !! self = Some o ->
  generator_state w prng = Some st ->
  (obj.generate_energies self t_exp area prng quiet w).1
  = sampled o t_exp area st.
Proof.
  intros Hs Hst. unfold obj.generate_energies, sampled. msteps.
  destruct (parse_prng_run _ _ _ Hst) as (g & w1 & Hp & Hh & Hg1).
  assert (Hs1 : heap w1 !! self = Some o) by (now rewrite Hh).
  destruct (class_ o) eqn:Hc, area as [area|]; try reflexivity.
  - unfold Spectrum.generate_energies.
    rewrite (bind_Ok _ _ _ _ _ Hp), (bind_deref _ _ _ _ Hs1).
    destruct (_generate_energies_result w1 self o _ _ t_exp
                (fmul area (total_flux o)) quiet Hs1 Hg1) as [R _].
    unfold mbind, M_bind, bind.
    destruct (_generate_energies self t_exp (fmul area (total_flux o))
                g quiet w1) as [[e|x] w2];
      cbn [fst] in R; rewrite <- R; reflexivity.
  - unfold CountRateSpectrum.generate_energies.
    rewrite (bind_Ok _ _ _ _ _ Hp), (bind_deref _ _ _ _ Hs1).
    destruct (_generate_energies_result w1 self o _ _ t_exp
                (total_flux o) quiet Hs1 Hg1) as [R _].
    unfold mbind, M_bind, bind.
    destruct (_generate_energies self t_exp (total_flux o)
                g quiet w1) as [[e|x] w2];
      cbn [fst] in R; rewrite <- R; reflexivity.
  - unfold ConvolvedSpectrum.generate_energies.
    rewrite (bind_Ok _ _ _ _ _ Hp), (bind_deref _ _ _ _ Hs1).
    destruct (_generate_energies_result w1 self o _ _ t_exp
                (total_flux o) quiet Hs1 Hg1) as [R Hh2].
    unfold ConvolvedSpectrum.get_arf, mbind, M_bind, bind, deref.
    destruct (_generate_energies self t_exp (total_flux o)
                g quiet w1) as [[e|x] w2];
      cbn [fst snd] in R, Hh2; rewrite <- R; [|reflexivity].
    rewrite Hh2, Hs1. cbn. now destruct (arf o).
Qed.

(** C8.  Two runs of [generate_energies] whose generators are in the same
    state -- in particular two runs given the same integer seed -- on
    spectrum instances with the same contents and with the same exposure
    time (and area) return the same sample, hence the same photon count
    and the same sequence of energies, whatever else differs between the
    two worlds they run in (other instances, other generators, the
    absorption cache, the log) and whatever their [quiet] flags. *)
Theorem generate_energies_deterministic
    w1 w2 self1 self2 o t_exp area prng1 prng2 st quiet1 quiet2 :
  heap w1 !! self1 = Some o ->
  heap w2 !! self2 = Some o ->
  generator_state w1 prng1 = Some st ->
  generator_state w2 prng2 = Some st ->
  (obj.generate_energies self1 t_exp area prng1 quiet1 w1).1
  = (obj.generate_energies self2 t_exp area prng2 quiet2 w2).1.
Proof.
  intros H1 H2 G1 G2.
  now rewrite (generate_energies_result _ _ _ _ _ _ _ _ H1 G1),
    (generate_energies_result _ _ _ _ _ _ _ _ H2 G2).
Qed.

End Sampling.

Section SamplingExamples.
#[local] Existing Instance standin.externals.

Lemma generate_energies_deterministic_witness :
  let w1 := example.world [example.b] in
  let w2 := example.world [example.a; example.b] in
  heap w1 !! 0%nat = Some example.b
  /\ heap w2 !! 1%nat = Some example.b
  /\ generator_state w1 (PrngSeed 42) = Some (RandomState_seed 42)
  /\ generator_state w2 (PrngSeed 42) = Some (RandomState_seed 42)
  /\ (obj.generate_energies 0%nat (Fin 1000) (Some (Fin 0.125))
        (PrngSeed 42) false w1).1
     = (obj.generate_energies 1%nat (Fin 1000) (Some (Fin 0.125))
          (PrngSeed 42) true w2).1.
Proof.
  cbv zeta. split; [reflexivity|]. split; [reflexivity|].
  split; [reflexivity|]. split; [reflexivity|].
  exact (generate_energies_deterministic
           (example.world [example.b]) (example.world [example.a; example.b])
           0%nat 1%nat example.b (Fin 1000) (Some (Fin 0.125))
           (PrngSeed 42) (PrngSeed 42) (RandomState_seed 42)
           false true eq_refl eq_refl eq_refl eq_refl).
Defined.

(** With the stand-in generator, seed 42, an exposure of 2 and an area of
    1.5, [Spectrum([0,1,2], [1,3])] yields twelve photons. *)
Example generate_energies_count :
  match (obj.generate_energies 0%nat (Fin 2) (Some (Fin 1.5)) (PrngSeed 42)
           false (example.world [example.b])).1 with
  | Ok (Energies energy _) => length energy = 12%nat
  | _ => False
  end.
Proof. vm_compute. reflexivity. Qed.

End SamplingExamples.

(** ** Foreground absorption (C7) *)

Section Absorption.
Context `{ext : Externals}.

Lemma mapM_result_lookup {A B} (f : A -> result B) l k :
  mapM f l = Ok k ->
  length k = length l
  /\ forall i x, l !! i = Some x -> exists y, k !! i = Some y /\ f x = Ok y.
Proof.
  revert k. induction l as [|a l IH]; intros k E.
  - injection E as <-. split; [reflexivity|]. intros i x Hx. discriminate Hx.
  - cbn [mapM] in E. destruct (f a) as [b|e] eqn:Ea; [|discriminate E].
    destruct (mapM f l) as [k'|e] eqn:El; [|discriminate E].
    injection E as <-. destruct (IH _ eq_refl) as [L Hl].
    split; [cbn; congruence|].
    intros [|i] x Hx; [injection Hx as <-; eauto | apply (Hl i x Hx)].
Qed.

(** The Wisconsin cross section of a positive energy is positive. *)
Lemma wabs_positive q :
  0 < q -> exists sigma, wabs_cross_section1 (Fin q) = Ok (Fin sigma)
                         /\ 0 < sigma.
Proof.
  intros Hq.
  destruct (wabs_segment q Hq)
    as (k & lo & c0 & c1 & c2 & Hk & _ & _ & H0 & H1 & H2 & _ & _ & Hp).
  eexists. split; [apply (wabs_cross_section1_formula q k); eassumption|].
  apply Qlt_shift_div_l.
  - repeat apply Qmult_lt_0_compat; exact Hq.
  - rewrite Qmult_0_l. apply Qmult_lt_0_compat; [exact Hp | reflexivity].
Qed.

(** The absorption with a known array of cross sections. *)
Lemma absorption_run w self s nH model redshift sigma w1 :
  heap w !! self = Some s ->
  well_formed s ->
  (if String.eqb model "wabs" then
     sigma ← lift (wabs_cross_section
                     (map (fun m => fmul m (fadd (Fin 1.0) redshift))
                          (emid s)));
     mret (Some sigma)
   else if String.eqb model "tbabs" then
     sigma ← tbabs_cross_section
               (map (fun m => fmul m (fadd (Fin 1.0) redshift)) (emid s));
     mret (Some sigma)
   else mret None) w = (Ok (Some sigma), w1) ->
  heap w1 = heap w ->
  length sigma = length (emid s) ->
  Spectrum.apply_foreground_absorption self nH model redshift w
  = (Ok tt,
     with_heap
       (<[self := refreshed
                    (set_flux (zip_with fmul (flux s)
                                 (map (transmission nH) sigma)) s)]>
          (heap w)) w1).
Proof.
  intros Hs Ws Hsg Hh Ls. destruct (wf_lengths _ Ws) as (L1 & L2 & L3 & L4).
  assert (Hs1 : heap w1 !! self = Some s) by (now rewrite Hh).
  unfold Spectrum.apply_foreground_absorption. msteps.
  rewrite (bind_Ok _ _ _ _ _ Hsg). msteps.
  fold (transmission nH).
  rewrite inplace2_same_length by (rewrite length_map; congruence).
  msteps. mrefresh; [now rewrite Hh | |];
    rewrite ?length_zip_with, ?length_map; lia.
Qed.

(** The first call of [tbabs_cross_section] builds the spline of the file
    and caches it; later calls use the cache.  The spectra are not
    touched. *)
Lemma tbabs_cross_section_run w E :
  is_Some (_tbabs_spline w)
  \/ (5 < length tbabs_file_cross_section)%nat ->
  exists w1,
    tbabs_cross_section E w
    = (Ok (map (spline_call (tbabs_spline_in_use w)) E), w1)
    /\ heap w1 = heap w
    /\ _tbabs_spline w1 = Some (tbabs_spline_in_use w).
Proof.
  intros Hc. unfold tbabs_cross_section, tbabs_spline_in_use.
  unfold mbind at 1, M_bind at 1, bind at 1, get_world.
  destruct (_tbabs_spline w) as [spl|] eqn:Hspl.
  - exists w. msteps. auto.
  - destruct Hc as [[? Hc] | Hc]; [discriminate Hc|].
    cbn [default]. eexists. split; [|split].
    + unfold put_world, mbind, M_bind, bind, lift, mret, M_ret, ret.
      unfold np.add.
      rewrite broadcast2_same_length by apply length_tail1_init1.
      unfold InterpolatedUnivariateSpline.
      replace (length (map (fmul (Fin 0.5)) _) <=? 5)%nat with false;
        [reflexivity|].
      symmetry. apply Nat.leb_gt.
      rewrite length_map, length_zip_with, <- length_tail1_init1.
      unfold np.tail1. rewrite length_drop.
      assert (Ll : forall a b n, (1 <= n)%nat ->
                     length (linspace a b (S n)) = S n).
      { intros a b [|n] Hn; [lia|]. unfold linspace.
        now rewrite length_map, length_seq. }
      rewrite length_map, Nat.add_1_r, Ll; lia.
    + reflexivity.
    + reflexivity.
Qed.

(** Foreground absorption with the Tuebingen-Boulder model re-derives the
    aggregates as well. *)
Lemma apply_foreground_absorption_tbabs_refreshes w self s nH redshift :
  heap w !! self = Some s ->
  well_formed s ->
  is_Some (_tbabs_spline w)
  \/ (5 < length tbabs_file_cross_section)%nat ->
  refreshes (Spectrum.apply_foreground_absorption self nH "tbabs" redshift)
            w self.
Proof.
  intros Hs Ws Hc.
  set (E := map (fun m => fmul m (fadd (Fin 1.0) redshift)) (emid s)).
  destruct (tbabs_cross_section_run w E Hc) as (w1 & Hrun & Hh & _).
  eexists _, _. split; [|split; [|split]].
  - eapply absorption_run; [exact Hs | exact Ws | | exact Hh |].
    + replace (String.eqb "tbabs" "wabs") with false by reflexivity.
      replace (String.eqb "tbabs" "tbabs") with true by reflexivity.
      fold E. rewrite (bind_Ok _ _ _ _ _ Hrun). reflexivity.
    + unfold E. now rewrite !length_map.
  - cbn [heap with_heap]. eapply heap_insert_lookup, Hs.
  - apply wf_refreshed, wf_set_flux; [exact Ws|].
    destruct (wf_lengths _ Ws) as (_ & _ & L3 & _).
    unfold E. rewrite length_zip_with, !length_map. lia.
  - apply refreshed_consistent.
Qed.

End Absorption.

(** ** Foreground absorption by class (C5) *)

Section AbsorptionByClass.
Context `{ext : Externals}.

(** C5 (as amended).  A ConvolvedSpectrum refuses foreground absorption:
    for every [nH] and [model] the call raises NotImplementedError and the
    spectrum, its flux and its aggregates are left as they were.  A plain
    CountRateSpectrum does not refuse.  It runs the inherited flux-domain
    method: for every [nH] and [redshift] the call returns, each flux value
    has been multiplied in place by the transmission
    [exp (- nH * 1e22 * sigma)] of its bin, [sigma] being the cross section
    of the model at [emid * (1 + redshift)], and the aggregates have been
    derived again from the new flux.  This holds with the wabs model (also
    as the default) and with the tbabs model, whose table is loaded or
    long enough to be loaded. *)
Theorem convolved_refuses_absorption w c s nH model :
  heap w !! c = Some s ->
  (class_ s = cConvolvedSpectrum ->
   obj.apply_foreground_absorption c nH model None w
   = (Raise (NotImplementedError ""), w))
  /\ (class_ s = cCountRateSpectrum ->
      well_formed s ->
      forall redshift,
        let E := map (fun m =>
                        fmul m (fadd (Fin 1.0) (default (Fin 0.0) redshift)))
                     (emid s) in
        let absorbed sigma :=
          refreshed (set_flux (zip_with fmul (flux s)
                                 (map (transmission nH) sigma)) s) in
        (default "wabs"%string model = "wabs"%string ->
         exists sigma,
           wabs_cross_section E = Ok sigma
           /\ obj.apply_foreground_absorption c nH model redshift w
              = (Ok tt, with_heap (<[c := absorbed sigma]> (heap w)) w)
           /\ aggregates_consistent (absorbed sigma))
        /\ (model = Some "tbabs"%string ->
            is_Some (_tbabs_spline w)
            \/ (5 < length tbabs_file_cross_section)%nat ->
            let sigma := map (spline_call (tbabs_spline_in_use w)) E in
            exists w1,
              tbabs_cross_section E w = (Ok sigma, w1)
              /\ obj.apply_foreground_absorption c nH model redshift w
                 = (Ok tt, with_heap (<[c := absorbed sigma]> (heap w)) w1)
              /\ aggregates_consistent (absorbed sigma))).
Proof.
  intros Hs. split; [now apply convolved_absorption_refused|].
  intros Hc Ws redshift. cbv zeta.
  set (z := default (Fin 0.0) redshift).
  set (E := map (fun m => fmul m (fadd (Fin 1.0) z)) (emid s)).
  assert (Hd : obj.apply_foreground_absorption c nH model redshift w
               = Spectrum.apply_foreground_absorption c nH
                   (default "wabs"%string model) z w).
  { unfold obj.apply_foreground_absorption. msteps. now rewrite Hc. }
  split.
  - intros Hm. rewrite Hd, Hm.
    destruct (wabs_cross_section_total E) as (sigma & Hsg & Lsg).
    unfold E in Lsg. rewrite length_map in Lsg.
    exists sigma. split; [exact Hsg|]. split; [|apply refreshed_consistent].
    eapply absorption_run; [exact Hs | exact Ws | | reflexivity | exact Lsg].
    replace (String.eqb "wabs" "wabs") with true by reflexivity.
    fold E. rewrite Hsg. reflexivity.
  - intros -> Ht. rewrite Hd.
    change (default "wabs"%string (Some "tbabs"%string)) with "tbabs"%string.
    destruct (tbabs_cross_section_run w E Ht) as (w1 & Hrun & Hh & _).
    exists w1. split; [exact Hrun|]. split; [|apply refreshed_consistent].
    eapply absorption_run; [exact Hs | exact Ws | | exact Hh |].
    + replace (String.eqb "tbabs" "wabs") with false by reflexivity.
      replace (String.eqb "tbabs" "tbabs") with true by reflexivity.
      fold E. rewrite (bind_Ok _ _ _ _ _ Hrun). reflexivity.
    + unfold E. now rewrite !length_map.
Qed.

End AbsorptionByClass.

Section AbsorptionTheorems.
Context `{ext : Externals}.
Context (laws : exponential_laws).

Lemma transmission_below f nH sigma :
  0 < f -> 0 < nH -> 0 < sigma ->
  flt (fmul (Fin f) (transmission (Fin nH) (Fin sigma))) (Fin f) = true.
Proof.
  intros Hf Hn Hs. cbn [transmission fopp fmul fexp flt].
  apply Qltb_true.
  set (x := - nH * 1.0e22 * sigma).
  assert (Hx : x < 0).
  { assert (0 < nH * 1.0e22 * sigma)
      by (repeat apply Qmult_lt_0_compat; try assumption; reflexivity).
    assert (E : x == - (nH * 1.0e22 * sigma)) by (unfold x; ring).
    rewrite E. lra. }
  pose proof (exp_positive laws x). pose proof (exp_below_1 laws x Hx). nra.
Qed.

Lemma transmission_none f nH sigma :
  sigma == 0 ->
  same (fmul (Fin f) (transmission (Fin nH) (Fin sigma))) (Fin f).
Proof.
  intros Hs. cbn [transmission fopp fmul fexp same].
  rewrite (exp_at_0 laws (- nH * 1.0e22 * sigma)); [ring|].
  rewrite Hs. ring.
Qed.

Lemma positive_midpoints edges :
  Forall positive edges -> Forall positive (midpoints edges).
Proof.
  intros He. unfold midpoints. apply Forall_map.
  assert (Hz : forall xs ys,
             Forall positive xs -> Forall positive ys ->
             Forall (fun x => positive (fmul (Fin 0.5) x))
                    (zip_with fadd xs ys)).
  { induction xs as [|x xs IH]; intros [|y ys] Hx Hy; try constructor.
    - inversion Hx as [|? ? (a & -> & Pa) _];
        inversion Hy as [|? ? (b & -> & Pb) _]; subst.
      eexists. split; [reflexivity|]. lra.
    - inversion Hx; inversion Hy; subst. now apply IH. }
  apply Hz.
  - unfold np.tail1. now apply Forall_drop.
  - unfold np.init1. now apply Forall_take.
Qed.

(** C7 (as amended).  Take a well-formed flux-domain spectrum with
    positive bin edges and positive finite flux, a column density nH > 0
    and redshift 0.  With the wabs model the absorbed flux is strictly
    smaller than the unabsorbed flux in every bin.  With the tbabs model
    (its table loaded, or long enough to be loaded) the absorbed flux is
    strictly smaller in every bin whose interpolated cross section is
    positive, and unchanged in every bin whose interpolated cross section
    is zero: in particular in every bin whose energy lies outside the
    range of the table. *)
Theorem absorption_decreases_flux w sp s nH redshift z :
  heap w !! sp = Some s ->
  class_ s = cSpectrum ->
  well_formed s ->
  Forall positive (ebins s) ->
  Forall positive (flux s) ->
  0 < nH ->
  default (Fin 0.0) redshift = Fin z ->
  z == 0 ->
  (exists w' s',
     obj.apply_foreground_absorption sp (Fin nH) (Some "wabs"%string)
       redshift w = (Ok tt, w')
     /\ heap w' !! sp = Some s'
     /\ Forall2 (fun new old => flt new old = true) (flux s') (flux s))
  /\ (is_Some (_tbabs_spline w)
      \/ (5 < length tbabs_file_cross_section)%nat ->
      let spline := tbabs_spline_in_use w in
      exists w' s',
        obj.apply_foreground_absorption sp (Fin nH) (Some "tbabs"%string)
          redshift w = (Ok tt, w')
        /\ heap w' !! sp = Some s'
        /\ _tbabs_spline w' = Some spline
        /\ forall i e old new,
             emid s !! i = Some e ->
             flux s !! i = Some old ->
             flux s' !! i = Some new ->
             let E := fmul e (fadd (Fin 1.0) (Fin z)) in
             (forall sigma,
                spline_call spline E = Fin sigma ->
                (0 < sigma -> flt new old = true)
                /\ (sigma == 0 -> same new old))
             /\ (forall lo hi,
                   head (knots spline) = Some lo ->
                   last (knots spline) = Some hi ->
                   flt E lo || flt hi E = true ->
                   same new old)).
Proof.
  intros Hs Hc Ws He Hf Hn Hz Zz.
  destruct (wf_lengths _ Ws) as (L1 & L2 & L3 & L4).
  assert (Hd : forall model,
             obj.apply_foreground_absorption sp (Fin nH) (Some model)
               redshift w
             = Spectrum.apply_foreground_absorption sp (Fin nH) model
                 (Fin z) w).
  { intros model. unfold obj.apply_foreground_absorption. msteps.
    rewrite Hc, Hz. reflexivity. }
  assert (Hm : Forall positive (emid s))
    by (rewrite (wf_emid _ Ws); now apply positive_midpoints).
  set (E := map (fun m => fmul m (fadd (Fin 1.0) (Fin z))) (emid s)).
  split.
  - (* wabs *)
    destruct (wabs_cross_section_total E) as (sigma & Hsg & Lsg).
    unfold E in Lsg. rewrite length_map in Lsg.
    eexists _, _. split; [|split].
    + rewrite Hd. eapply absorption_run; [exact Hs | exact Ws | | | exact Lsg].
      * replace (String.eqb "wabs" "wabs") with true by reflexivity.
        fold E. rewrite Hsg. reflexivity.
      * reflexivity.
    + cbn [heap with_heap]. eapply heap_insert_lookup, Hs.
    + cbn [flux refreshed set_cumspec set_total_energy_flux set_total_flux
             set_flux].
      apply Forall2_same_length_lookup_2.
      { rewrite length_zip_with, length_map. lia. }
      intros i new old Hnew Hold.
      rewrite lookup_zip_with, Hold in Hnew. cbn in Hnew.
      rewrite list_lookup_fmap in Hnew.
      destruct (sigma !! i) as [sg|] eqn:Hi; [|discriminate Hnew].
      injection Hnew as <-.
      destruct (lookup_lt_is_Some_2 (emid s) i) as [e Hei];
        [rewrite <- Lsg; eapply lookup_lt_Some, Hi|].
      pose proof (proj1 (Forall_lookup _ _) Hm i e Hei) as (q & -> & Pq).
      pose proof (proj1 (Forall_lookup _ _) Hf i old Hold) as (f & -> & Pf).
      destruct (proj2 (mapM_result_lookup _ _ _ Hsg) i
                  (Fin (q * (1.0 + z))))
        as (sg' & Hsg' & Hw).
      { unfold E. now rewrite list_lookup_fmap, Hei. }
      rewrite Hi in Hsg'. injection Hsg' as <-.
      destruct (wabs_positive (q * (1.0 + z))) as (sv & Hsv & Psv).
      { rewrite Zz. lra. }
      rewrite Hw in Hsv. injection Hsv as ->.
      now apply transmission_below.
  - (* tbabs *)
    intros Hcache spline.
    destruct (tbabs_cross_section_run w E Hcache) as (w1 & Hrun & Hh & Hspl).
    fold spline in Hrun, Hspl.
    eexists _, _. split; [|split; [|split]].
    + rewrite Hd. eapply absorption_run; [exact Hs | exact Ws | | exact Hh |].
      * replace (String.eqb "tbabs" "wabs") with false by reflexivity.
        replace (String.eqb "tbabs" "tbabs") with true by reflexivity.
        fold E. rewrite (bind_Ok _ _ _ _ _ Hrun). reflexivity.
      * unfold E. now rewrite !length_map.
    + cbn [heap with_heap]. eapply heap_insert_lookup, Hs.
    + exact Hspl.
    + cbn [flux refreshed set_cumspec set_total_energy_flux set_total_flux
             set_flux].
      intros i e old new Hei Hold Hnew.
      rewrite lookup_zip_with, Hold in Hnew. cbn in Hnew.
      unfold E in Hnew. rewrite !list_lookup_fmap, Hei in Hnew.
      cbn in Hnew. injection Hnew as <-.
      pose proof (proj1 (Forall_lookup _ _) Hf i old Hold) as (f & -> & Pf).
      pose proof (proj1 (Forall_lookup _ _) Hm i e Hei) as (q & -> & Pq).
      split.
      * intros sigma Hsig. cbn [fadd] in Hsig. rewrite Hsig.
        split; intros Hsv.
        -- now apply transmission_below.
        -- now apply transmission_none.
      * intros lo hi Hlo Hhi Hout. cbn [fadd] in Hout. unfold spline_call.
        rewrite Hlo, Hhi, Hout. now apply transmission_none.
Qed.

End AbsorptionTheorems.

Section AbsorptionExamples.
#[local] Existing Instance standin.externals.

(** The stand-in exponential has the properties the statements use. *)
Lemma standin_exponential_laws : exponential_laws.
Proof.
  split; intros x; cbn [exp standin.externals]; unfold standin.rational_exp.
  - destruct (Qle_bool 0 x) eqn:E.
    + apply Qle_bool_iff in E. lra.
    + assert (Hx : x < 0)
        by (apply Qnot_le_lt; intros H; apply Qle_bool_iff in H; congruence).
      apply Qlt_shift_div_l; lra.
  - intros Hx.
    assert (E : Qle_bool 0 x = false).
    { apply not_true_iff_false. intros H. apply Qle_bool_iff in H. lra. }
    rewrite E. apply Qlt_shift_div_r; lra.
  - intros Hx.
    assert (E : Qle_bool 0 x = true) by (apply Qle_bool_iff; lra).
    rewrite E, Hx. reflexivity.
Qed.

Lemma example_high_well_formed : well_formed example.high.
Proof.
  apply instance_well_formed; [cbn; lia | reflexivity |].
  split; [intros [? E]; discriminate E | intros E; discriminate E].
Qed.

Lemma example_soft_well_formed : well_formed example.soft.
Proof.
  apply instance_well_formed; [cbn; lia | reflexivity |].
  split; [intros [? E]; discriminate E | intros E; discriminate E].
Qed.

(** C7 as stated fails for the tbabs model: a bin above the table has
    cross section zero and keeps its flux.  With the stand-in table, whose
    last knot is at 7.5 keV, [Spectrum([8,9], [1])] is left at flux 1. *)
Lemma tbabs_transparent_outside_table :
  ~ (forall (ext : Externals),
       exponential_laws ->
       forall w sp s nH model w' s',
         heap w !! sp = Some s ->
         class_ s = cSpectrum ->
         well_formed s ->
         Forall positive (ebins s) ->
         Forall positive (flux s) ->
         0 < nH ->
         model = "wabs"%string \/ model = "tbabs"%string ->
         obj.apply_foreground_absorption sp (Fin nH) (Some model)
           (Some (Fin 0)) w = (Ok tt, w') ->
         heap w' !! sp = Some s' ->
         Forall2 (fun new old => flt new old = true) (flux s') (flux s)).
Proof.
  intros claim.
  remember (obj.apply_foreground_absorption 0%nat (Fin 1)
              (Some "tbabs"%string) (Some (Fin 0))
              (example.world [example.high])) as run eqn:Hrun.
  assert (E1 : run.1 = Ok tt) by (subst run; vm_compute; reflexivity).
  assert (E2 : match heap run.2 !! 0%nat with
               | Some s' => match flux s' with
                            | [x] => flt x (Fin 1)
                            | _ => true
                            end
               | None => true
               end = false)
    by (subst run; vm_compute; reflexivity).
  destruct run as [r w']. cbn [fst snd] in E1, E2. subst r.
  destruct (heap w' !! 0%nat) as [s'|] eqn:Hs'; [|discriminate E2].
  assert (Pe : Forall positive (ebins example.high))
    by (repeat constructor; eexists; split; reflexivity).
  assert (Pf : Forall positive (flux example.high))
    by (repeat constructor; eexists; split; reflexivity).
  specialize (claim standin.externals standin_exponential_laws
                (example.world [example.high]) 0%nat example.high 1
                "tbabs"%string w' s' eq_refl eq_refl
                example_high_well_formed Pe Pf eq_refl (or_intror eq_refl)
                (eq_sym Hrun) Hs').
  change (flux example.high) with [Fin 1] in claim.
  destruct (flux s') as [|x [|y l]]; [inversion claim | |].
  - inversion claim as [|? ? ? ? Hlt _]; subst. congruence.
  - inversion claim as [|? ? ? ? _ Hrest]; subst. inversion Hrest.
Qed.

Lemma absorption_decreases_flux_witness :
  let w := example.world [example.soft] in
  exponential_laws
  /\ heap w !! 0%nat = Some example.soft
  /\ class_ example.soft = cSpectrum
  /\ Forall positive (ebins example.soft)
  /\ Forall positive (flux example.soft)
  /\ 0 < 2
  /\ exists w' s',
       obj.apply_foreground_absorption 0%nat (Fin 2) (Some "wabs"%string)
         None w = (Ok tt, w')
       /\ heap w' !! 0%nat = Some s'
       /\ Forall2 (fun new old => flt new old = true)
                  (flux s') (flux example.soft).
Proof.
  cbv zeta.
  assert (Pe : Forall positive (ebins example.soft))
    by (repeat constructor; eexists; split; reflexivity).
  assert (Pf : Forall positive (flux example.soft))
    by (repeat constructor; eexists; split; reflexivity).
  split; [exact standin_exponential_laws|].
  split; [reflexivity|]. split; [reflexivity|].
  split; [exact Pe|]. split; [exact Pf|]. split; [reflexivity|].
  exact (proj1 (absorption_decreases_flux standin_exponential_laws
                  (example.world [example.soft]) 0%nat example.soft 2
                  None 0.0 eq_refl eq_refl example_soft_well_formed Pe Pf
                  eq_refl eq_refl (eq_refl : 0.0 == 0))).
Defined.

Lemma convolved_refuses_absorption_witness :
  let w := example.world [example.c; example.rate] in
  let E := map (fun m => fmul m (fadd (Fin 1.0) (Fin 0.0)))
               (emid example.rate) in
  heap w !! 0%nat = Some example.c
  /\ heap w !! 1%nat = Some example.rate
  /\ class_ example.c = cConvolvedSpectrum
  /\ class_ example.rate = cCountRateSpectrum
  /\ well_formed example.rate
  /\ obj.apply_foreground_absorption 0%nat (Fin 1) (Some "wabs"%string) None w
     = (Raise (NotImplementedError ""), w)
  /\ exists sigma,
       wabs_cross_section E = Ok sigma
       /\ obj.apply_foreground_absorption 1%nat (Fin 1)
            (Some "wabs"%string) None w
          = (Ok tt,
             with_heap
               (<[1%nat := refreshed
                             (set_flux
                                (zip_with fmul (flux example.rate)
                                   (map (transmission (Fin 1)) sigma))
                                example.rate)]> (heap w)) w).
Proof.
  cbv zeta. split; [reflexivity|]. split; [reflexivity|].
  split; [reflexivity|]. split; [reflexivity|].
  split; [exact example_rate_well_formed|]. split.
  - exact (proj1 (convolved_refuses_absorption
                    (example.world [example.c; example.rate]) 0%nat
                    example.c (Fin 1) (Some "wabs"%string) eq_refl)
                 eq_refl).
  - destruct (proj1 (proj2 (convolved_refuses_absorption
                              (example.world [example.c; example.rate])
                              1%nat example.rate (Fin 1)
                              (Some "wabs"%string) eq_refl)
                       eq_refl example_rate_well_formed None) eq_refl)
      as (sigma & H1 & H2 & _).
    exists sigma. split; [exact H1 | exact H2].
Defined.

End AbsorptionExamples.

(** * Further properties of the code *)

(** ** Finite arrays *)

Section FiniteArrays.

Lemma finite_array_Fin xs : finite_array xs -> exists qs, xs = map Fin qs.
Proof.
  induction 1 as [|x xs Hx _ [qs ->]]; [now exists []|].
  destruct x as [q| | |]; try discriminate Hx. now exists (q :: qs).
Qed.

Lemma finite_array_map_Fin qs : finite_array (map Fin qs).
Proof. apply Forall_map, Forall_forall. reflexivity. Qed.

Lemma foldl_fadd_Fin a qs :
  foldl fadd (Fin a) (map Fin qs) = Fin (foldl Qplus a qs).
Proof. revert a. induction qs as [|q qs IH]; intros a; [reflexivity|]. apply IH. Qed.

Lemma sum_Fin qs : np.sum (map Fin qs) = Fin (foldl Qplus 0 qs).
Proof. apply foldl_fadd_Fin. Qed.

Lemma foldl_Qplus a qs : foldl Qplus a qs == a + Qsum qs.
Proof.
  revert a. induction qs as [|q qs IH]; intros a; cbn [foldl Qsum foldr].
  - ring.
  - rewrite IH. fold (Qsum qs). ring.
Qed.

Lemma zip_with_fmul_Fin xs ds :
  zip_with fmul (map Fin xs) (map Fin ds) = map Fin (zip_with Qmult xs ds).
Proof.
  revert ds. induction xs as [|x xs IH]; intros [|d ds]; try reflexivity.
  cbn [map zip_with fmul]. now rewrite IH.
Qed.

Lemma diff_Fin qs : exists ds, np.diff (map Fin qs) = map Fin ds.
Proof.
  induction qs as [|x [|y qs] [ds IH]]; [now exists [] | now exists [] |].
  exists ((y + - x) :: ds).
  change (np.diff (map Fin (x :: y :: qs)))
    with (fsub (Fin y) (Fin x) :: np.diff (map Fin (y :: qs))).
  now rewrite IH.
Qed.

Lemma finite_array_diff xs : finite_array xs -> finite_array (np.diff xs).
Proof.
  intros [qs ->]%finite_array_Fin. destruct (diff_Fin qs) as [ds ->].
  apply finite_array_map_Fin.
Qed.

Lemma cumsum_from_Fin a qs :
  np.cumsum_from (Fin a) (map Fin qs) = map Fin (partial_sums a qs).
Proof.
  revert a. induction qs as [|q qs IH]; intros a; [reflexivity|].
  cbn [map np.cumsum_from partial_sums fadd]. now rewrite IH.
Qed.

Lemma last_partial_sums a qs : List.last (a :: partial_sums a qs) 0 == a + Qsum qs.
Proof.
  revert a. induction qs as [|q qs IH]; intros a.
  - cbn. ring.
  - cbn [partial_sums].
    change (List.last (a :: (a + q) :: partial_sums (a + q) qs) 0)
      with (List.last ((a + q) :: partial_sums (a + q) qs) 0).
    rewrite IH. cbn [Qsum foldr]. fold (Qsum qs). ring.
Qed.

(** The cumulative sums prefixed with 0, on finite values. *)
Lemma cumsum_Fin qs :
  exists cs,
    Fin 0.0 :: np.cumsum (map Fin qs) = map Fin (0.0 :: cs)
    /\ length cs = length qs
    /\ List.last (0.0 :: cs) 0 == Qsum qs.
Proof.
  destruct qs as [|q qs].
  - exists []. repeat split. 
  - exists (q :: partial_sums q qs). split; [|split].
    + cbn [np.cumsum map]. now rewrite cumsum_from_Fin.
    + cbn [length]. f_equal. clear. revert q.
      induction qs as [|x qs IH]; intros q; [reflexivity|].
      cbn [partial_sums length]. now rewrite IH.
    + change (List.last (0.0 :: q :: partial_sums q qs) 0)
        with (List.last (q :: partial_sums q qs) 0).
      rewrite last_partial_sums. reflexivity.
Qed.

Lemma last_map {A B} (f : A -> B) l d :
  List.last (map f l) (f d) = f (List.last l d).
Proof.
  induction l as [|x [|y l] IH]; [reflexivity | reflexivity |].
  change (List.last (map f (x :: y :: l)) (f d))
    with (List.last (map f (y :: l)) (f d)).
  now rewrite IH.
Qed.

End FiniteArrays.

(** ** The cumulative distribution *)

Section Distribution.
Context `{ext : Externals}.

Lemma last_nonempty {A} (x : A) l d d' :
  List.last (x :: l) d = List.last (x :: l) d'.
Proof.
  revert x. induction l as [|y l IH]; intros x; [reflexivity|].
  change (List.last (y :: l) d = List.last (y :: l) d'). apply IH.
Qed.

(** The distribution of finite flux and widths: the running sums
    [0, c1, ..., t] divided by their last entry [t], the total. *)
Lemma distribution_Fin o xs ds :
  flux o = map Fin xs ->
  de o = map Fin ds ->
  exists cs t',
    let t := List.last (0.0 :: cs) 0 in
    photon_rate o = Fin t'
    /\ t' == t
    /\ length cs = length (zip_with Qmult xs ds)
    /\ distribution o = map (fun c => fdiv (Fin c) (Fin t)) (0.0 :: cs).
Proof.
  intros Hx Hd. unfold photon_rate, distribution.
  rewrite Hx, Hd, zip_with_fmul_Fin, sum_Fin.
  destruct (cumsum_Fin (zip_with Qmult xs ds)) as (cs & Hc & Lc & Hl).
  exists cs, (foldl Qplus 0 (zip_with Qmult xs ds)). cbv zeta.
  split; [reflexivity|].
  split; [rewrite Hl, foldl_Qplus; ring|].
  split; [exact Lc|].
  rewrite Hc, (last_map Fin (0.0 :: cs) 0), map_map. reflexivity.
Qed.

(** X1.  Once [_compute_total_flux] has run on finite edges and flux, the
    cumulative distribution has one entry per edge; when the total is not
    zero it starts at 0 and ends at 1; when the total is zero no entry of it
    is a finite number: every entry is NaN or infinite, the first and the
    last are NaN. *)
Theorem cumulative_distribution_normalised w self s :
  heap w !! self = Some s ->
  well_formed s ->
  finite_array (ebins s) ->
  finite_array (flux s) ->
  exists w' s' t,
    Spectrum._compute_total_flux self w = (Ok tt, w')
    /\ heap w' !! self = Some s'
    /\ flux s' = flux s
    /\ total_flux s' = Fin t
    /\ length (cumspec s') = length (ebins s)
    /\ (~ t == 0 ->
        same (hd NaN (cumspec s')) (Fin 0)
        /\ same (List.last (cumspec s') NaN) (Fin 1))
    /\ (t == 0 ->
        Forall (fun x => isfinite x = false) (cumspec s')
        /\ hd (Fin 0) (cumspec s') = NaN
        /\ List.last (cumspec s') (Fin 0) = NaN).
Proof.
  intros Hs Ws He Hf. destruct (wf_lengths _ Ws) as (L1 & L2 & L3 & L4).
  destruct (finite_array_Fin _ Hf) as [xs Hx].
  assert (Hd : exists ds, de s = map Fin ds).
  { rewrite (wf_de _ Ws). destruct (finite_array_Fin _ He) as [qs ->].
    apply diff_Fin. }
  destruct Hd as [ds Hd].
  destruct (distribution_Fin s xs ds Hx Hd) as (cs & t' & Hp & Ht & Lc & Hdist).
  cbv zeta in *. set (t := List.last (0.0 :: cs) 0) in *.
  exists (with_heap (<[self := refreshed s]> (heap w)) w), (refreshed s), t'.
  split; [now apply compute_total_flux_ok|].
  split; [cbn [heap with_heap]; eapply heap_insert_lookup, Hs|].
  split; [reflexivity|].
  split; [exact Hp|].
  cbn [cumspec refreshed set_cumspec]. rewrite Hdist.
  assert (Hlast : forall d,
             List.last (map (fun c => fdiv (Fin c) (Fin t)) (0.0 :: cs)) d
             = fdiv (Fin t) (Fin t)).
  { intros d. cbn [map].
    rewrite (last_nonempty _ _ d (fdiv (Fin 0) (Fin t))).
    change (fdiv (Fin 0.0) (Fin t) :: map (fun c => fdiv (Fin c) (Fin t)) cs)
      with (map (fun c => fdiv (Fin c) (Fin t)) (0.0 :: cs)).
    now rewrite (last_map (fun c => fdiv (Fin c) (Fin t)) (0.0 :: cs) 0). }
  split; [|split].
  - cbn [map length]. rewrite length_map, Lc, length_zip_with.
    apply (f_equal (@length _)) in Hx, Hd. rewrite !length_map in Hx, Hd.
    pose proof (wf_edges _ Ws). lia.
  - intros Hn. assert (Hn' : ~ t == 0) by (now rewrite <- Ht).
    split.
    + cbn [map hd]. rewrite fdiv_Fin by exact Hn'. cbn. now field.
    + rewrite Hlast, fdiv_Fin by exact Hn'. cbn. now field.
  - intros Hz. assert (Hz' : Qeq_bool t 0 = true)
      by (apply Qeq_bool_iff; now rewrite <- Ht).
    split; [|split].
    + apply Forall_map, Forall_forall. intros c _. unfold fdiv.
      rewrite Hz'. destruct (Qeq_bool c 0); [reflexivity|].
      now destruct (Qltb 0 c).
    + cbn [map hd]. unfold fdiv. now rewrite Hz'.
    + rewrite Hlast. unfold fdiv. now rewrite Hz'.
Qed.

End Distribution.

(** ** Band restriction and band integrals *)

Section BandsOfMidpoints.
Context `{ext : Externals}.

Lemma restricted_masks emin emax es xs :
  zip_with (restricted emin emax) es xs
  = match emin, emax with
    | Some lo, Some hi =>
        zip_with (fun x (m : bool) => if m then Fin 0.0 else x)
          (zip_with (fun x (m : bool) => if m then Fin 0.0 else x) xs
             (map (fun e => flt e lo) es))
          (map (fun e => fgt e hi) es)
    | Some lo, None =>
        zip_with (fun x (m : bool) => if m then Fin 0.0 else x) xs
          (map (fun e => flt e lo) es)
    | None, Some hi =>
        zip_with (fun x (m : bool) => if m then Fin 0.0 else x) xs
          (map (fun e => fgt e hi) es)
    | None, None => take (length es) xs
    end.
Proof.
  unfold restricted.
  revert xs. induction es as [|e es IH]; intros [|x xs];
    try (destruct emin, emax; reflexivity).
  cbn [zip_with]. rewrite IH.
  destruct emin as [lo|], emax as [hi|]; cbn [from_option map zip_with orb take length].
  - destruct (flt e lo), (fgt e hi); reflexivity.
  - rewrite orb_false_r. destruct (flt e lo); reflexivity.
  - reflexivity.
  - reflexivity.
Qed.

Lemma set_flux_same s : set_flux (flux s) s = s.
Proof. now destruct s. Qed.

(** [restrict_within_band] on a well-formed spectrum. *)
Lemma restrict_within_band_run w self s emin emax :
  heap w !! self = Some s ->
  well_formed s ->
  Spectrum.restrict_within_band self emin emax w
  = (Ok tt,
     with_heap
       (<[self := refreshed
                    (set_flux (zip_with (restricted emin emax)
                                 (emid s) (flux s)) s)]> (heap w)) w).
Proof.
  intros Hs Hwf. destruct (wf_lengths _ Hwf) as (L1 & L2 & L3 & L4).
  rewrite restricted_masks.
  unfold Spectrum.restrict_within_band.
  destruct emin as [emin|], emax as [emax|]; msteps.
  - rewrite setmask_same_length by (now rewrite length_map).
    msteps. cbn [flux set_flux emid].
    rewrite setmask_same_length
      by (now rewrite length_zip_with, !length_map, L3, Nat.min_id).
    msteps. mrefresh; [reflexivity | |];
      now rewrite ?length_zip_with, ?length_map, ?L3, ?Nat.min_id.
  - rewrite setmask_same_length by (now rewrite length_map).
    msteps. mrefresh; [reflexivity | |];
      now rewrite ?length_zip_with, ?length_map, ?L3, ?Nat.min_id.
  - rewrite setmask_same_length by (now rewrite length_map).
    msteps. mrefresh; [reflexivity | |];
      now rewrite ?length_zip_with, ?length_map, ?L3, ?Nat.min_id.
  - mrefresh; [| assumption ..].
    rewrite <- L3, firstn_all, set_flux_same. reflexivity.
Qed.

End BandsOfMidpoints.

Section BandIntegrals.
Context `{ext : Externals}.

Lemma zip_with_andb_bands emin emax (es : list float) :
  zip_with andb (map (fun e => fge e emin) es) (map (fun e => fle e emax) es)
  = map (in_band emin emax) es.
Proof. induction es as [|e es IH]; [reflexivity|]. cbn. now rewrite IH. Qed.

(** [get_flux_in_band] on a well-formed spectrum: the two band integrals;
    nothing is changed. *)
Lemma get_flux_in_band_run w self s emin emax :
  heap w !! self = Some s ->
  well_formed s ->
  Spectrum.get_flux_in_band self emin emax w
  = (Ok (band_photon_rate emin emax s, band_energy_rate emin emax s), w).
Proof.
  intros Hs Ws. destruct (wf_lengths _ Ws) as (L1 & L2 & L3 & L4).
  unfold Spectrum.get_flux_in_band. msteps.
  rewrite logical_and_same_length by (now rewrite !length_map).
  msteps. rewrite zip_with_andb_bands.
  rewrite (multiply_same_length (flux s) (de s)) by exact L1. msteps.
  rewrite select_same_length
    by (rewrite length_zip_with, length_map; lia).
  msteps.
  rewrite multiply_same_length by (now rewrite length_map). msteps.
  rewrite multiply_same_length
    by (rewrite length_zip_with, length_map; lia).
  msteps.
  rewrite select_same_length
    by (rewrite !length_zip_with, !length_map; lia).
  msteps. reflexivity.
Qed.

Lemma masked_all {A} (xs : list A) (mask : list bool) :
  length xs = length mask ->
  Forall (fun m => m = true) mask ->
  masked xs mask = xs.
Proof.
  unfold masked. revert mask.
  induction xs as [|x xs IH]; intros [|m mask] L Hm; try discriminate;
    [reflexivity|].
  inversion Hm; subst. cbn. f_equal. apply IH; [now injection L | assumption].
Qed.

Lemma masked_none {A} (xs : list A) (mask : list bool) :
  Forall (fun m => m = false) mask ->
  masked xs mask = [].
Proof.
  unfold masked. revert mask.
  induction xs as [|x xs IH]; intros [|m mask] Hm; try reflexivity.
  inversion Hm; subst. cbn. now apply IH.
Qed.

(** A band that holds every midpoint gives the totals. *)
Lemma band_rates_full emin emax s :
  well_formed s ->
  Forall (fun e => in_band emin emax e = true) (emid s) ->
  band_photon_rate emin emax s = photon_rate s
  /\ band_energy_rate emin emax s = energy_rate s.
Proof.
  intros Ws Hb. destruct (wf_lengths _ Ws) as (L1 & L2 & L3 & L4).
  unfold band_photon_rate, band_energy_rate, band_energy_sum, photon_rate,
    energy_rate.
  rewrite !masked_all; auto;
    rewrite ?length_zip_with, ?length_map; try lia;
    now apply Forall_map.
Qed.

End BandIntegrals.

Section SortedEdges.
Context `{ext : Externals}.

Lemma midpoints_lookup xs i a b :
  xs !! i = Some a ->
  xs !! S i = Some b ->
  midpoints xs !! i = Some (fmul (Fin 0.5) (fadd b a)).
Proof.
  intros Ha Hb. unfold midpoints, np.tail1, np.init1.
  rewrite list_lookup_fmap, lookup_zip_with, lookup_drop.
  change (1 + i)%nat with (S i). rewrite Hb. cbn [mbind option_bind].
  rewrite lookup_take_lt by (apply lookup_lt_Some in Hb; lia).
  now rewrite Ha.
Qed.

Lemma midpoints_lookup_inv xs i m :
  midpoints xs !! i = Some m ->
  exists a b, xs !! i = Some a /\ xs !! S i = Some b
              /\ m = fmul (Fin 0.5) (fadd b a).
Proof.
  intros Hm. pose proof (lookup_lt_Some _ _ _ Hm) as Hi.
  rewrite length_midpoints in Hi.
  destruct (lookup_lt_is_Some_2 xs i) as [a Ha]; [lia|].
  destruct (lookup_lt_is_Some_2 xs (S i)) as [b Hb]; [lia|].
  exists a, b. split; [exact Ha|]. split; [exact Hb|].
  rewrite (midpoints_lookup _ _ _ _ Ha Hb) in Hm. congruence.
Qed.

(** In a nondecreasing array of finite values an earlier entry is not
    above a later one. *)
Lemma nondecreasing_le qs i j x y :
  nondecreasing (map Fin qs) ->
  (i <= j)%nat ->
  qs !! i = Some x ->
  qs !! j = Some y ->
  x <= y.
Proof.
  intros Hn Hij Hx. revert y. induction Hij as [|j Hij IH]; intros y Hy.
  - assert (x = y) by congruence. subst. apply Qle_refl.
  - destruct (lookup_lt_is_Some_2 qs j) as [z Hz];
      [apply lookup_lt_Some in Hy; lia|].
    apply Qle_trans with z; [now apply IH|].
    apply Qle_bool_iff.
    apply (Hn j (Fin z) (Fin y)); rewrite list_lookup_fmap;
      [now rewrite Hz | now rewrite Hy].
Qed.

Lemma getitem_0_lookup {A} (xs : list A) x :
  np.getitem xs 0 = Ok x -> xs !! 0%nat = Some x.
Proof.
  destruct xs as [|y xs]; [discriminate|].
  destruct (getitem_first (y :: xs)) as [z Hz]; [simpl; lia|].
  pose proof Hz as Hz'. simpl in Hz'. injection Hz' as <-.
  rewrite Hz. intros [= <-]. reflexivity.
Qed.

Lemma lookup_last {A} (x : A) (l : list A) d :
  (x :: l) !! length l = Some (List.last (x :: l) d).
Proof.
  revert x. induction l as [|y l IH]; intros x; [reflexivity|].
  simpl length.
  change ((x :: y :: l) !! S (length l)) with ((y :: l) !! length l).
  rewrite IH. reflexivity.
Qed.

Lemma getitem_last_lookup {A} (xs : list A) x :
  np.getitem xs (-1) = Ok x -> xs !! (length xs - 1)%nat = Some x.
Proof.
  destruct xs as [|y xs]; [discriminate|].
  rewrite (getitem_last y xs y). intros [= <-].
  cbn [length]. rewrite Nat.sub_succ, Nat.sub_0_r. apply lookup_last.
Qed.

(** Every midpoint of nondecreasing finite edges lies between the first
    and the last edge. *)
Lemma midpoints_in_full_band edges lo hi :
  finite_array edges ->
  nondecreasing edges ->
  np.getitem edges 0 = Ok lo ->
  np.getitem edges (-1) = Ok hi ->
  Forall (fun e => in_band lo hi e = true) (midpoints edges).
Proof.
  intros [qs ->]%finite_array_Fin Hn Hlo Hhi.
  apply getitem_0_lookup in Hlo. apply getitem_last_lookup in Hhi.
  rewrite list_lookup_fmap in Hlo, Hhi. rewrite length_map in Hhi.
  destruct (qs !! 0%nat) as [q0|] eqn:H0; [|discriminate Hlo].
  destruct (qs !! (length qs - 1)%nat) as [q1|] eqn:H1; [|discriminate Hhi].
  injection Hlo as <-. injection Hhi as <-.
  apply Forall_lookup. intros i m Hm.
  destruct (midpoints_lookup_inv _ _ _ Hm) as (a & b & Ha & Hb & ->).
  rewrite list_lookup_fmap in Ha, Hb.
  destruct (qs !! i) as [qa|] eqn:Ea; [|discriminate Ha].
  destruct (qs !! S i) as [qb|] eqn:Eb; [|discriminate Hb].
  injection Ha as <-. injection Hb as <-.
  pose proof (lookup_lt_Some _ _ _ Eb) as Hlt.
  assert (B1 : q0 <= qa) by (apply (nondecreasing_le qs 0 i); auto; lia).
  assert (B2 : qa <= qb) by (apply (nondecreasing_le qs i (S i)); auto).
  assert (B3 : qb <= q1)
    by (apply (nondecreasing_le qs (S i) (length qs - 1)); auto; lia).
  unfold in_band, fge. cbn [fmul fadd fle].
  apply andb_true_intro. split; apply Qle_bool_iff; lra.
Qed.

(** X2.  Over the whole range of nondecreasing finite edges,
    [get_flux_in_band] returns the sum of flux times width and the energy
    rate of all bins: the totals that [_compute_total_flux] caches. The call
    changes nothing. *)
Theorem get_flux_in_band_full_range w self s lo hi :
  heap w !! self = Some s ->
  well_formed s ->
  finite_array (ebins s) ->
  nondecreasing (ebins s) ->
  np.getitem (ebins s) 0 = Ok lo ->
  np.getitem (ebins s) (-1) = Ok hi ->
  Spectrum.get_flux_in_band self lo hi w
  = (Ok (photon_rate s, energy_rate s), w)
  /\ (aggregates_consistent s -> same (total_flux s) (photon_rate s)).
Proof.
  intros Hs Ws He Hn Hlo Hhi. split; [|now intros [? _]].
  rewrite (get_flux_in_band_run _ _ _ _ _ Hs Ws).
  destruct (band_rates_full lo hi s Ws) as [-> ->]; [|reflexivity].
  rewrite (wf_emid _ Ws). now apply midpoints_in_full_band.
Qed.

(** X3.  A band that holds no midpoint has no flux: both integrals are zero. *)
Theorem get_flux_in_band_empty_band w self s emin emax :
  heap w !! self = Some s ->
  well_formed s ->
  Forall (fun e => in_band emin emax e = false) (emid s) ->
  exists p e,
    Spectrum.get_flux_in_band self emin emax w = (Ok (Fin p, Fin e), w)
    /\ p == 0 /\ e == 0.
Proof.
  intros Hs Ws Hb. rewrite (get_flux_in_band_run _ _ _ _ _ Hs Ws).
  unfold band_photon_rate, band_energy_rate, band_energy_sum.
  rewrite !masked_none by (now apply Forall_map).
  eexists _, _. split; [reflexivity|]. split; reflexivity.
Qed.

End SortedEdges.

Section BandSums.
Context `{ext : Externals}.

Lemma finite_array_midpoints edges :
  finite_array edges -> finite_array (midpoints edges).
Proof.
  intros He. apply Forall_lookup. intros i m Hm.
  destruct (midpoints_lookup_inv _ _ _ Hm) as (a & b & Ha & Hb & ->).
  pose proof (proj1 (Forall_lookup _ _) He _ _ Ha) as Fa.
  pose proof (proj1 (Forall_lookup _ _) He _ _ Hb) as Fb.
  destruct a, b; try discriminate. reflexivity.
Qed.

Lemma masked_map {A B} (f : A -> B) xs mask :
  masked (map f xs) mask = map f (masked xs mask).
Proof.
  unfold masked. revert mask.
  induction xs as [|x xs IH]; intros [|m mask]; try reflexivity.
  cbn. destruct m; cbn; now rewrite IH.
Qed.

Lemma in_band_Fin lo hi m :
  in_band (Fin lo) (Fin hi) (Fin m) = Qle_bool lo m && Qle_bool m hi.
Proof. reflexivity. Qed.

Lemma restricted_Fin lo hi m x :
  restricted (Some (Fin lo)) (Some (Fin hi)) (Fin m) (Fin x)
  = Fin (if Qle_bool lo m && Qle_bool m hi then x else 0.0).
Proof.
  unfold restricted, fgt. cbn [from_option flt]. unfold Qltb.
  destruct (Qle_bool lo m), (Qle_bool m hi); reflexivity.
Qed.

Lemma masked_cons {A} (x : A) xs (m : bool) mask :
  masked (x :: xs) (m :: mask)
  = if m then x :: masked xs mask else masked xs mask.
Proof. now destruct m. Qed.

Lemma Qsum_cons q qs : Qsum (q :: qs) = q + Qsum qs.
Proof. reflexivity. Qed.

(** The sum over all bins of the restricted flux times width is the sum
    over the bins of the band of flux times width. *)
Lemma Qsum_restricted (inb : Q -> bool) ms xs ds :
  Qsum (zip_with Qmult
          (zip_with (fun m x => if inb m then x else 0.0) ms xs) ds)
  == Qsum (masked (zip_with Qmult xs ds) (map inb ms)).
Proof.
  revert xs ds.
  induction ms as [|m ms IH]; intros [|x xs] [|d ds]; try reflexivity.
  cbn [zip_with map]. rewrite masked_cons, Qsum_cons, IH.
  destruct (inb m); [now rewrite Qsum_cons | ring].
Qed.

(** Scaling every flux value by [c] scales a band sum by [c]. *)
Lemma Qsum_masked_scale c ps ps' mask :
  Forall2 (fun p' p => p' == c * p) ps' ps ->
  Qsum (masked ps' mask) == c * Qsum (masked ps mask).
Proof.
  intros H. revert mask.
  induction H as [|p' p ps' ps Hp _ IH]; intros [|m mask];
    try (cbn; ring).
  rewrite !masked_cons. destruct m; [|apply IH].
  rewrite !Qsum_cons, (IH mask), Hp. ring.
Qed.

Lemma scaled_products c xs ds :
  Forall2 (fun p' p => p' == c * p)
    (zip_with Qmult (map (fun x => x * c) xs) ds) (zip_with Qmult xs ds).
Proof.
  revert ds. induction xs as [|x xs IH]; intros [|d ds]; try constructor.
  - ring.
  - apply IH.
Qed.

Lemma scaled_weighted_products c xs ws ds :
  Forall2 (fun p' p => p' == c * p)
    (zip_with Qmult (zip_with Qmult (map (fun x => x * c) xs) ws) ds)
    (zip_with Qmult (zip_with Qmult xs ws) ds).
Proof.
  revert ws ds.
  induction xs as [|x xs IH]; intros [|v ws] [|d ds]; try constructor.
  - ring.
  - apply IH.
Qed.

End BandSums.

Section RestrictRescale.
Context `{ext : Externals}.

(** X4.  [restrict_within_band] sets to zero the flux of every bin whose
    midpoint is below [emin] or above [emax] (a limit left out excludes
    nothing), keeps the flux of every other bin, and re-derives the
    aggregates; the edges, and every other instance, are as before. *)
Theorem restrict_within_band_contract w self s emin emax :
  heap w !! self = Some s ->
  well_formed s ->
  exists w' s',
    Spectrum.restrict_within_band self emin emax w = (Ok tt, w')
    /\ heap w' !! self = Some s'
    /\ ebins s' = ebins s
    /\ well_formed s'
    /\ aggregates_consistent s'
    /\ (forall i e x,
          emid s !! i = Some e ->
          flux s !! i = Some x ->
          flux s' !! i = Some (restricted emin emax e x))
    /\ (forall other, other <> self -> heap w' !! other = heap w !! other).
Proof.
  intros Hs Ws. destruct (wf_lengths _ Ws) as (L1 & L2 & L3 & L4).
  eexists _, _. split; [apply (restrict_within_band_run _ _ _ _ _ Hs Ws)|].
  split; [cbn [heap with_heap]; eapply heap_insert_lookup, Hs|].
  split; [reflexivity|].
  split.
  { apply wf_refreshed, wf_set_flux; [exact Ws|].
    rewrite length_zip_with. lia. }
  split; [apply refreshed_consistent|].
  split.
  - intros i e x He Hx. cbn [flux refreshed set_cumspec set_total_energy_flux
                               set_total_flux set_flux].
    now rewrite lookup_zip_with, He, Hx.
  - intros other Ho. cbn [heap with_heap]. now apply heap_insert_other.
Qed.

Lemma restricted_idempotent emin emax e x :
  restricted emin emax e (restricted emin emax e x) = restricted emin emax e x.
Proof. unfold restricted. now destruct (_ || _). Qed.

Lemma zip_with_restricted_idempotent emin emax es xs :
  zip_with (restricted emin emax) es (zip_with (restricted emin emax) es xs)
  = zip_with (restricted emin emax) es xs.
Proof.
  revert xs. induction es as [|e es IH]; intros [|x xs]; try reflexivity.
  cbn [zip_with]. now rewrite restricted_idempotent, IH.
Qed.

(** X5.  Restricting twice to the same band is restricting once. *)
Theorem restrict_within_band_idempotent w self s emin emax :
  heap w !! self = Some s ->
  well_formed s ->
  (Spectrum.restrict_within_band self emin emax
     ≫= fun _ => Spectrum.restrict_within_band self emin emax) w
  = Spectrum.restrict_within_band self emin emax w.
Proof.
  intros Hs Ws. destruct (wf_lengths _ Ws) as (L1 & L2 & L3 & L4).
  pose proof (restrict_within_band_run _ _ _ emin emax Hs Ws) as R1.
  rewrite (bind_Ok _ _ _ _ _ R1), R1.
  set (fl := zip_with (restricted emin emax) (emid s) (flux s)).
  assert (Hs1 : heap (with_heap (<[self := refreshed (set_flux fl s)]> (heap w))
                        w) !! self = Some (refreshed (set_flux fl s)))
    by (eapply heap_insert_lookup, Hs).
  rewrite (restrict_within_band_run _ _ _ emin emax Hs1).
  - cbn [heap with_heap emid flux refreshed set_cumspec set_total_energy_flux
           set_total_flux set_flux].
    unfold fl at 1. rewrite zip_with_restricted_idempotent. fold fl.
    rewrite list_insert_insert_eq. reflexivity.
  - apply wf_refreshed, wf_set_flux; [exact Ws|].
    unfold fl. rewrite length_zip_with. lia.
Qed.

(** X6.  After a restriction to a band with finite limits, on finite edges
    and flux, the cached total is the photon rate that [get_flux_in_band]
    reported for the band before the restriction. *)
Theorem restrict_within_band_total w self s lo hi :
  heap w !! self = Some s ->
  well_formed s ->
  finite_array (ebins s) ->
  finite_array (flux s) ->
  exists p e w' s',
    Spectrum.get_flux_in_band self (Fin lo) (Fin hi) w = (Ok (p, e), w)
    /\ Spectrum.restrict_within_band self (Some (Fin lo)) (Some (Fin hi)) w
       = (Ok tt, w')
    /\ heap w' !! self = Some s'
    /\ same (total_flux s') p.
Proof.
  intros Hs Ws He Hf.
  eexists _, _, _, _.
  split; [apply (get_flux_in_band_run _ _ _ _ _ Hs Ws)|].
  split; [apply (restrict_within_band_run _ _ _ _ _ Hs Ws)|].
  split; [cbn [heap with_heap]; eapply heap_insert_lookup, Hs|].
  cbn [total_flux refreshed set_cumspec set_total_energy_flux set_total_flux].
  unfold photon_rate, band_photon_rate.
  cbn [flux de set_flux].
  destruct (finite_array_Fin _ Hf) as [xs ->].
  assert (Hm : finite_array (emid s))
    by (rewrite (wf_emid _ Ws); now apply finite_array_midpoints).
  assert (Hd : finite_array (de s))
    by (rewrite (wf_de _ Ws); now apply finite_array_diff).
  destruct (finite_array_Fin _ Hm) as [ms ->].
  destruct (finite_array_Fin _ Hd) as [ds ->].
  assert (E1 : zip_with (restricted (Some (Fin lo)) (Some (Fin hi)))
                 (map Fin ms) (map Fin xs)
               = map Fin (zip_with
                            (fun m x => if Qle_bool lo m && Qle_bool m hi
                                        then x else 0.0) ms xs)).
  { clear. revert xs. induction ms as [|m ms IH]; intros [|x xs];
      try reflexivity.
    cbn [map zip_with]. now rewrite restricted_Fin, IH. }
  rewrite E1, !zip_with_fmul_Fin, map_map.
  rewrite (map_ext _ (fun m => Qle_bool lo m && Qle_bool m hi))
    by (intros m; apply in_band_Fin).
  rewrite masked_map, !sum_Fin. cbn [same].
  rewrite !foldl_Qplus.
  rewrite (Qsum_restricted (fun m => Qle_bool lo m && Qle_bool m hi)).
  reflexivity.
Qed.

End RestrictRescale.

Section Rescale.
Context `{ext : Externals}.

Lemma band_limit_run (given : option float) edges i limit :
  band_limit given edges i limit ->
  match given with
  | None => lift (np.getitem edges i)
  | Some x => mret x
  end = (lift (Ok limit) : M float).
Proof. destruct given; cbn [band_limit]; now intros ->. Qed.

(** [rescale_flux] on a well-formed spectrum: every flux value is
    multiplied by the ratio of [new_flux] to the integral of the band. *)
Lemma rescale_flux_run w self s new_flux emin emax lo hi flux_type f :
  heap w !! self = Some s ->
  well_formed s ->
  band_limit emin (ebins s) 0 lo ->
  band_limit emax (ebins s) (-1) hi ->
  (flux_type = "photons"%string /\ f = band_photon_rate lo hi s)
  \/ (flux_type = "energy"%string /\ f = band_energy_sum lo hi s) ->
  Spectrum.rescale_flux self new_flux emin emax flux_type w
  = (Ok tt,
     with_heap
       (<[self := refreshed
                    (set_flux (map (fun x => fmul x (fdiv new_flux f))
                                   (flux s)) s)]> (heap w)) w).
Proof.
  intros Hs Hwf Hlo Hhi Hft. destruct (wf_lengths _ Hwf) as (L1 & L2 & L3 & L4).
  unfold Spectrum.rescale_flux. msteps.
  rewrite (band_limit_run _ _ _ _ Hlo). msteps.
  rewrite (band_limit_run _ _ _ _ Hhi). msteps.
  rewrite logical_and_same_length by (now rewrite !length_map).
  msteps. rewrite zip_with_andb_bands.
  destruct Hft as [[-> ->] | [-> ->]].
  - replace (String.eqb "photons" "photons") with true by reflexivity.
    cbv iota. msteps.
    rewrite multiply_same_length by exact L1. msteps.
    rewrite select_same_length
      by (rewrite !length_zip_with, !length_map; lia).
    msteps. mrefresh; [reflexivity | |]; now rewrite ?length_map.
  - replace (String.eqb "energy" "photons") with false by reflexivity.
    replace (String.eqb "energy" "energy") with true by reflexivity.
    cbv iota. msteps.
    rewrite multiply_same_length by (now rewrite length_map).
    msteps.
    rewrite multiply_same_length
      by (rewrite length_zip_with, length_map; lia).
    msteps.
    rewrite select_same_length
      by (rewrite !length_zip_with, !length_map; lia).
    msteps. mrefresh; [reflexivity | |]; now rewrite ?length_map.
Qed.

Lemma map_fmul_Fin c xs :
  map (fun x => fmul x (Fin c)) (map Fin xs) = map Fin (map (fun x => x * c) xs).
Proof. rewrite !map_map. reflexivity. Qed.

(** X7.  After [rescale_flux] the integral of the band is [new_flux]: on
    finite edges and flux, with a band whose integral [f] (of photons, or of
    energy) is not zero, every flux value is multiplied by [new_flux / f],
    and [get_flux_in_band] over the same band then returns [new_flux] as the
    photon rate (as the energy rate, for the flux type "energy"). *)
Theorem rescale_flux_contract w self s n emin emax lo hi flux_type f :
  heap w !! self = Some s ->
  well_formed s ->
  finite_array (ebins s) ->
  finite_array (flux s) ->
  band_limit emin (ebins s) 0 lo ->
  band_limit emax (ebins s) (-1) hi ->
  (flux_type = "photons"%string /\ band_photon_rate lo hi s = Fin f)
  \/ (flux_type = "energy"%string /\ band_energy_sum lo hi s = Fin f) ->
  ~ f == 0 ->
  exists w' s' p e,
    Spectrum.rescale_flux self (Fin n) emin emax flux_type w = (Ok tt, w')
    /\ heap w' !! self = Some s'
    /\ flux s' = map (fun x => fmul x (Fin (n / f))) (flux s)
    /\ Spectrum.get_flux_in_band self lo hi w' = (Ok (p, e), w')
    /\ same (if String.eqb flux_type "photons" then p else e) (Fin n).
Proof.
  intros Hs Ws He Hf Hlo Hhi Hft Hnz.
  set (s' := refreshed
               (set_flux (map (fun x => fmul x (Fin (n / f))) (flux s)) s)).
  set (w' := with_heap (<[self := s']> (heap w)) w).
  assert (Hs' : heap w' !! self = Some s')
    by (eapply heap_insert_lookup, Hs).
  assert (Ws' : well_formed s')
    by (apply wf_refreshed, wf_set_flux; [exact Ws | now rewrite length_map]).
  exists w', s', (band_photon_rate lo hi s'), (band_energy_rate lo hi s').
  split.
  { rewrite (rescale_flux_run _ _ _ (Fin n) _ _ lo hi flux_type (Fin f)
               Hs Ws Hlo Hhi).
    - now rewrite fdiv_Fin.
    - destruct Hft as [[-> ->] | [-> ->]]; auto. }
  split; [exact Hs'|]. split; [reflexivity|].
  split; [apply (get_flux_in_band_run _ _ _ _ _ Hs' Ws')|].
  destruct (finite_array_Fin _ Hf) as [xs Hx].
  assert (Hm : finite_array (emid s))
    by (rewrite (wf_emid _ Ws); now apply finite_array_midpoints).
  assert (Hd : finite_array (de s))
    by (rewrite (wf_de _ Ws); now apply finite_array_diff).
  destruct (finite_array_Fin _ Hm) as [ms Hms].
  destruct (finite_array_Fin _ Hd) as [ds Hds].
  set (mask := map (in_band lo hi) (emid s)).
  destruct Hft as [[-> Hb] | [-> Hb]].
  - replace (String.eqb "photons" "photons") with true by reflexivity.
    unfold band_photon_rate in *.
    cbn [flux de emid s' refreshed set_cumspec set_total_energy_flux
           set_total_flux set_flux].
    fold mask in Hb |- *.
    rewrite Hx, Hds in *. rewrite map_fmul_Fin.
    rewrite zip_with_fmul_Fin, masked_map, sum_Fin in Hb |- *.
    injection Hb as Hb. cbn [same].
    rewrite foldl_Qplus, (Qsum_masked_scale (n / f) (zip_with Qmult xs ds))
      by apply scaled_products.
    rewrite <- Hb, foldl_Qplus in Hnz. rewrite <- Hb, foldl_Qplus.
    set (q := Qsum _) in *.
    assert (Hq : ~ q == 0) by (intros E; apply Hnz; rewrite E; ring).
    now field.
  - replace (String.eqb "energy" "photons") with false by reflexivity.
    unfold band_energy_rate, band_energy_sum in *.
    cbn [flux de emid s' refreshed set_cumspec set_total_energy_flux
           set_total_flux set_flux].
    fold mask in Hb |- *.
    rewrite Hx, Hds, Hms in *. rewrite map_fmul_Fin.
    rewrite (map_fmul_Fin keV_to_erg ms) in Hb |- *.
    rewrite !zip_with_fmul_Fin, masked_map, sum_Fin in Hb |- *.
    injection Hb as Hb.
    rewrite fdiv_Fin by discriminate. cbn [same].
    rewrite foldl_Qplus,
      (Qsum_masked_scale (n / f)
         (zip_with Qmult
            (zip_with Qmult xs (map (fun x => x * keV_to_erg) ms)) ds))
      by apply scaled_weighted_products.
    rewrite <- Hb, foldl_Qplus in Hnz. rewrite <- Hb, foldl_Qplus.
    set (q := Qsum _) in *.
    assert (Hq : ~ q == 0) by (intros E; apply Hnz; rewrite E; ring).
    now field.
Qed.

(** X8.  No division by zero is reported: when the integral of the band is
    zero (a band without flux, a band that holds no midpoint),
    [rescale_flux] returns normally and leaves no finite flux value in the
    spectrum; a bin whose flux was zero holds NaN. *)
Theorem rescale_flux_zero_band w self s n emin emax lo hi f :
  heap w !! self = Some s ->
  well_formed s ->
  finite_array (flux s) ->
  band_limit emin (ebins s) 0 lo ->
  band_limit emax (ebins s) (-1) hi ->
  band_photon_rate lo hi s = Fin f ->
  f == 0 ->
  exists w' s',
    Spectrum.rescale_flux self (Fin n) emin emax "photons" w = (Ok tt, w')
    /\ heap w' !! self = Some s'
    /\ length (flux s') = length (flux s)
    /\ Forall (fun x => isfinite x = false) (flux s')
    /\ (forall i x, flux s !! i = Some (Fin x) -> x == 0 ->
          flux s' !! i = Some NaN).
Proof.
  intros Hs Ws Hf Hlo Hhi Hb Hz.
  eexists _, _. split.
  { apply (rescale_flux_run _ _ _ (Fin n) _ _ lo hi "photons" (Fin f)
             Hs Ws Hlo Hhi). left. now split. }
  split; [cbn [heap with_heap]; eapply heap_insert_lookup, Hs|].
  cbn [flux refreshed set_cumspec set_total_energy_flux set_total_flux
         set_flux].
  assert (Hq : forall x, isfinite (fmul (Fin x) (fdiv (Fin n) (Fin f))) = false).
  { intros x. unfold fdiv. rewrite (proj2 (Qeq_bool_iff f 0) Hz).
    destruct (Qeq_bool n 0); [reflexivity|].
    destruct (Qltb 0 n); cbn [fmul]; unfold inf_times;
      destruct (Qeq_bool x 0); try reflexivity;
      now destruct (Bool.eqb _ _). }
  split; [now rewrite length_map|]. split.
  - apply Forall_map. eapply Forall_impl; [exact Hf|].
    intros [x| | |] Hx; try discriminate Hx. apply Hq.
  - intros i x Hi Hx. rewrite list_lookup_fmap, Hi. cbn [fmap option_fmap option_map].
    f_equal. unfold fdiv. rewrite (proj2 (Qeq_bool_iff f 0) Hz).
    destruct (Qeq_bool n 0); [reflexivity|].
    destruct (Qltb 0 n); cbn [fmul]; unfold inf_times;
      now rewrite (proj2 (Qeq_bool_iff x 0) Hx).
Qed.

End Rescale.

(** ** Sums and differences of spectra *)

Section SumsAndDifferences.
Context `{ext : Externals}.

Lemma type_self_init cls edges fl :
  cls <> cConvolvedSpectrum ->
  Spectrum.type_self cls edges fl = Spectrum.__init__ cls edges fl.
Proof. intros Hc. destruct cls; [reflexivity | reflexivity | congruence]. Qed.

(** [a + b] and [a - b] on combinable spectra. *)
Lemma combine_run w a b sa sb :
  heap w !! a = Some sa ->
  heap w !! b = Some sb ->
  well_formed sa ->
  well_formed sb ->
  edges_differ sa sb = false ->
  units_differ sa sb = false ->
  returns_new (obj.__add__ a b) w
    (instance (class_ sa) (ebins sa) (zip_with fadd (flux sa) (flux sb))
       (arf sa))
  /\ returns_new (obj.__sub__ a b) w
       (instance (class_ sa) (ebins sa) (zip_with fsub (flux sa) (flux sb))
          (arf sa)).
Proof.
  intros Ha Hb Wa Wb Ed Ud.
  pose proof (check_binning_units_run _ _ _ _ _ Ha Hb Wa Wb) as Hck.
  rewrite Ed, Ud in Hck.
  destruct (combined_flux_length fadd _ _ Wa Wb Ed) as [Lf La].
  destruct (combined_flux_length fsub _ _ Wa Wb Ed) as [_ Ls].
  unfold returns_new, obj.__add__, obj.__sub__. msteps.
  destruct (wf_arf_cases _ Wa) as [[Hc [r Hr]] | [Hc Hr]].
  - rewrite Hc.
    unfold ConvolvedSpectrum.__add__, ConvolvedSpectrum.__sub__.
    rewrite !(bind_Ok _ _ _ _ _ Hck). msteps.
    unfold np.add, np.subtract.
    rewrite !broadcast2_same_length by exact Lf. msteps.
    unfold ConvolvedSpectrum.get_arf. msteps. rewrite Hr. msteps.
    rewrite Hc.
    split; apply convolved_init_ok; auto using as_quantity_own.
  - replace (match class_ sa with
             | cConvolvedSpectrum => ConvolvedSpectrum.__add__ a b
             | _ => Spectrum.__add__ a b
             end) with (Spectrum.__add__ a b)
      by (destruct (class_ sa); congruence).
    replace (match class_ sa with
             | cConvolvedSpectrum => ConvolvedSpectrum.__sub__ a b
             | _ => Spectrum.__sub__ a b
             end) with (Spectrum.__sub__ a b)
      by (destruct (class_ sa); congruence).
    unfold Spectrum.__add__, Spectrum.__sub__.
    rewrite !(bind_Ok _ _ _ _ _ Hck). msteps.
    unfold np.add, np.subtract.
    rewrite !broadcast2_same_length by exact Lf. msteps.
    rewrite Hr, !type_self_init by exact Hc.
    split; apply init_ok; auto using as_quantity_own.
Qed.

Lemma fadd_fsub_cancel x q : same (fsub (fadd x (Fin q)) (Fin q)) x.
Proof. destruct x as [a| | |]; cbn; try exact I. ring. Qed.

Lemma fadd_comm x y : same (fadd x y) (fadd y x).
Proof. destruct x, y; cbn; try exact I. ring. Qed.

Lemma edges_differ_same_edges a a' b :
  ebins a' = ebins a -> edges_differ a' b = edges_differ a b.
Proof. unfold edges_differ. now intros ->. Qed.

(** X9.  Adding a spectrum of finite flux and subtracting it again gives a
    spectrum of the class and on the edges of the first operand, with the
    flux of the first operand in every bin. *)
Theorem add_then_subtract w a b sa sb :
  heap w !! a = Some sa ->
  heap w !! b = Some sb ->
  well_formed sa ->
  well_formed sb ->
  edges_differ sa sb = false ->
  units_differ sa sb = false ->
  finite_array (flux sb) ->
  exists c w1 d w2 sd,
    obj.__add__ a b w = (Ok c, w1)
    /\ obj.__sub__ c b w1 = (Ok d, w2)
    /\ heap w2 !! d = Some sd
    /\ class_ sd = class_ sa
    /\ ebins sd = ebins sa
    /\ same_array (flux sd) (flux sa).
Proof.
  intros Ha Hb Wa Wb Ed Ud Hf.
  destruct (combine_run _ _ _ _ _ Ha Hb Wa Wb Ed Ud) as [Hadd _].
  destruct (combined_flux_length fadd _ _ Wa Wb Ed) as [Lf La].
  set (sc := instance (class_ sa) (ebins sa)
               (zip_with fadd (flux sa) (flux sb)) (arf sa)) in *.
  set (w1 := with_heap (heap w ++ [sc]) w).
  assert (Wc : well_formed sc).
  { apply instance_well_formed;
      [apply (wf_edges _ Wa) | exact La | apply (wf_arf _ Wa)]. }
  assert (Hc1 : heap w1 !! length (heap w) = Some sc)
    by apply heap_app_lookup.
  assert (Hb1 : heap w1 !! b = Some sb) by (now apply heap_app_old).
  destruct (combine_run w1 _ _ sc sb Hc1 Hb1 Wc Wb) as [_ Hsub];
    [exact Ed | exact Ud |].
  eexists _, _, _, _, _.
  split; [exact Hadd|]. split; [exact Hsub|].
  split; [apply heap_app_lookup|].
  split; [reflexivity|]. split; [reflexivity|].
  cbn [flux sc instance set_arf refreshed set_cumspec set_total_energy_flux
         set_total_flux].
  clear - Lf Hf. revert Lf Hf. generalize (flux sa), (flux sb).
  induction l as [|x l IH]; intros [|y l'] L Hf; try discriminate;
    [constructor|].
  inversion Hf as [|? ? Hy Hf']; subst.
  destruct y as [q| | |]; try discriminate Hy.
  cbn [zip_with]. constructor; [apply fadd_fsub_cancel|].
  apply IH; [now injection L | exact Hf'].
Qed.

(** X10.  Addition commutes in the flux: when [a + b] and [b + a] both pass
    the check of the binning, the two sums hold the same flux values, the
    first on the edges of [a], the second on the edges of [b]. *)
Theorem add_commutes_in_flux w a b sa sb :
  heap w !! a = Some sa ->
  heap w !! b = Some sb ->
  well_formed sa ->
  well_formed sb ->
  edges_differ sa sb = false ->
  edges_differ sb sa = false ->
  units_differ sa sb = false ->
  exists c w1 c' w2 s1 s2,
    obj.__add__ a b w = (Ok c, w1)
    /\ obj.__add__ b a w = (Ok c', w2)
    /\ heap w1 !! c = Some s1
    /\ heap w2 !! c' = Some s2
    /\ ebins s1 = ebins sa
    /\ ebins s2 = ebins sb
    /\ same_array (flux s1) (flux s2).
Proof.
  intros Ha Hb Wa Wb Ed Ed' Ud.
  assert (Ud' : units_differ sb sa = false).
  { unfold units_differ in *. apply negb_false_iff in Ud.
    apply negb_false_iff. apply bool_decide_eq_true in Ud.
    apply bool_decide_eq_true. congruence. }
  destruct (combine_run _ _ _ _ _ Ha Hb Wa Wb Ed Ud) as [H1 _].
  destruct (combine_run _ _ _ _ _ Hb Ha Wb Wa Ed' Ud') as [H2 _].
  eexists _, _, _, _, _, _.
  split; [exact H1|]. split; [exact H2|].
  split; [apply heap_app_lookup|]. split; [apply heap_app_lookup|].
  split; [reflexivity|]. split; [reflexivity|].
  cbn [flux instance set_arf refreshed set_cumspec set_total_energy_flux
         set_total_flux].
  generalize (flux sa), (flux sb). clear.
  induction l as [|x l IH]; intros [|y l']; try constructor.
  - apply fadd_comm.
  - apply IH.
Qed.

(** X11.  In-place addition agrees with addition: on combinable spectra [a
    += b] returns [a] itself, whose flux is then the flux that [a + b] gives
    to its new instance; the edges of [a] and every other instance are as
    before. When [a + b] raises, [a += b] raises the same error and nothing
    is changed. *)
Theorem iadd_agrees_with_add w a b sa sb :
  heap w !! a = Some sa ->
  heap w !! b = Some sb ->
  well_formed sa ->
  well_formed sb ->
  if edges_differ sa sb || units_differ sa sb then
    exists msg,
      obj.__iadd__ a b w = (Raise (RuntimeError msg), w)
      /\ obj.__add__ a b w = (Raise (RuntimeError msg), w)
  else
    exists w1 sa' c w2 sc,
      obj.__iadd__ a b w = (Ok a, w1)
      /\ heap w1 !! a = Some sa'
      /\ obj.__add__ a b w = (Ok c, w2)
      /\ heap w2 !! c = Some sc
      /\ flux sa' = flux sc
      /\ ebins sa' = ebins sa
      /\ (forall other, other <> a -> heap w1 !! other = heap w !! other).
Proof.
  intros Ha Hb Wa Wb.
  pose proof (check_binning_units_run _ _ _ _ _ Ha Hb Wa Wb) as Hck.
  destruct (edges_differ sa sb) eqn:Ed; cbn [orb].
  { exists binning_message. split.
    - unfold obj.__iadd__, Spectrum.__iadd__.
      now rewrite (bind_Raise _ _ _ _ _ Hck).
    - unfold obj.__add__. msteps.
      unfold ConvolvedSpectrum.__add__, Spectrum.__add__.
      destruct (class_ sa); now rewrite (bind_Raise _ _ _ _ _ Hck). }
  destruct (units_differ sa sb) eqn:Ud.
  { exists units_message. split.
    - unfold obj.__iadd__, Spectrum.__iadd__.
      now rewrite (bind_Raise _ _ _ _ _ Hck).
    - unfold obj.__add__. msteps.
      unfold ConvolvedSpectrum.__add__, Spectrum.__add__.
      destruct (class_ sa); now rewrite (bind_Raise _ _ _ _ _ Hck). }
  destruct (combine_run _ _ _ _ _ Ha Hb Wa Wb Ed Ud) as [Hadd _].
  eexists _, _, _, _, _.
  split; [apply (iadd_run _ _ _ _ _ Ha Hb Wa Wb Ed Ud)|].
  split; [cbn [heap with_heap]; eapply heap_insert_lookup, Ha|].
  split; [exact Hadd|].
  split; [apply heap_app_lookup|].
  split; [reflexivity|]. split; [reflexivity|].
  intros other Ho. cbn [heap with_heap]. now apply heap_insert_other.
Qed.

End SumsAndDifferences.

(** ** Band extraction *)

Section Extraction.
Context `{ext : Externals}.

(** Indexing with the positions of a mask is selecting with the mask. *)
Lemma take_idxs_where_from {A} (pre xs : list A) mask :
  (length mask <= length xs)%nat ->
  np.take_idxs (pre ++ xs) (np.where_from (length pre) mask)
  = Ok (masked xs mask).
Proof.
  revert pre xs. induction mask as [|m mask IH]; intros pre xs L.
  - destruct xs; reflexivity.
  - destruct xs as [|x xs]; [cbn in L; lia|].
    cbn [length] in L.
    assert (IH' : np.take_idxs (pre ++ x :: xs)
                    (np.where_from (S (length pre)) mask)
                  = Ok (masked xs mask)).
    { specialize (IH (pre ++ [x]) xs).
      rewrite length_app, Nat.add_1_r, <- app_assoc in IH.
      apply IH. lia. }
    cbn [np.where_from]. rewrite masked_cons. destruct m; [|exact IH'].
    cbn [np.take_idxs].
    rewrite (getitem_nat _ _ x), IH'; [reflexivity|].
    rewrite lookup_app_r by lia. now rewrite Nat.sub_diag.
Qed.

Lemma take_idxs_where {A} (xs : list A) mask :
  (length mask <= length xs)%nat ->
  np.take_idxs xs (np.where_ mask) = Ok (masked xs mask).
Proof. apply (take_idxs_where_from []). Qed.

Lemma masked_filter {A} (p : A -> bool) xs :
  masked xs (map p xs) = List.filter p xs.
Proof.
  induction xs as [|x xs IH]; [reflexivity|].
  cbn [map List.filter]. rewrite masked_cons, IH. reflexivity.
Qed.

Lemma where_from_all i mask :
  Forall (fun m => m = true) mask ->
  np.where_from i mask = seq i (length mask).
Proof.
  intros H. revert i. induction H as [|m mask -> _ IH]; intros i;
    [reflexivity|].
  cbn [np.where_from length seq]. now rewrite IH.
Qed.

Lemma where_from_replicate i n :
  np.where_from i (replicate n true) = seq i n.
Proof.
  rewrite where_from_all, length_replicate; [reflexivity|].
  apply Forall_replicate. reflexivity.
Qed.

(** X12.  [_new_spec_from_band] keeps the edges that lie within the band, in
    their order, and one flux value per pair of neighbouring kept edges;
    when every edge lies within the band the flux is that of the spectrum.
    Nothing is changed. *)
Theorem new_spec_from_band_edges w self s emin emax :
  heap w !! self = Some s ->
  well_formed s ->
  exists flux',
    Spectrum._new_spec_from_band self emin emax w
    = (Ok (List.filter (in_band emin emax) (ebins s), flux'), w)
    /\ length flux'
       = (length (List.filter (in_band emin emax) (ebins s)) - 1)%nat
    /\ returns_new (Spectrum.new_spec_from_band self emin emax) w
         (instance cSpectrum (List.filter (in_band emin emax) (ebins s))
            flux' None)
    /\ (Forall (fun e => in_band emin emax e = true) (ebins s) ->
        List.filter (in_band emin emax) (ebins s) = ebins s
        /\ flux' = flux s).
Proof.
  intros Hs Ws. destruct (wf_lengths _ Ws) as (L1 & L2 & L3 & L4).
  pose proof (wf_edges _ Ws) as L0.
  set (band := map (in_band emin emax) (ebins s)).
  assert (Lb : length band = length (ebins s))
    by (unfold band; now rewrite length_map).
  destruct (take_idxs_in_range (flux s) (np.init1 (np.where_ band)))
    as (fl & Efl & Lfl).
  { eapply Forall_impl; [apply (where_from_init1_bound 0)|].
    cbn. intros j Hj. lia. }
  assert (Run : Spectrum._new_spec_from_band self emin emax w
                = (Ok (List.filter (in_band emin emax) (ebins s), fl), w)).
  { unfold Spectrum._new_spec_from_band. msteps.
    rewrite logical_and_same_length by (now rewrite !length_map).
    msteps. rewrite zip_with_andb_bands. fold band.
    rewrite take_idxs_where by lia. msteps. rewrite Efl. msteps.
    unfold band. now rewrite masked_filter. }
  assert (Lfl' : length fl
                 = (length (List.filter (in_band emin emax) (ebins s)) - 1)%nat).
  { rewrite Lfl. unfold np.init1. rewrite length_take.
    assert (E : np.take_idxs (ebins s) (np.where_ band)
                = Ok (masked (ebins s) band)) by (apply take_idxs_where; lia).
    destruct (take_idxs_in_range (ebins s) (np.where_ band)) as (eb & Eeb & Leb).
    { eapply Forall_impl; [apply (where_from_bound 0)|].
      cbn. intros j Hj. lia. }
    rewrite E in Eeb. injection Eeb as <-.
    unfold band in Leb |- *. rewrite masked_filter in Leb. lia. }
  exists fl. split; [exact Run|]. split; [exact Lfl'|]. split.
  - unfold returns_new, Spectrum.new_spec_from_band.
    rewrite (bind_Ok _ _ _ _ _ Run). now apply init_ok.
  - intros Hall.
    assert (Hb : Forall (fun m => m = true) band)
      by (unfold band; now apply Forall_map).
    split.
    + rewrite <- masked_filter. fold band. apply masked_all; [lia | exact Hb].
    + unfold np.where_ in Efl. rewrite (where_from_all 0 band Hb) in Efl.
      unfold np.init1 in Efl. rewrite length_seq, take_seq, Lb in Efl.
      replace ((length (ebins s) - 1) `min` length (ebins s))%nat
        with (length (flux s)) in Efl by lia.
      rewrite <- (where_from_replicate 0 (length (flux s))) in Efl.
      change (np.where_from 0 ?m) with (np.where_ m) in Efl.
      rewrite take_idxs_where in Efl by (now rewrite length_replicate).
      injection Efl as <-. apply masked_all.
      * now rewrite length_replicate.
      * apply Forall_replicate. reflexivity.
Qed.

End Extraction.

(** ** The absorption models *)

Section CrossSections.
Context `{ext : Externals}.

(** X13.  [wabs_cross_section] never raises, whatever the energies: the
    segment index always lies in -1..13. An energy that is not positive gets
    the index -1, which Python reads from the end of the tables: the
    coefficients of the topmost segment are used, and the cross section is
    (701.2 + 25.2*E) * 1e-24 / E^3 (infinite at E = 0, negative just below).
    A NaN energy gives NaN. *)
Theorem wabs_cross_section_nonpositive_energy :
  (forall E, exists sigma,
      wabs_cross_section E = Ok sigma /\ length sigma = length E)
  /\ (forall q, q <= 0 ->
        wabs_idxs (Fin q) = (-1)%Z
        /\ wabs_cross_section1 (Fin q)
           = Ok (fdiv (Fin ((701.2 + 25.2 * q + 0.0 * q * q) * 1.0e-24))
                      (Fin (q * q * q))))
  /\ wabs_cross_section1 NaN = Ok NaN.
Proof.
  split; [apply wabs_cross_section_total|]. split; [|reflexivity].
  intros q Hq.
  assert (Hi : wabs_idxs (Fin q) = (-1)%Z).
  { unfold wabs_idxs, np.searchsorted, wabs_emax.
    cbn -[np.less Z.min Z.sub Z.of_nat].
    rewrite !less_Fin.
    repeat match goal with
           | |- context [Qltb ?a q] =>
               let E := fresh "E" in
               destruct (Qltb a q) eqn:E;
               [apply Qltb_true in E; exfalso; lra | clear E]
           end.
    reflexivity. }
  split; [exact Hi|].
  unfold wabs_cross_section1. rewrite Hi. reflexivity.
Qed.

(** X14.  The table of the Tuebingen-Boulder model is read at most once:
    once a call of [tbabs_cross_section] has returned, the spline is cached,
    and every later call evaluates that spline and leaves the module state
    as it is. The spectra are never touched. *)
Theorem tbabs_table_read_once w E E' :
  is_Some (_tbabs_spline w)
  \/ (5 < length tbabs_file_cross_section)%nat ->
  exists w1,
    tbabs_cross_section E w
    = (Ok (map (spline_call (tbabs_spline_in_use w)) E), w1)
    /\ heap w1 = heap w
    /\ _tbabs_spline w1 = Some (tbabs_spline_in_use w)
    /\ tbabs_cross_section E' w1
       = (Ok (map (spline_call (tbabs_spline_in_use w)) E'), w1).
Proof.
  intros Hc. destruct (tbabs_cross_section_run w E Hc) as (w1 & R & Hh & Hs).
  exists w1. split; [exact R|]. split; [exact Hh|]. split; [exact Hs|].
  unfold tbabs_cross_section.
  unfold mbind at 1, M_bind at 1, bind at 1, get_world.
  rewrite Hs. msteps. reflexivity.
Qed.

(** X15.  A line profile other than "gaussian" is refused before anything is
    read or changed, by both line operations. *)
Theorem line_profile_not_implemented w self center width strength line_type :
  line_type <> "gaussian"%string ->
  let msg := ("Line profile type '" ++ line_type ++ "' not implemented!")%string in
  Spectrum.add_emission_line self center width strength line_type w
  = (Raise (NotImplementedError msg), w)
  /\ Spectrum.add_absorption_line self center width strength line_type w
     = (Raise (NotImplementedError msg), w).
Proof.
  intros Hl. apply String.eqb_neq in Hl. cbv zeta.
  unfold Spectrum.add_emission_line, Spectrum.add_absorption_line.
  rewrite Hl. msteps. split; reflexivity.
Qed.

(** X16.  An absorption model that is neither "wabs" nor "tbabs" leaves the
    local [sigma] unbound: the call raises UnboundLocalError and changes
    nothing, neither the spectrum nor the cache of the table. *)
Theorem absorption_model_unknown w self s nH model redshift :
  heap w !! self = Some s ->
  model <> "wabs"%string ->
  model <> "tbabs"%string ->
  Spectrum.apply_foreground_absorption self nH model redshift w
  = (Raise (UnboundLocalError "sigma"), w).
Proof.
  intros Hs H1 H2. apply String.eqb_neq in H1, H2.
  unfold Spectrum.apply_foreground_absorption. msteps.
  rewrite H1, H2. msteps. reflexivity.
Qed.

End CrossSections.

(** ** Bins without effective area *)

Section ZeroArea.
Context `{ext : Externals}.

(** X17.  The round trip loses the flux of a bin without area: where the
    interpolated area is zero, [convolve] gives a zero count rate and
    [deconvolve] divides zero by zero, which [np.nan_to_num] turns into the
    flux 0, whatever finite flux the bin held. *)
Theorem convolve_deconvolve_zero_area w sp s r :
  heap w !! sp = Some s ->
  class_ s = cSpectrum ->
  well_formed s ->
  exists c w1 d w2 s',
    ConvolvedSpectrum.convolve sp (ArfObject r) w = (Ok c, w1)
    /\ obj.deconvolve c w1 = (Ok d, w2)
    /\ heap w2 !! d = Some s'
    /\ ebins s' = ebins s
    /\ forall i f e a,
         flux s !! i = Some (Fin f) ->
         emid s !! i = Some e ->
         interpolate_area r e = Fin a ->
         a == 0 ->
         flux s' !! i = Some (Fin 0).
Proof.
  intros Hs Hc Ws. destruct (wf_lengths _ Ws) as (L1 & L2 & L3 & L4).
  pose proof (convolve_run _ _ _ r Hs Hc Ws) as Hcv.
  set (conv := instance cConvolvedSpectrum (ebins s)
                 (zip_with fmul (flux s) (map (interpolate_area r) (emid s)))
                 (Some r)) in *.
  assert (Wc : well_formed conv).
  { apply instance_well_formed; [apply (wf_edges _ Ws) | |].
    - rewrite length_zip_with, length_map. lia.
    - split; [reflexivity | intros _; eexists; reflexivity]. }
  set (w1 := with_heap (heap w ++ [conv]) w).
  assert (Hl : heap w1 !! length (heap w) = Some conv)
    by apply heap_app_lookup.
  pose proof (deconvolve_run w1 _ conv r Hl eq_refl eq_refl Wc) as Hdc.
  eexists _, _, _, _, _.
  split; [exact Hcv|]. split; [exact Hdc|].
  split; [apply heap_app_lookup|]. split; [reflexivity|].
  intros i f e a Hf He Ha Hz.
  cbn [flux emid conv instance set_arf refreshed set_cumspec
         set_total_energy_flux set_total_flux].
  unfold np.nan_to_num.
  rewrite list_lookup_fmap, lookup_zip_with, lookup_zip_with, Hf.
  rewrite <- (wf_emid _ Ws), list_lookup_fmap, He.
  cbn [fmap option_fmap option_map mbind option_bind]. rewrite Ha.
  cbn [fmul]. unfold fdiv.
  rewrite (proj2 (Qeq_bool_iff a 0) Hz).
  assert (E : Qeq_bool (f * a) 0 = true)
    by (apply Qeq_bool_iff; rewrite Hz; ring).
  now rewrite E.
Qed.

End ZeroArea.

(** ** The range of the sampled energies *)

Section SampledRange.
Context `{ext : Externals}.

Lemma nondecreasing_tail x l : nondecreasing (x :: l) -> nondecreasing l.
Proof. intros H i a b Ha Hb. apply (H (S i) a b); assumption. Qed.

Lemma Forall_insert_sorted (P : float -> Prop) x l :
  P x -> Forall P l -> Forall P (np.insert_sorted x l).
Proof.
  intros Hx. induction 1 as [|y l Hy Hl IH]; cbn [np.insert_sorted].
  - now constructor.
  - destruct (np.less y x); repeat constructor; assumption.
Qed.

Lemma Forall_sort (P : float -> Prop) l : Forall P l -> Forall P (np.sort l).
Proof.
  unfold np.sort. induction 1 as [|x l Hx Hl IH]; [constructor|].
  cbn [foldr]. now apply Forall_insert_sorted.
Qed.

Lemma length_insert_sorted x l :
  length (np.insert_sorted x l) = S (length l).
Proof.
  induction l as [|y l IH]; [reflexivity|]. cbn [np.insert_sorted].
  destruct (np.less y x); cbn [length]; now rewrite ?IH.
Qed.

Lemma length_sort l : length (np.sort l) = length l.
Proof.
  unfold np.sort. induction l as [|x l IH]; [reflexivity|].
  cbn [foldr length]. now rewrite length_insert_sorted, IH.
Qed.

(** Linear interpolation between two values stays between them. *)
Lemma between_values x0 x1 f0 f1 q :
  x0 < q -> q < x1 -> f0 <= f1 ->
  let v := (f1 + - f0) / (x1 + - x0) * (q + - x0) + f0 in
  f0 <= v /\ v <= f1.
Proof.
  intros H0 H1 Hf v.
  set (t := (q - x0) / (x1 - x0)).
  assert (Hd : 0 < x1 - x0) by lra.
  assert (Ht0 : 0 <= t).
  { unfold t. apply Qle_shift_div_l; [exact Hd | lra]. }
  assert (Ht1 : t <= 1).
  { unfold t. apply Qle_shift_div_r; [exact Hd | lra]. }
  assert (Ev : v == f0 + (f1 - f0) * t).
  { unfold v, t. field. lra. }
  rewrite Ev. split; nra.
Qed.

Lemma interp_seg_bounds q xq : forall fq x0 f0,
  x0 <= q ->
  nondecreasing (map Fin (f0 :: fq)) ->
  exists v,
    np.interp_seg (Fin q) (map Fin (x0 :: xq)) (map Fin (f0 :: fq)) = Fin v
    /\ f0 <= v /\ v <= List.last (f0 :: fq) 0.
Proof.
  induction xq as [|x1 xq IH]; intros fq x0 f0 Hx Hn.
  - exists f0. split; [reflexivity|]. split; [apply Qle_refl|].
    apply (nondecreasing_le (f0 :: fq) 0 (length fq)); auto; [lia|].
    apply lookup_last.
  - destruct fq as [|f1 fq].
    + exists f0. split; [reflexivity|]. split; apply Qle_refl.
    + assert (H01 : f0 <= f1)
        by (apply (nondecreasing_le (f0 :: f1 :: fq) 0 1); auto).
      change (List.last (f0 :: f1 :: fq) 0) with (List.last (f1 :: fq) 0).
      assert (Hl : f1 <= List.last (f1 :: fq) 0).
      { apply (nondecreasing_le (f1 :: fq) 0 (length fq)); auto; [|lia|].
        - apply (nondecreasing_tail (Fin f0)), Hn.
        - apply lookup_last. }
      cbn [map np.interp_seg flt feqb].
      destruct (Qltb q x1) eqn:E1.
      * apply Qltb_true in E1.
        destruct (Qeq_bool x0 q) eqn:E0.
        -- exists f0. split; [reflexivity|]. split; [apply Qle_refl | lra].
        -- assert (Hne : ~ x0 == q)
             by (intros E; apply Qeq_bool_iff in E; congruence).
           assert (H0 : x0 < q).
           { apply Qle_lt_or_eq in Hx. destruct Hx; [assumption | contradiction]. }
           cbn [fsub fopp fadd].
           rewrite fdiv_Fin by lra. cbn [fmul fadd].
           eexists. split; [reflexivity|].
           destruct (between_values x0 x1 f0 f1 q H0 E1 H01) as [B1 B2].
           cbv zeta in B1, B2. split; [exact B1 | lra].
      * apply Qltb_false in E1.
        destruct (IH fq x1 f1 E1) as (v & Ev & B1 & B2).
        { apply (nondecreasing_tail (Fin f0)), Hn. }
        exists v. split; [exact Ev|]. split; lra.
Qed.

(** [np.interp] of a finite point into nondecreasing finite values lies
    between the first and the last of them. *)
Lemma interp1_bounds xp fp q lo hi :
  finite_array xp ->
  finite_array fp ->
  nondecreasing fp ->
  length xp = length fp ->
  np.getitem fp 0 = Ok (Fin lo) ->
  np.getitem fp (-1) = Ok (Fin hi) ->
  exists v, np.interp1 xp fp (Fin q) = Fin v /\ lo <= v <= hi.
Proof.
  intros [xq ->]%finite_array_Fin [fq ->]%finite_array_Fin Hn L Hlo Hhi.
  rewrite !length_map in L.
  destruct fq as [|f0 fq]; [discriminate Hlo|].
  destruct xq as [|x0 xq]; [discriminate L|].
  apply getitem_0_lookup in Hlo. injection Hlo as <-.
  cbn [map] in Hhi. rewrite (getitem_last _ _ (Fin 0)) in Hhi.
  change (Fin f0 :: map Fin fq) with (map Fin (f0 :: fq)) in Hhi.
  rewrite (last_map Fin (f0 :: fq) 0) in Hhi. injection Hhi as <-.
  unfold np.interp1. cbn [isnan map fle].
  destruct (Qle_bool q x0) eqn:E.
  - exists f0. split; [reflexivity|]. split; [apply Qle_refl|].
    apply (nondecreasing_le (f0 :: fq) 0 (length fq)); auto; [lia|].
    apply lookup_last.
  - assert (Hx : x0 <= q).
    { apply Qlt_le_weak, Qnot_le_lt. intros H.
      apply Qle_bool_iff in H. congruence. }
    destruct (interp_seg_bounds q xq fq x0 f0 Hx Hn) as (v & Ev & B).
    exists v. split; [exact Ev | exact B].
Qed.

(** X18.  Every sampled energy lies between the first and the last edge: on
    a spectrum with finite nondecreasing edges and a finite nondecreasing
    cumulative distribution, whenever the generator returns a photon count,
    [_generate_energies] returns one energy per uniform variate drawn, each
    of them finite and within the range of the edges; the spectra are not
    touched. *)
Theorem generated_energies_within_edges
    w spec o g st t_exp rate quiet n st1 lo hi :
  heap w !! spec = Some o ->
  generators w !! g = Some st ->
  RandomState_poisson st (fmul t_exp rate) = (Ok n, st1) ->
  finite_array (cumspec o) ->
  nondecreasing (cumspec o) ->
  finite_array (ebins o) ->
  nondecreasing (ebins o) ->
  length (cumspec o) = length (ebins o) ->
  np.getitem (ebins o) 0 = Ok (Fin lo) ->
  np.getitem (ebins o) (-1) = Ok (Fin hi) ->
  exists e,
    (_generate_energies spec t_exp rate g quiet w).1 = Ok e
    /\ heap (_generate_energies spec t_exp rate g quiet w).2 = heap w
    /\ length e = length (RandomState_uniform st1 n).1
    /\ Forall (fun x => exists q, x = Fin q /\ lo <= q <= hi) e.
Proof.
  intros Hs Hg Hp Fc Nc Fe Ne L Hlo Hhi.
  destruct (_generate_energies_result w spec o g st t_exp rate quiet Hs Hg)
    as [R Hh].
  rewrite R. unfold drawn. rewrite Hp.
  cbn [mbind result_bind rbind].
  destruct (RandomState_uniform st1 n) as [v st2]. cbn [fst].
  unfold np.interp.
  destruct (cumspec o) as [|c0 cs] eqn:Ec.
  { destruct (ebins o); [discriminate Hlo | discriminate L]. }
  rewrite L, Nat.eqb_refl. rewrite <- Ec in *.
  eexists. split; [reflexivity|]. split; [exact Hh|].
  split; [now rewrite length_map, length_sort, length_map|].
  apply Forall_map.
  apply Forall_sort, Forall_map, Forall_forall. intros q _. cbn.
  destruct (interp1_bounds (cumspec o) (ebins o) q lo hi) as (x & Ex & B);
    auto.
  exists x. split; [exact Ex | exact B].
Qed.

End SampledRange.

(** ** Spectral lines *)

Section Lines.
Context `{ext : Externals}.

Lemma Gaussian1D_Fin a c sg m :
  0 < sg ->
  Gaussian1D (Fin a) (Fin c) (Fin sg) (Fin m)
  = Fin (a * exp (-0.5 * ((m + - c) * (m + - c)) / (sg * sg))).
Proof.
  intros Hs. unfold Gaussian1D. cbn [fsub fopp fadd fmul].
  rewrite fdiv_Fin; [reflexivity|].
  intros E. assert (0 < sg * sg) by (now apply Qmult_lt_0_compat).
  lra.
Qed.

(** [add_emission_line] with the Gaussian profile. *)
Lemma add_emission_line_run w self s line_center line_width line_amp :
  heap w !! self = Some s ->
  well_formed s ->
  let sigma := fdiv line_width (Fin sigma_to_fwhm) in
  let amp := fdiv line_amp (fmul (Fin sqrt2pi) sigma) in
  Spectrum.add_emission_line self line_center line_width line_amp "gaussian" w
  = (Ok tt,
     with_heap
       (<[self := refreshed
                    (set_flux (zip_with fadd (flux s)
                                 (map (Gaussian1D amp line_center sigma)
                                      (emid s))) s)]> (heap w)) w).
Proof.
  intros Hs Hwf. destruct (wf_lengths _ Hwf) as (L1 & L2 & L3 & L4).
  cbv zeta. unfold Spectrum.add_emission_line.
  replace (String.eqb "gaussian" "gaussian") with true by reflexivity.
  cbv iota zeta. msteps.
  rewrite inplace2_same_length by (now rewrite length_map).
  msteps. mrefresh; [reflexivity | |];
    rewrite ?length_zip_with, ?length_map; lia.
Qed.

(** [add_absorption_line] with the Gaussian profile. *)
Lemma add_absorption_line_run w self s line_center line_width equiv_width :
  heap w !! self = Some s ->
  well_formed s ->
  let sigma := fdiv line_width (Fin sigma_to_fwhm) in
  let B := fdiv (fmul (fmul (fmul equiv_width (Fin 1.0e-3)) line_center)
                      line_center)
                (fmul (fmul (Fin hc) (Fin sqrt2pi)) sigma) in
  Spectrum.add_absorption_line self line_center line_width equiv_width
    "gaussian" w
  = (Ok tt,
     with_heap
       (<[self := refreshed
                    (set_flux
                       (zip_with fmul (flux s)
                          (map (fun e => fexp (fopp (Gaussian1D B line_center
                                                       sigma e)))
                               (emid s))) s)]> (heap w)) w).
Proof.
  intros Hs Hwf. destruct (wf_lengths _ Hwf) as (L1 & L2 & L3 & L4).
  cbv zeta. unfold Spectrum.add_absorption_line.
  replace (String.eqb "gaussian" "gaussian") with true by reflexivity.
  cbv iota zeta. msteps.
  rewrite inplace2_same_length by (now rewrite length_map).
  msteps. mrefresh; [reflexivity | |];
    rewrite ?length_zip_with, ?length_map; lia.
Qed.

Context (laws : exponential_laws).
Context (fwhm_positive : 0 < sigma_to_fwhm).
Context (sqrt2pi_positive : 0 < sqrt2pi).
Context (hc_positive : 0 < hc).

(** X19.  An emission line of positive amplitude and width raises the flux
    of every bin: on finite edges and flux, the new flux is the old flux
    plus a positive value of the Gaussian profile, and the aggregates are
    re-derived. *)
Theorem emission_line_raises_flux w self s c lw amp :
  heap w !! self = Some s ->
  well_formed s ->
  finite_array (ebins s) ->
  finite_array (flux s) ->
  0 < lw ->
  0 < amp ->
  exists w' s',
    Spectrum.add_emission_line self (Fin c) (Fin lw) (Fin amp) "gaussian" w
    = (Ok tt, w')
    /\ heap w' !! self = Some s'
    /\ aggregates_consistent s'
    /\ Forall2 (fun new old => flt old new = true) (flux s') (flux s).
Proof.
  intros Hs Ws He Hf Hlw Ha. destruct (wf_lengths _ Ws) as (L1 & L2 & L3 & L4).
  eexists _, _. split; [apply (add_emission_line_run _ _ _ _ _ _ Hs Ws)|].
  split; [cbn [heap with_heap]; eapply heap_insert_lookup, Hs|].
  split; [apply refreshed_consistent|].
  cbn [flux refreshed set_cumspec set_total_energy_flux set_total_flux
         set_flux].
  assert (Hsg : 0 < lw / sigma_to_fwhm) by (now apply Qlt_shift_div_l; lra).
  rewrite fdiv_Fin by lra.
  assert (Hden : 0 < sqrt2pi * (lw / sigma_to_fwhm))
    by (now apply Qmult_lt_0_compat).
  change (fmul (Fin sqrt2pi) (Fin (lw / sigma_to_fwhm)))
    with (Fin (sqrt2pi * (lw / sigma_to_fwhm))).
  rewrite fdiv_Fin by lra.
  assert (Hamp : 0 < amp / (sqrt2pi * (lw / sigma_to_fwhm)))
    by (apply Qlt_shift_div_l; lra).
  assert (Hm : finite_array (emid s))
    by (rewrite (wf_emid _ Ws); now apply finite_array_midpoints).
  apply Forall2_same_length_lookup_2.
  { rewrite length_zip_with, length_map. lia. }
  intros i new old Hnew Hold.
  apply lookup_zip_with_Some in Hnew as (x' & g' & -> & Hx' & Hg').
  apply list_lookup_fmap_Some in Hg' as (e & -> & Hei).
  assert (x' = old) by congruence. subst x'.
  pose proof (proj1 (Forall_lookup _ _) Hm i e Hei) as Fe.
  pose proof (proj1 (Forall_lookup _ _) Hf i old Hold) as Fo.
  destruct e as [m| | |]; try discriminate Fe.
  destruct old as [x| | |]; try discriminate Fo.
  rewrite Gaussian1D_Fin by exact Hsg. cbn [fadd flt].
  apply Qltb_true.
  set (g := exp _). pose proof (exp_positive laws) as Hp.
  assert (0 < g) by apply Hp.
  assert (0 < amp / (sqrt2pi * (lw / sigma_to_fwhm)) * g)
    by (now apply Qmult_lt_0_compat).
  lra.
Qed.

(** X20.  An absorption line of positive equivalent width and width, centred
    at an energy that is not zero, lowers the flux of every bin that holds a
    positive flux, and keeps it positive. *)
Theorem absorption_line_lowers_flux w self s c lw ew :
  heap w !! self = Some s ->
  well_formed s ->
  finite_array (ebins s) ->
  Forall positive (flux s) ->
  ~ c == 0 ->
  0 < lw ->
  0 < ew ->
  exists w' s',
    Spectrum.add_absorption_line self (Fin c) (Fin lw) (Fin ew) "gaussian" w
    = (Ok tt, w')
    /\ heap w' !! self = Some s'
    /\ aggregates_consistent s'
    /\ Forall2 (fun new old => flt new old = true /\ positive new)
               (flux s') (flux s).
Proof.
  intros Hs Ws He Hf Hc Hlw Hew.
  destruct (wf_lengths _ Ws) as (L1 & L2 & L3 & L4).
  eexists _, _. split; [apply (add_absorption_line_run _ _ _ _ _ _ Hs Ws)|].
  split; [cbn [heap with_heap]; eapply heap_insert_lookup, Hs|].
  split; [apply refreshed_consistent|].
  cbn [flux refreshed set_cumspec set_total_energy_flux set_total_flux
         set_flux].
  assert (Hsg : 0 < lw / sigma_to_fwhm) by (now apply Qlt_shift_div_l; lra).
  rewrite fdiv_Fin by lra.
  assert (Hden : 0 < hc * sqrt2pi * (lw / sigma_to_fwhm))
    by (apply Qmult_lt_0_compat; [apply Qmult_lt_0_compat|]; assumption).
  change (fmul (fmul (Fin hc) (Fin sqrt2pi)) (Fin (lw / sigma_to_fwhm)))
    with (Fin (hc * sqrt2pi * (lw / sigma_to_fwhm))).
  change (fmul (fmul (fmul (Fin ew) (Fin 1.0e-3)) (Fin c)) (Fin c))
    with (Fin (ew * 1.0e-3 * c * c)).
  rewrite fdiv_Fin by lra.
  assert (Hcc : 0 < c * c) by nra.
  assert (Hnum : 0 < ew * 1.0e-3 * c * c).
  { assert (0 < ew * 1.0e-3) by (apply Qmult_lt_0_compat; [assumption | reflexivity]).
    assert (E : ew * 1.0e-3 * c * c == ew * 1.0e-3 * (c * c)) by ring.
    rewrite E. now apply Qmult_lt_0_compat. }
  set (B := ew * 1.0e-3 * c * c / (hc * sqrt2pi * (lw / sigma_to_fwhm))).
  assert (HB : 0 < B) by (apply Qlt_shift_div_l; lra).
  assert (Hm : finite_array (emid s))
    by (rewrite (wf_emid _ Ws); now apply finite_array_midpoints).
  apply Forall2_same_length_lookup_2.
  { rewrite length_zip_with, length_map. lia. }
  intros i new old Hnew Hold.
  apply lookup_zip_with_Some in Hnew as (x' & g' & -> & Hx' & Hg').
  apply list_lookup_fmap_Some in Hg' as (e & -> & Hei).
  assert (x' = old) by congruence. subst x'.
  pose proof (proj1 (Forall_lookup _ _) Hm i e Hei) as Fe.
  pose proof (proj1 (Forall_lookup _ _) Hf i old Hold) as (x & -> & Px).
  destruct e as [m| | |]; try discriminate Fe.
  rewrite Gaussian1D_Fin by exact Hsg. cbn [fopp fexp fmul flt].
  set (g := exp (-0.5 * _ / _)).
  assert (Hg : 0 < g) by apply (exp_positive laws).
  assert (Hneg : - (B * g) < 0).
  { assert (0 < B * g) by (now apply Qmult_lt_0_compat). lra. }
  pose proof (exp_positive laws (- (B * g))) as T0.
  pose proof (exp_below_1 laws _ Hneg) as T1.
  split.
  - apply Qltb_true. nra.
  - eexists. split; [reflexivity|]. now apply Qmult_lt_0_compat.
Qed.

End Lines.

(** ** The constructor *)

Section Constructor.
Context `{ext : Externals}.

Lemma broadcast2_one {A B C} (f : A -> B -> C) x ys :
  np.broadcast2 f [x] ys = Ok (map (f x) ys).
Proof.
  unfold np.broadcast2. destruct ys as [|y [|y' ys]]; reflexivity.
Qed.

Lemma broadcast2_mismatch {A B C} (f : A -> B -> C) xs ys :
  length xs <> length ys ->
  length xs <> 1%nat ->
  length ys <> 1%nat ->
  np.broadcast2 f xs ys = Raise ValueError.
Proof.
  intros H H1 H2. unfold np.broadcast2.
  rewrite (proj2 (Nat.eqb_neq _ _) H).
  destruct xs as [|x [|x' xs]]; [| now cbn in H1 |];
    destruct ys as [|y [|y' ys]]; try reflexivity; now cbn in *.
Qed.

Lemma multiply_one x ys : np.multiply [x] ys = Ok (map (fmul x) ys).
Proof. apply broadcast2_one. Qed.

Lemma multiply_mismatch xs ys :
  length xs <> length ys ->
  length xs <> 1%nat ->
  length ys <> 1%nat ->
  np.multiply xs ys = Raise ValueError.
Proof. apply broadcast2_mismatch. Qed.

Lemma broadcast2_one_right {A B C} (f : A -> B -> C) xs y :
  length xs <> 1%nat ->
  np.broadcast2 f xs [y] = Ok (map (fun x => f x y) xs).
Proof.
  intros H. unfold np.broadcast2.
  destruct xs as [|x [|x' xs]]; [reflexivity | now cbn in H | reflexivity].
Qed.

Lemma multiply_one_right xs y :
  length xs <> 1%nat ->
  np.multiply xs [y] = Ok (map (fun x => fmul x y) xs).
Proof. apply broadcast2_one_right. Qed.

(** X21.  The shapes that the constructor accepts, for a flux given as bare
    numbers or as a Quantity in the unit of the class. Let n be the number
    of edges less one. With n flux values it returns a new instance on the
    given edges whose aggregates agree with its flux, and which is well
    formed when there is at least one edge. NumPy broadcasts in the products
    of [_compute_total_flux], so two more shapes are accepted: a single flux
    value when n is not 1, and a flux of any length when n is 1. The new
    instance then keeps the flux as given, its total is the sum of the
    broadcast products, and it is not well formed, the flux not having one
    value per bin. Every other shape (a length that is neither n nor 1, with
    n not 1) raises ValueError. *)
Theorem constructor_shapes cls edges fl v w :
  cls <> cConvolvedSpectrum ->
  Spectrum.as_quantity cls fl = Ok v ->
  let n := (length edges - 1)%nat in
  (length v = n ->
   returns_new (Spectrum.__init__ cls edges fl) w
     (instance cls edges v None)
   /\ aggregates_consistent (instance cls edges v None)
   /\ ((1 <= length edges)%nat -> well_formed (instance cls edges v None)))
  /\ (forall x, v = [x] -> n <> 1%nat ->
      exists s,
        Spectrum.__init__ cls edges fl w
        = (Ok (length (heap w)), with_heap (heap w ++ [s]) w)
        /\ flux s = [x]
        /\ nbins s = n
        /\ total_flux s = np.sum (map (fmul x) (np.diff edges))
        /\ ~ well_formed s)
  /\ (forall a b, edges = [a; b] -> length v <> 1%nat ->
      exists s,
        Spectrum.__init__ cls edges fl w
        = (Ok (length (heap w)), with_heap (heap w ++ [s]) w)
        /\ flux s = v
        /\ nbins s = 1%nat
        /\ total_flux s = np.sum (map (fun x => fmul x (fsub b a)) v)
        /\ ~ well_formed s)
  /\ (length v <> n -> length v <> 1%nat -> n <> 1%nat ->
      (Spectrum.__init__ cls edges fl w).1 = Raise ValueError).
Proof.
  intros Hcls Hq. cbv zeta. split; [|split; [|split]].
  - intros Hv. split; [now apply init_ok|].
    split; [apply refreshed_consistent|].
    intros He. apply instance_well_formed; [exact He | exact Hv |].
    split; [intros [? E]; discriminate E | intros E; contradiction].
  - intros x -> Hn. unfold Spectrum.__init__, np.add.
    rewrite broadcast2_same_length by apply length_tail1_init1.
    msteps. rewrite Hq. msteps.
    fold (midpoints edges).
    set (o := {| class_ := cls; ebins := edges; emid := midpoints edges;
                 flux := [x]; nbins := length (midpoints edges);
                 de := np.diff edges; total_flux := NaN;
                 total_energy_flux := NaN; cumspec := []; arf := None |}).
    assert (Hs : heap (with_heap (heap w ++ [o]) w) !! length (heap w) = Some o)
      by apply heap_app_lookup.
    unfold Spectrum._compute_total_flux. msteps.
    cbn [flux de emid o]. rewrite !multiply_one. msteps.
    cbn [flux de emid o set_total_flux]. rewrite !multiply_one. msteps.
    rewrite multiply_same_length
      by (now rewrite !length_map, length_midpoints, length_diff).
    msteps.
    cbn [flux de emid o set_total_flux set_total_energy_flux].
    rewrite !multiply_one. msteps.
    rewrite (getitem_last _ _ (Fin 0)). msteps.
    cbn [heap with_heap]. rewrite !list_insert_insert_eq, heap_app_insert.
    eexists. split; [reflexivity|].
    split; [reflexivity|]. split; [cbn; apply length_midpoints|].
    split; [reflexivity|].
    intros W. pose proof (wf_flux _ W) as Wf. pose proof (wf_nbins _ W) as Wn.
    cbn in Wf, Wn. rewrite length_midpoints in Wf. lia.
  - intros a b -> Hv. unfold Spectrum.__init__, np.add.
    rewrite broadcast2_same_length by apply length_tail1_init1.
    msteps. rewrite Hq. msteps.
    fold (midpoints [a; b]).
    change (midpoints [a; b]) with [fmul (Fin 0.5) (fadd b a)].
    change (np.diff [a; b]) with [fsub b a].
    set (m := fmul (Fin 0.5) (fadd b a)).
    set (o := {| class_ := cls; ebins := [a; b]; emid := [m];
                 flux := v; nbins := length [m];
                 de := [fsub b a]; total_flux := NaN;
                 total_energy_flux := NaN; cumspec := []; arf := None |}).
    assert (Hs : heap (with_heap (heap w ++ [o]) w) !! length (heap w) = Some o)
      by apply heap_app_lookup.
    assert (Hv' : forall f : float -> float, length (map f v) <> 1%nat)
      by (intros f; now rewrite length_map).
    unfold Spectrum._compute_total_flux. msteps.
    cbn [flux de emid o]. rewrite !multiply_one_right by assumption. msteps.
    cbn [flux de emid o set_total_flux map].
    rewrite !multiply_one_right by auto. msteps.
    cbn [flux de emid o set_total_flux].
    rewrite !multiply_one_right by auto. msteps.
    cbn [flux de emid o set_total_flux set_total_energy_flux].
    rewrite !multiply_one_right by auto. msteps.
    rewrite (getitem_last _ _ (Fin 0)). msteps.
    cbn [heap with_heap]. rewrite !list_insert_insert_eq, heap_app_insert.
    eexists. split; [reflexivity|].
    split; [reflexivity|]. split; [reflexivity|].
    split; [reflexivity|].
    intros W. pose proof (wf_flux _ W) as Wf. pose proof (wf_nbins _ W) as Wn.
    cbn in Wf, Wn. lia.
  - intros H0 H1 H2. unfold Spectrum.__init__, np.add.
    rewrite broadcast2_same_length by apply length_tail1_init1.
    msteps. rewrite Hq. msteps.
    fold (midpoints edges).
    set (o := {| class_ := cls; ebins := edges; emid := midpoints edges;
                 flux := v; nbins := length (midpoints edges);
                 de := np.diff edges; total_flux := NaN;
                 total_energy_flux := NaN; cumspec := []; arf := None |}).
    assert (Hs : heap (with_heap (heap w ++ [o]) w) !! length (heap w) = Some o)
      by apply heap_app_lookup.
    unfold Spectrum._compute_total_flux. msteps.
    cbn [flux de o].
    rewrite (multiply_mismatch v (np.diff edges));
      rewrite ?length_diff; auto.
Qed.

End Constructor.

(** ** Products and quotients with a number *)

Section Scalars.
Context `{ext : Externals}.

Lemma Qsum_scaled q xs ds :
  Qsum (zip_with Qmult (map (Qmult q) xs) ds)
  == q * Qsum (zip_with Qmult xs ds).
Proof.
  revert ds. induction xs as [|x xs IH]; intros [|d ds];
    try (cbn; ring).
  cbn [map zip_with]. rewrite !Qsum_cons, IH. ring.
Qed.

(** [self * x] and [self / x] on a spectrum that is not convolved. *)
Lemma scalar_run w self s k :
  heap w !! self = Some s ->
  well_formed s ->
  class_ s <> cConvolvedSpectrum ->
  returns_new (Spectrum'.__mul__ self (Number k)) w
    (instance (class_ s) (ebins s) (map (fmul k) (flux s)) None)
  /\ returns_new (Spectrum'.__truediv__ self k) w
       (instance (class_ s) (ebins s) (map (fun x => fdiv x k) (flux s))
          None).
Proof.
  intros Hs Ws Hc. destruct (wf_lengths _ Ws) as (L1 & L2 & L3 & L4).
  unfold returns_new, Spectrum'.__mul__, Spectrum'.__truediv__. msteps.
  rewrite !type_self_init by exact Hc.
  split; (apply init_ok; [apply as_quantity_own | rewrite length_map; lia]).
Qed.

(** X22.  Multiplying or dividing a spectrum by a number gives a new
    instance of its class on its edges, with every flux value multiplied
    (divided), and on finite edges and flux the total of the product is the
    number times the total of the spectrum. A ConvolvedSpectrum cannot be
    multiplied or divided by a number: its constructor wants a response,
    [type(self)(ebins, flux)] raises TypeError, and nothing is created. *)
Theorem scalar_product_contract w self s k :
  heap w !! self = Some s ->
  well_formed s ->
  (class_ s = cConvolvedSpectrum ->
   Spectrum'.__mul__ self (Number k) w = (Raise TypeError, w)
   /\ Spectrum'.__rmul__ self (Number k) w = (Raise TypeError, w)
   /\ Spectrum'.__truediv__ self k w = (Raise TypeError, w))
  /\ (class_ s <> cConvolvedSpectrum ->
      let product := instance (class_ s) (ebins s) (map (fmul k) (flux s))
                       None in
      let quotient := instance (class_ s) (ebins s)
                        (map (fun x => fdiv x k) (flux s)) None in
      returns_new (Spectrum'.__mul__ self (Number k)) w product
      /\ returns_new (Spectrum'.__truediv__ self k) w quotient
      /\ well_formed product
      /\ well_formed quotient
      /\ (finite_array (ebins s) -> finite_array (flux s) ->
          isfinite k = true ->
          same (total_flux product) (fmul k (photon_rate s)))).
Proof.
  intros Hs Ws. destruct (wf_lengths _ Ws) as (L1 & L2 & L3 & L4). split.
  - intros Hc.
    unfold Spectrum'.__rmul__, Spectrum'.__mul__, Spectrum'.__truediv__.
    msteps. rewrite Hc. auto.
  - intros Hc. cbv zeta.
    destruct (scalar_run _ _ _ k Hs Ws Hc) as [Hm Hd].
    split; [exact Hm|]. split; [exact Hd|].
    assert (Ha : is_Some (@None Response) <-> class_ s = cConvolvedSpectrum).
    { split; [intros [? E]; discriminate E | intros E; contradiction]. }
    split; [|split].
    + apply instance_well_formed;
        [apply (wf_edges _ Ws) | rewrite length_map; lia | exact Ha].
    + apply instance_well_formed;
        [apply (wf_edges _ Ws) | rewrite length_map; lia | exact Ha].
    + intros He Hf Hk.
      cbn [total_flux instance set_arf refreshed set_cumspec
             set_total_energy_flux set_total_flux].
      unfold photon_rate. cbn [flux de]. rewrite <- (wf_de _ Ws).
      destruct (finite_array_Fin _ Hf) as [xs ->].
      assert (Hd' : finite_array (de s))
        by (rewrite (wf_de _ Ws); now apply finite_array_diff).
      destruct (finite_array_Fin _ Hd') as [ds ->].
      destruct k as [q| | |]; try discriminate Hk.
      rewrite map_map.
      change (map (fun x => fmul (Fin q) (Fin x)) xs)
        with (map (fun x => Fin (q * x)) xs).
      rewrite <- (map_map (Qmult q) Fin).
      rewrite !zip_with_fmul_Fin, !sum_Fin. cbn [fmul same].
      rewrite !foldl_Qplus, Qsum_scaled. ring.
Qed.

Lemma fmul_fdiv_cancel q x :
  ~ q == 0 -> same (fdiv (fmul (Fin q) (Fin x)) (Fin q)) (Fin x).
Proof. intros Hq. cbn [fmul]. rewrite fdiv_Fin by exact Hq. cbn. now field. Qed.

(** X23.  Multiplying a spectrum of finite flux by a finite number that is
    not zero and dividing the product by the same number gives back the flux
    of the spectrum, on the same edges and in the same class. *)
Theorem multiply_then_divide w self s q :
  heap w !! self = Some s ->
  well_formed s ->
  class_ s <> cConvolvedSpectrum ->
  finite_array (flux s) ->
  ~ q == 0 ->
  exists p w1 d w2 sd,
    Spectrum'.__mul__ self (Number (Fin q)) w = (Ok p, w1)
    /\ Spectrum'.__truediv__ p (Fin q) w1 = (Ok d, w2)
    /\ heap w2 !! d = Some sd
    /\ class_ sd = class_ s
    /\ ebins sd = ebins s
    /\ same_array (flux sd) (flux s)
    /\ heap w2 !! self = Some s.
Proof.
  intros Hs Ws Hc Hf Hq. destruct (wf_lengths _ Ws) as (L1 & L2 & L3 & L4).
  destruct (scalar_run _ _ _ (Fin q) Hs Ws Hc) as [Hm _].
  set (sp := instance (class_ s) (ebins s) (map (fmul (Fin q)) (flux s)) None)
    in *.
  set (w1 := with_heap (heap w ++ [sp]) w).
  assert (Wp : well_formed sp).
  { apply instance_well_formed;
      [apply (wf_edges _ Ws) | rewrite length_map; lia |].
    split; [intros [? E]; discriminate E | intros E; contradiction]. }
  assert (Hp : heap w1 !! length (heap w) = Some sp) by apply heap_app_lookup.
  destruct (scalar_run w1 _ sp (Fin q) Hp Wp Hc) as [_ Hd].
  eexists _, _, _, _, _.
  split; [exact Hm|]. split; [exact Hd|].
  split; [apply heap_app_lookup|].
  split; [reflexivity|]. split; [reflexivity|]. split.
  - cbn [flux sp instance set_arf refreshed set_cumspec set_total_energy_flux
           set_total_flux].
    rewrite map_map. clear - Hf Hq.
    induction Hf as [|x l Hx _ IH]; [constructor|].
    cbn [map]. constructor; [|exact IH].
    destruct x; try discriminate Hx. now apply fmul_fdiv_cancel.
  - cbn [heap with_heap]. now apply heap_app_old, heap_app_old.
Qed.

End Scalars.

(** ** The spectrum as a function of the energy *)

Section Calling.
Context `{ext : Externals}.

Lemma increasing_tail x l : increasing (x :: l) -> increasing l.
Proof. intros H i a b Ha Hb. apply (H (S i) a b); assumption. Qed.

Lemma increasing_lt qs i j x y :
  increasing (map Fin qs) ->
  (i < j)%nat ->
  qs !! i = Some x ->
  qs !! j = Some y ->
  x < y.
Proof.
  intros Hn Hij Hx. revert y. induction Hij as [|j Hij IH]; intros y Hy.
  - apply Qltb_true.
    apply (Hn i (Fin x) (Fin y)); rewrite list_lookup_fmap;
      [now rewrite Hx | now rewrite Hy].
  - destruct (lookup_lt_is_Some_2 qs j) as [z Hz];
      [apply lookup_lt_Some in Hy; lia|].
    apply Qlt_trans with z; [now apply IH|].
    apply Qltb_true.
    apply (Hn j (Fin z) (Fin y)); rewrite list_lookup_fmap;
      [now rewrite Hz | now rewrite Hy].
Qed.

(** The midpoints of increasing finite edges increase. *)
Lemma increasing_midpoints edges :
  finite_array edges -> increasing edges -> increasing (midpoints edges).
Proof.
  intros [qs ->]%finite_array_Fin Hi i x y Hx Hy.
  destruct (midpoints_lookup_inv _ _ _ Hx) as (a & b & Ha & Hb & ->).
  destruct (midpoints_lookup_inv _ _ _ Hy) as (b' & c & Hb' & Hc & ->).
  assert (b' = b) by congruence. subst b'.
  pose proof (Hi _ _ _ Ha Hb) as H1. pose proof (Hi _ _ _ Hb Hc) as H2.
  rewrite list_lookup_fmap in Ha, Hb, Hc.
  destruct (qs !! i); [|discriminate Ha].
  destruct (qs !! S i); [|discriminate Hb].
  destruct (qs !! S (S i)); [|discriminate Hc].
  injection Ha as <-. injection Hb as <-. injection Hc as <-.
  cbn [flt] in H1, H2. apply Qltb_true in H1, H2.
  cbn [fadd fmul flt]. apply Qltb_true. lra.
Qed.

(** At a sample point [np.interp] returns the value given there. *)
Lemma interp_seg_at_knot xq : forall (fp : list float) x0 i x f,
  increasing (map Fin (x0 :: xq)) ->
  (x0 :: xq) !! i = Some x ->
  fp !! i = Some f ->
  np.interp_seg (Fin x) (map Fin (x0 :: xq)) fp = f.
Proof.
  induction xq as [|x1 xq IH]; intros fp x0 i x f Hn Hx Hf.
  - destruct i as [|i]; [|discriminate Hx].
    destruct fp as [|f0 fp]; [discriminate Hf|].
    injection Hf as <-. reflexivity.
  - destruct fp as [|f0 fp]; [discriminate Hf|].
    destruct i as [|i].
    + injection Hx as <-. injection Hf as <-.
      destruct fp as [|f1 fp]; [reflexivity|].
      cbn [map np.interp_seg flt feqb].
      assert (H01 : x0 < x1)
        by (apply (increasing_lt (x0 :: x1 :: xq) 0 1); auto).
      rewrite (proj2 (Qltb_true x0 x1) H01).
      now rewrite (proj2 (Qeq_bool_iff x0 x0) (Qeq_refl x0)).
    + destruct fp as [|f1 fp]; [discriminate Hf|].
      cbn [map np.interp_seg flt].
      assert (H1x : x1 <= x).
      { destruct i as [|i].
        - injection Hx as <-. apply Qle_refl.
        - apply Qlt_le_weak.
          apply (increasing_lt (x1 :: xq) 0 (S i)); auto; [|lia].
          apply (increasing_tail (Fin x0)), Hn. }
      rewrite (proj2 (Qltb_false x x1) H1x).
      apply (IH (f1 :: fp) x1 i x f); auto.
      apply (increasing_tail (Fin x0)), Hn.
Qed.

Lemma interp1_at_knot xq (fp : list float) i x f :
  increasing (map Fin xq) ->
  xq !! i = Some x ->
  fp !! i = Some f ->
  np.interp1 (map Fin xq) fp (Fin x) = f.
Proof.
  intros Hn Hx Hf. unfold np.interp1. cbn [isnan].
  destruct xq as [|x0 xq]; [discriminate Hx|].
  destruct fp as [|f0 fp]; [discriminate Hf|].
  cbn [map fle].
  destruct i as [|i].
  - injection Hx as <-. injection Hf as <-.
    now rewrite (proj2 (Qle_bool_iff x0 x0) (Qle_refl x0)).
  - assert (H0 : x0 < x) by (apply (increasing_lt (x0 :: xq) 0 (S i)); auto; lia).
    replace (Qle_bool x x0) with false.
    + apply (interp_seg_at_knot xq (f0 :: fp) x0 (S i)); auto.
    + symmetry. apply not_true_iff_false. intros E.
      apply Qle_bool_iff in E. lra.
Qed.

(** Beyond the last sample point [np.interp] returns the last value. *)
Lemma interp_seg_beyond q xq : forall (fp : list float) x0,
  length fp = S (length xq) ->
  Forall (fun x => x <= q) xq ->
  np.interp_seg (Fin q) (map Fin (x0 :: xq)) fp = List.last fp NaN.
Proof.
  induction xq as [|x1 xq IH]; intros fp x0 L Hq.
  - destruct fp as [|f0 [|f1 fp]]; try discriminate L. reflexivity.
  - destruct fp as [|f0 [|f1 fp]]; try discriminate L.
    inversion Hq as [|? ? H1 Hq']; subst.
    cbn [map np.interp_seg flt].
    rewrite (proj2 (Qltb_false q x1) H1).
    change (List.last (f0 :: f1 :: fp) NaN) with (List.last (f1 :: fp) NaN).
    apply (IH (f1 :: fp) x1); [cbn [length] in *; lia | exact Hq'].
Qed.

(** X24.  Calling a spectrum interpolates its flux between the bin midpoints
    and changes nothing. On finite increasing edges: at the midpoints of the
    bins the call returns the flux of the bins; at and below the first
    midpoint it returns the flux of the first bin, at and above the last
    midpoint the flux of the last bin, not zero. A spectrum without bins
    cannot be called: ValueError. *)
Theorem call_interpolates_flux w self s :
  heap w !! self = Some s ->
  well_formed s ->
  finite_array (ebins s) ->
  increasing (ebins s) ->
  (nbins s = 0%nat -> forall e,
     Spectrum'.__call__ self e w = (Raise ValueError, w))
  /\ ((1 <= nbins s)%nat ->
      Spectrum'.__call__ self (emid s) w = (Ok (flux s), w)
      /\ forall q first last_ m0 m1,
           head (flux s) = Some first ->
           List.last (flux s) NaN = last_ ->
           head (emid s) = Some (Fin m0) ->
           List.last (emid s) NaN = Fin m1 ->
           (q <= m0 ->
            Spectrum'.__call__ self [Fin q] w = (Ok [first], w))
           /\ (m1 <= q ->
               Spectrum'.__call__ self [Fin q] w = (Ok [last_], w))).
Proof.
  intros Hs Ws He Hi. destruct (wf_lengths _ Ws) as (L1 & L2 & L3 & L4).
  pose proof (wf_nbins _ Ws) as Hn.
  assert (Hm : finite_array (emid s))
    by (rewrite (wf_emid _ Ws); now apply finite_array_midpoints).
  assert (Him : increasing (emid s))
    by (rewrite (wf_emid _ Ws); now apply increasing_midpoints).
  destruct (finite_array_Fin _ Hm) as [ms Hms].
  unfold Spectrum'.__call__. split.
  - intros H0 e. msteps.
    destruct (emid s) as [|m l] eqn:Em; [reflexivity|].
    rewrite Hn in H0. discriminate H0.
  - intros H1.
    assert (Hne : emid s <> []) by (intros E; rewrite Hn, E in H1; cbn in H1; lia).
    assert (Run : forall e,
               (deref self ≫= fun s => lift (np.interp e (emid s) (flux s))) w
               = (Ok (map (np.interp1 (emid s) (flux s)) e), w)).
    { intros e. msteps. unfold np.interp.
      destruct (emid s) as [|m l] eqn:Em; [contradiction|].
      cbv iota. rewrite <- L3, Nat.eqb_refl. reflexivity. }
    split.
    + rewrite Run. do 2 f_equal.
      apply list_eq. intros i. rewrite list_lookup_fmap.
      destruct (emid s !! i) as [e|] eqn:Hei.
      * destruct (lookup_lt_is_Some_2 (flux s) i) as [f Hf];
          [rewrite L3; eapply lookup_lt_Some, Hei|].
        rewrite Hf. cbn. f_equal.
        rewrite Hms in Hei |- *. rewrite Hms in Him.
        apply list_lookup_fmap_Some in Hei as (m & -> & Hmi).
        now apply (interp1_at_knot ms (flux s) i).
      * cbn. symmetry. apply lookup_ge_None.
        apply lookup_ge_None in Hei. lia.
    + intros q first last_ m0 m1 Hf0 Hl Hm0 Hm1. split; intros Hq.
      * rewrite Run. cbn [map]. do 3 f_equal.
        unfold np.interp1. cbn [isnan].
        destruct (emid s) as [|e0 l]; [discriminate Hm0|].
        destruct (flux s) as [|f0 fl]; [discriminate Hf0|].
        injection Hm0 as ->. injection Hf0 as ->.
        cbn [fle]. now rewrite (proj2 (Qle_bool_iff q m0) Hq).
      * rewrite Run. cbn [map]. do 3 f_equal. subst last_.
        rewrite Hms in *. clear Run Hm Hne.
        destruct ms as [|x0 xq]; [discriminate Hm0|].
        cbn [map head] in Hm0. injection Hm0 as ->.
        rewrite length_map in L3.
        assert (Hall : Forall (fun x => x <= q) (m0 :: xq)).
        { apply Forall_lookup. intros i x Hx.
          apply Qle_trans with m1; [|exact Hq].
          cbn [map] in Hm1.
          rewrite (last_nonempty _ _ NaN (Fin 0)) in Hm1.
          change (Fin m0 :: map Fin xq) with (map Fin (m0 :: xq)) in Hm1.
          rewrite (last_map Fin (m0 :: xq) 0) in Hm1. injection Hm1 as <-.
          apply (nondecreasing_le (m0 :: xq) i (length xq)).
          - intros j a b Ha Hb. pose proof (Him j a b Ha Hb) as Hlt.
            apply list_lookup_fmap_Some in Ha as (qa & -> & _).
            apply list_lookup_fmap_Some in Hb as (qb & -> & _).
            cbn [flt fle] in *. apply Qltb_true in Hlt.
            apply Qle_bool_iff. lra.
          - apply lookup_lt_Some in Hx. cbn [length] in Hx. lia.
          - exact Hx.
          - apply lookup_last. }
        unfold np.interp1. cbn [isnan map].
        destruct (flux s) as [|f0 fl] eqn:Ef; [discriminate L3|].
        cbn [fle].
        destruct (Qle_bool q m0) eqn:E0.
        -- apply Qle_bool_iff in E0.
           (* the spectrum has one bin, or [q] is the first midpoint *)
           destruct xq as [|x1 xq].
           ++ destruct fl; [reflexivity | discriminate L3].
           ++ exfalso.
              assert (m0 < x1)
                by (apply (increasing_lt (m0 :: x1 :: xq) 0 1); auto).
              inversion Hall as [|? ? _ Hall']; subst.
              inversion Hall' as [|? ? H1q _]; subst. lra.
        -- inversion Hall as [|? ? _ Hall']; subst.
           now apply (interp_seg_beyond q xq (f0 :: fl) m0).
Qed.

End Calling.

(** ** The constant spectrum *)

Section Constant.
Context `{ext : Externals}.

(** The widths of finite edges add up to the distance of the last edge
    from the first. *)
Lemma diff_Fin_sum qs :
  exists ds,
    np.diff (map Fin qs) = map Fin ds
    /\ length ds = (length qs - 1)%nat
    /\ (qs <> [] -> Qsum ds == List.last qs 0 - hd 0 qs).
Proof.
  induction qs as [|x [|y qs] (ds & E & L & S)].
  - exists []. split; [reflexivity|]. split; [reflexivity|].
    intros H. contradiction.
  - exists []. split; [reflexivity|]. split; [reflexivity|].
    intros _. cbn. ring.
  - exists ((y + - x) :: ds). split; [|split].
    + change (np.diff (map Fin (x :: y :: qs)))
        with (fsub (Fin y) (Fin x) :: np.diff (map Fin (y :: qs))).
      now rewrite E.
    + cbn [length] in *. lia.
    + intros _. rewrite Qsum_cons, S by discriminate.
      change (List.last (x :: y :: qs) 0) with (List.last (y :: qs) 0).
      cbn [hd]. ring.
Qed.

Lemma Qsum_constant k ds n :
  (length ds <= n)%nat ->
  Qsum (zip_with Qmult (replicate n k) ds) == k * Qsum ds.
Proof.
  revert n. induction ds as [|d ds IH]; intros n L.
  - destruct n; cbn; ring.
  - destruct n as [|n]; [cbn in L; lia|].
    cbn [replicate zip_with]. rewrite !Qsum_cons, IH by (cbn in L; lia).
    ring.
Qed.

Lemma inject_nat_nonzero k : ~ inject_Z (Z.of_nat (S k)) == 0.
Proof. unfold Qeq. cbn [Qnum Qden inject_Z]. lia. Qed.

(** [np.linspace] between finite ends, for at least one interval. *)
Lemma linspace_Fin a b k :
  linspace (Fin a) (Fin b) (S (S k))
  = map Fin
      (map (fun i : nat =>
              a + inject_Z (Z.of_nat i)
                  * ((b + - a) / inject_Z (Z.of_nat (S k))))
           (seq 0 (S (S k)))).
Proof.
  unfold linspace.
  replace (S (S k) - 1)%nat with (S k) by lia.
  cbn [fsub fopp fadd].
  rewrite fdiv_Fin by apply inject_nat_nonzero.
  rewrite map_map. reflexivity.
Qed.

Lemma last_snoc {A} (l : list A) x d : List.last (l ++ [x]) d = x.
Proof. apply List.last_last. Qed.

(** X25.  [from_constant] builds a spectrum of [nbins] bins of equal width
    between [emin] and [emax], every bin holding [const_flux]: its total is
    [const_flux * (emax - emin)]. The class ConvolvedSpectrum refuses it. *)
Theorem from_constant_contract w cls c a b n :
  (1 <= n)%nat ->
  (cls = cConvolvedSpectrum ->
   Spectrum'.from_constant cls (Fin c) (Fin a) (Fin b) n w
   = (Raise (NotImplementedError ""), w))
  /\ (cls <> cConvolvedSpectrum ->
      exists edges fl,
        let s := instance cls edges fl None in
        returns_new (Spectrum'.from_constant cls (Fin c) (Fin a) (Fin b) n)
          w s
        /\ well_formed s
        /\ nbins s = n
        /\ Forall (fun x => same x (Fin c)) (flux s)
        /\ same (hd NaN (ebins s)) (Fin a)
        /\ same (List.last (ebins s) NaN) (Fin b)
        /\ same (total_flux s) (Fin (c * (b - a)))).
Proof.
  intros Hn. split; [now intros ->|]. intros Hc.
  destruct n as [|k]; [lia|].
  set (step := (b + - a) / inject_Z (Z.of_nat (S k))).
  set (qs := map (fun i : nat => a + inject_Z (Z.of_nat i) * step)
                 (seq 0 (S (S k)))).
  assert (El : linspace (Fin a) (Fin b) (S k + 1) = map Fin qs)
    by (rewrite Nat.add_1_r; apply linspace_Fin).
  assert (Lq : length qs = S (S k))
    by (unfold qs; now rewrite length_map, length_seq).
  exists (map Fin qs), (map (fmul (Fin c)) (replicate (S k) (Fin 1.0))).
  cbv zeta.
  assert (Lf : length (map (fmul (Fin c)) (replicate (S k) (Fin 1.0)))
               = (length (map Fin qs) - 1)%nat)
    by (rewrite !length_map, length_replicate, Lq; lia).
  split; [|split; [|split; [|split; [|split; [|split]]]]].
  - unfold returns_new, Spectrum'.from_constant.
    replace (match cls with
             | cConvolvedSpectrum => raise (NotImplementedError "")
             | _ => Spectrum.__init__ cls
                      (linspace (Fin a) (Fin b) (S k + 1))
                      (Bare (map (fmul (Fin c)) (replicate (S k) (Fin 1.0))))
             end)
      with (Spectrum.__init__ cls (linspace (Fin a) (Fin b) (S k + 1))
              (Bare (map (fmul (Fin c)) (replicate (S k) (Fin 1.0)))))
      by (destruct cls; congruence).
    rewrite El. now apply init_ok.
  - apply instance_well_formed; [rewrite length_map; lia | exact Lf |].
    split; [intros [? E]; discriminate E | intros E; contradiction].
  - cbn [nbins instance set_arf refreshed set_cumspec set_total_energy_flux
           set_total_flux].
    rewrite length_midpoints, length_map, Lq. lia.
  - cbn [flux instance set_arf refreshed set_cumspec set_total_energy_flux
           set_total_flux].
    apply Forall_map, Forall_replicate. cbn. ring.
  - cbn. ring.
  - cbn [ebins instance set_arf refreshed set_cumspec set_total_energy_flux
           set_total_flux].
    unfold qs. rewrite (seq_S (S k)), !map_app. cbn [map].
    rewrite last_snoc. cbn [same]. unfold step. cbn [Nat.add].
    field. apply inject_nat_nonzero.
  - cbn [total_flux instance set_arf refreshed set_cumspec
           set_total_energy_flux set_total_flux].
    unfold photon_rate. cbn [flux de].
    destruct (diff_Fin_sum qs) as (ds & Ed & Ld & Sd). rewrite Ed.
    rewrite fmap_replicate.
    change (fmul (Fin c) (Fin 1.0)) with (Fin (c * 1.0)).
    rewrite <- (fmap_replicate Fin).
    rewrite zip_with_fmul_Fin, sum_Fin. cbn [same].
    rewrite foldl_Qplus, Qsum_constant by lia.
    rewrite Sd by (intros E; rewrite E in Lq; discriminate Lq).
    assert (Efirst : hd 0 qs == a) by (cbn; ring).
    assert (Elast : List.last qs 0 == b).
    { unfold qs. rewrite (seq_S (S k)), map_app. cbn [map].
      rewrite last_snoc. unfold step. cbn [Nat.add].
      field. apply inject_nat_nonzero. }
    rewrite Efirst, Elast. ring.
Qed.

End Constant.

(** ** Files *)

Section Files.
Context `{ext : Externals}.

(** X26.  Overwrite protection: with [overwrite=False] neither [write_file]
    nor [write_h5_file] touches a path that exists; both raise IOError and
    the file system is as before. Otherwise, on a well-formed spectrum, both
    return and change the file at the given path only. *)
Theorem write_overwrite_protection w fs self s specfile overwrite :
  heap w !! self = Some s ->
  well_formed s ->
  let msg := ("File " ++ specfile ++ " exists and overwrite=False!")%string in
  (is_Some (fs !! specfile) -> overwrite = false ->
   Spectrum'.write_file self specfile overwrite fs w
   = (Failed (IOError msg), fs)
   /\ Spectrum'.write_h5_file self specfile overwrite fs w
      = (Failed (IOError msg), fs))
  /\ (fs !! specfile = None \/ overwrite = true ->
      exists text h5,
        Spectrum'.write_file self specfile overwrite fs w
        = (Done tt, <[specfile := text]> fs)
        /\ Spectrum'.write_h5_file self specfile overwrite fs w
           = (Done tt, <[specfile := HDF5 h5]> fs)
        /\ h5_spectrum h5 = Some (flux s)
        /\ forall p, p <> specfile ->
             (<[specfile := text]> fs) !! p = fs !! p
             /\ (<[specfile := HDF5 h5]> fs) !! p = fs !! p).
Proof.
  intros Hs Ws msg. destruct (wf_lengths _ Ws) as (L1 & L2 & L3 & L4).
  unfold Spectrum'.write_file, Spectrum'.write_h5_file. split.
  - intros He ->. rewrite (bool_decide_eq_true_2 _ He). cbn [negb andb].
    split; reflexivity.
  - intros Hc.
    assert (E : bool_decide (is_Some (fs !! specfile)) && negb overwrite
                = false).
    { destruct Hc as [Hn | ->]; [|apply andb_false_r].
      rewrite bool_decide_eq_false_2; [reflexivity|].
      rewrite Hn. intros [? H]. discriminate H. }
    rewrite E, Hs, <- L3, Nat.eqb_refl.
    destruct (getitem_first _ (wf_edges _ Ws)) as [e0 ->].
    destruct (getitem_final _ (wf_edges _ Ws)) as [e1 ->].
    eexists _, _. split; [reflexivity|]. split; [reflexivity|].
    split; [reflexivity|].
    intros p Hp. split; apply lookup_insert_ne; congruence.
Qed.

End Files.

Section RoundTrips.
Context `{ext : Externals}.

Lemma convolved_init_str edges fl v name w :
  Spectrum.as_quantity cConvolvedSpectrum fl = Ok v ->
  length v = (length edges - 1)%nat ->
  ConvolvedSpectrum.__init__ edges fl (ArfStr name) w
  = (Ok (length (heap w)),
     with_heap (heap w ++ [instance cConvolvedSpectrum edges v
                             (Some (AuxiliaryResponseFile name))]) w).
Proof.
  intros Hq Hv. unfold ConvolvedSpectrum.__init__.
  erewrite bind_Ok by (apply init_ok; eassumption).
  rewrite bind_ret.
  erewrite bind_modify by apply (heap_app_lookup (heap w)).
  cbn [heap with_heap]. rewrite heap_app_insert. reflexivity.
Qed.

(** What [from_file] constructs from the edges, the flux and the name of
    the response read from a file written for a well-formed spectrum. *)
Lemma construct_run w s edges :
  well_formed s ->
  length (flux s) = (length edges - 1)%nat ->
  constructed
    (Spectrum'.construct (class_ s) edges (flux s) (filename <$> arf s) w)
  = (Done (length (heap w)),
     with_heap
       (heap w ++ [instance (class_ s) edges (flux s)
                     (AuxiliaryResponseFile ∘ filename <$> arf s)]) w).
Proof.
  intros Ws L. unfold Spectrum'.construct.
  destruct (wf_arf_cases _ Ws) as [[Hc [r Hr]] | [Hc Hr]]; rewrite Hr.
  - cbn [fmap option_fmap option_map]. rewrite Hc.
    now rewrite (convolved_init_str edges (Bare (flux s)) (flux s)).
  - cbn [fmap option_fmap option_map].
    rewrite type_self_init by exact Hc.
    now rewrite (init_ok (class_ s) edges (Bare (flux s)) (flux s)).
Qed.

Lemma inject_succ i :
  inject_Z (Z.of_nat (S i)) == inject_Z (Z.of_nat i) + 1.
Proof. rewrite Nat2Z.inj_succ. unfold Z.succ. rewrite inject_Z_plus. reflexivity. Qed.

Lemma length_linspace a b n : length (linspace a b (S n)) = S n.
Proof.
  destruct n as [|n]; [reflexivity|]. unfold linspace.
  now rewrite length_map, length_seq.
Qed.

(** X27.  Writing a well-formed spectrum with at least one bin to an HDF5
    file and reading the file back with [from_file] of its class gives a new
    instance with the same flux, on [nbins + 1] equally spaced edges between
    the first and the last edge of the spectrum; a convolved spectrum is
    bound to the response that [AuxiliaryResponseFile] loads from the file
    name of its response. When the edges of the spectrum are equally spaced,
    the new instance has the edges of the spectrum. *)
Theorem h5_round_trip w fs self s specfile overwrite a h :
  heap w !! self = Some s ->
  well_formed s ->
  (1 <= nbins s)%nat ->
  endswith specfile ".h5" = true ->
  fs !! specfile = None \/ overwrite = true ->
  exists fs' e0 e1,
    Spectrum'.write_h5_file self specfile overwrite fs w = (Done tt, fs')
    /\ np.getitem (ebins s) 0 = Ok e0
    /\ np.getitem (ebins s) (-1) = Ok e1
    /\ let restored :=
         instance (class_ s) (linspace e0 e1 (nbins s + 1)) (flux s)
           (AuxiliaryResponseFile ∘ filename <$> arf s) in
       Spectrum'.from_file (class_ s) specfile fs' w
       = (Done (length (heap w)), with_heap (heap w ++ [restored]) w)
       /\ (uniform_edges a h (ebins s) ->
           same_array (ebins restored) (ebins s)).
Proof.
  intros Hs Ws Hn Hp Hc. destruct (wf_lengths _ Ws) as (L1 & L2 & L3 & L4).
  pose proof (wf_nbins _ Ws) as Lb. pose proof (wf_flux _ Ws) as Lf.
  destruct (getitem_first _ (wf_edges _ Ws)) as [e0 He0].
  destruct (getitem_final _ (wf_edges _ Ws)) as [e1 He1].
  assert (E : bool_decide (is_Some (fs !! specfile)) && negb overwrite
              = false).
  { destruct Hc as [Hx | ->]; [|apply andb_false_r].
    rewrite bool_decide_eq_false_2; [reflexivity|].
    rewrite Hx. intros [? H]. discriminate H. }
  exists (<[specfile := HDF5 {| h5_emin := Some e0; h5_emax := Some e1;
                               h5_spectrum := Some (flux s);
                               h5_arf := filename <$> arf s |}]> fs), e0, e1.
  split.
  { unfold Spectrum'.write_h5_file. rewrite E, Hs, He0, He1. reflexivity. }
  split; [exact He0|]. split; [exact He1|]. cbv zeta. split.
  - unfold Spectrum'.from_file.
    rewrite Hp, lookup_insert_eq. cbn [h5_spectrum h5_emin h5_emax h5_arf].
    rewrite Lf. apply construct_run; [exact Ws|].
    rewrite Nat.add_1_r, length_linspace. lia.
  - intros Hu.
    cbn [ebins instance set_arf refreshed set_cumspec set_total_energy_flux
           set_total_flux].
    apply getitem_0_lookup in He0. apply getitem_last_lookup in He1.
    destruct (Hu _ _ He0) as (q0 & -> & Hq0).
    destruct (Hu _ _ He1) as (q1 & -> & Hq1).
    assert (Ln : length (ebins s) = S (nbins s)) by lia.
    rewrite Ln in Hq1.
    replace (S (nbins s) - 1)%nat with (nbins s) in Hq1 by lia.
    destruct (nbins s) as [|k] eqn:Ek; [lia|].
    rewrite Nat.add_1_r, linspace_Fin.
    apply Forall2_same_length_lookup_2.
    { now rewrite !length_map, length_seq. }
    intros i x y Hx Hy.
    destruct (Hu _ _ Hy) as (q & -> & Hq).
    apply list_lookup_fmap_Some in Hx as (x' & -> & Hx).
    apply list_lookup_fmap_Some in Hx as (j & -> & Hj).
    apply lookup_seq in Hj as [-> _]. cbn [Nat.add same].
    rewrite Hq, Hq1, Hq0. field. apply inject_nat_nonzero.
Qed.

End RoundTrips.

Section TextRoundTrip.
Context `{ext : Externals}.

(** X28.  A text file holds the midpoints of the bins, not the edges:
    [from_file] rebuilds the edges from the distance of the first two
    midpoints. Writing a well-formed spectrum to a text file succeeds;
    reading the file back fails with ValueError when the spectrum has fewer
    than two bins, and with TypeError for a ConvolvedSpectrum (the file does
    not name its response); for a spectrum of another class with at least
    two bins it gives a new instance of the class with the same flux, which
    has the edges of the spectrum when these are equally spaced. *)
Theorem text_round_trip w fs self s specfile overwrite a h :
  heap w !! self = Some s ->
  well_formed s ->
  endswith specfile ".h5" = false ->
  fs !! specfile = None \/ overwrite = true ->
  exists fs',
    Spectrum'.write_file self specfile overwrite fs w = (Done tt, fs')
    /\ ((nbins s < 2)%nat ->
        Spectrum'.from_file (class_ s) specfile fs' w
        = (Failed (PyExn ValueError), w))
    /\ ((2 <= nbins s)%nat -> class_ s = cConvolvedSpectrum ->
        Spectrum'.from_file (class_ s) specfile fs' w
        = (Failed (PyExn TypeError), w))
    /\ ((2 <= nbins s)%nat -> class_ s <> cConvolvedSpectrum ->
        exists edges',
          Spectrum'.from_file (class_ s) specfile fs' w
          = (Done (length (heap w)),
             with_heap
               (heap w ++ [instance (class_ s) edges' (flux s) None]) w)
          /\ length edges' = length (ebins s)
          /\ (uniform_edges a h (ebins s) -> same_array edges' (ebins s))).
Proof.
  intros Hs Ws Hp Hc. destruct (wf_lengths _ Ws) as (L1 & L2 & L3 & L4).
  pose proof (wf_nbins _ Ws) as Lb. pose proof (wf_flux _ Ws) as Lf.
  pose proof (wf_edges _ Ws) as L0.
  assert (E : bool_decide (is_Some (fs !! specfile)) && negb overwrite
              = false).
  { destruct Hc as [Hx | ->]; [|apply andb_false_r].
    rewrite bool_decide_eq_false_2; [reflexivity|].
    rewrite Hx. intros [? H]. discriminate H. }
  eexists. split.
  { unfold Spectrum'.write_file. rewrite E, Hs, <- L3, Nat.eqb_refl.
    reflexivity. }
  cbv zeta.
  set (fs' := <[specfile := Text ("Energy" ++ tab ++ "Flux" ++ newline
                                    ++ "keV" ++ tab
                                    ++ unit_name (_units (class_ s)))
                              (zip (emid s) (flux s))]> fs).
  assert (Read : forall cls,
             Spectrum'.from_file cls specfile fs' w
             = match emid s with
               | m0 :: m1 :: _ =>
                   let half := fmul (Fin 0.5) (fsub m1 m0) in
                   constructed
                     (Spectrum'.construct cls
                        (map (fun m => fsub m half) (emid s)
                           ++ [fadd (List.last (emid s) NaN) half])
                        (flux s) None w)
               | _ => (Failed (PyExn ValueError), w)
               end).
  { intros cls. unfold Spectrum'.from_file, fs'.
    rewrite Hp, lookup_insert_eq, fst_zip, snd_zip
      by (rewrite L3; apply Nat.le_refl).
    reflexivity. }
  assert (Read2 : forall cls m0 m1 l,
             emid s = m0 :: m1 :: l ->
             Spectrum'.from_file cls specfile fs' w
             = constructed
                 (Spectrum'.construct cls
                    (map (fun m => fsub m (fmul (Fin 0.5) (fsub m1 m0)))
                         (emid s)
                       ++ [fadd (List.last (emid s) NaN)
                                (fmul (Fin 0.5) (fsub m1 m0))])
                    (flux s) None w)).
  { intros cls m0 m1 l Em. rewrite Read.
    destruct (emid s) as [|x0 [|x1 l']]; try discriminate Em.
    injection Em as -> -> ->. reflexivity. }
  assert (Hex : (2 <= nbins s)%nat -> exists m0 m1 l, emid s = m0 :: m1 :: l).
  { intros Hn. destruct (emid s) as [|m0 [|m1 l]];
      try (cbn [length] in Lb; lia). eauto. }
  split; [|split].
  - intros Hn. rewrite Read.
    destruct (emid s) as [|m0 [|m1 l]]; try reflexivity.
    cbn [length] in Lb. lia.
  - intros Hn Hcls. destruct (Hex Hn) as (m0 & m1 & l & Em).
    rewrite (Read2 _ _ _ _ Em), Hcls. reflexivity.
  - intros Hn Hcls. destruct (Hex Hn) as (m0 & m1 & l & Em).
    rewrite (Read2 _ _ _ _ Em).
    set (half := fmul (Fin 0.5) (fsub m1 m0)).
    set (edges' := map (fun m => fsub m half) (emid s)
                     ++ [fadd (List.last (emid s) NaN) half]).
    assert (Le : length edges' = length (ebins s))
      by (unfold edges'; rewrite length_app, length_map; cbn [length]; lia).
    exists edges'. split; [|split; [exact Le|]].
    + unfold Spectrum'.construct. rewrite type_self_init by exact Hcls.
      rewrite (init_ok (class_ s) edges' (Bare (flux s)) (flux s));
        [reflexivity | reflexivity | lia].
    + intros Hu.
      assert (Hq : forall i e, ebins s !! i = Some e ->
                     exists q, e = Fin q
                               /\ q == a + inject_Z (Z.of_nat i) * h)
        by exact Hu.
      assert (Hmid : forall i m, emid s !! i = Some m ->
                       exists q, m = Fin q
                                 /\ q == a + inject_Z (Z.of_nat i) * h
                                         + 0.5 * h).
      { intros i m Hm. rewrite (wf_emid _ Ws) in Hm.
        destruct (midpoints_lookup_inv _ _ _ Hm) as (x & y & Hx & Hy & ->).
        destruct (Hq _ _ Hx) as (qx & -> & Ex).
        destruct (Hq _ _ Hy) as (qy & -> & Ey).
        eexists. split; [reflexivity|].
        rewrite Ex, Ey, inject_succ. ring. }
      destruct (Hmid 0%nat m0) as (q0 & E0 & Hq0); [now rewrite Em|].
      destruct (Hmid 1%nat m1) as (q1 & E1 & Hq1); [now rewrite Em|].
      assert (Hhalf : exists qh, half = Fin qh /\ qh == 0.5 * h).
      { unfold half. rewrite E0, E1. eexists. split; [reflexivity|].
        rewrite Hq0, Hq1. change (inject_Z (Z.of_nat 1)) with 1.
        change (inject_Z (Z.of_nat 0)) with 0. ring. }
      destruct Hhalf as (qh & Eh & Hqh).
      apply Forall2_same_length_lookup_2; [exact Le|].
      intros i x y Hx Hy.
      destruct (Hq _ _ Hy) as (q & -> & Eq).
      unfold edges' in Hx.
      pose proof (lookup_lt_Some _ _ _ Hy) as Hi.
      destruct (decide (i < length (emid s))%nat) as [Hlt|Hge].
      * rewrite lookup_app_l in Hx by (now rewrite length_map).
        apply list_lookup_fmap_Some in Hx as (m & -> & Hm).
        destruct (Hmid _ _ Hm) as (qm & -> & Eqm).
        rewrite Eh. cbn [fsub fopp fadd same]. rewrite Eqm, Hqh, Eq. ring.
      * assert (Ei : i = length (emid s)) by lia.
        rewrite lookup_app_r in Hx by (rewrite length_map; lia).
        rewrite length_map, Ei, Nat.sub_diag in Hx. injection Hx as <-.
        assert (Hl : emid s !! (length (emid s) - 1)%nat
                     = Some (List.last (emid s) NaN)).
        { rewrite Em. cbn [length]. rewrite Nat.sub_succ, Nat.sub_0_r.
          apply (lookup_last m0 (m1 :: l) NaN). }
        destruct (Hmid _ _ Hl) as (qm & -> & Eqm).
        rewrite Eh. cbn [fadd same]. rewrite Eqm, Hqh, Eq, Ei.
        replace (length (emid s)) with (S (length (emid s) - 1)) at 2
          by lia.
        rewrite inject_succ. ring.
Qed.

End TextRoundTrip.

(** ** The order of the sampled energies *)

Section SampledOrder.
Context `{ext : Externals}.

Lemma nondecreasing_cons a l :
  (forall b, head l = Some b -> fle a b = true) ->
  nondecreasing l ->
  nondecreasing (a :: l).
Proof.
  intros Hh Hl [|i] x y Hx Hy.
  - injection Hx as <-. apply Hh. now destruct l.
  - apply (Hl i x y); assumption.
Qed.

Lemma nondecreasing_head a b l : nondecreasing (a :: b :: l) -> fle a b = true.
Proof. intros H. now apply (H 0%nat a b). Qed.

(** [np.sort] orders finite values. *)
Lemma insert_sorted_nondecreasing x l :
  nondecreasing (map Fin l) ->
  nondecreasing (np.insert_sorted (Fin x) (map Fin l)).
Proof.
  induction l as [|y l IH]; intros Hl.
  - intros [|i] a b Ha Hb; discriminate Hb.
  - cbn [map np.insert_sorted]. rewrite less_Fin.
    destruct (Qltb y x) eqn:E.
    + apply Qltb_true in E. apply nondecreasing_cons.
      * intros b Hb. destruct l as [|z l].
        -- cbn in Hb. injection Hb as <-. cbn. apply Qle_bool_iff. lra.
        -- cbn [map np.insert_sorted] in Hb. rewrite less_Fin in Hb.
           destruct (Qltb z x); cbn in Hb; injection Hb as <-.
           ++ apply (nondecreasing_head _ _ _ Hl).
           ++ cbn. apply Qle_bool_iff. lra.
      * apply IH. apply (nondecreasing_tail (Fin y)), Hl.
    + apply Qltb_false in E. apply nondecreasing_cons.
      * intros b Hb. injection Hb as <-. cbn. now apply Qle_bool_iff.
      * exact Hl.
Qed.

Lemma sort_Fin l : exists l', np.sort (map Fin l) = map Fin l'.
Proof.
  apply finite_array_Fin, Forall_sort, finite_array_map_Fin.
Qed.

Lemma sort_nondecreasing l : nondecreasing (np.sort (map Fin l)).
Proof.
  induction l as [|x l IH]; [intros i a b Ha; discriminate Ha|].
  change (np.sort (map Fin (x :: l)))
    with (np.insert_sorted (Fin x) (np.sort (map Fin l))).
  destruct (sort_Fin l) as [l' E]. rewrite E in IH |- *.
  now apply insert_sorted_nondecreasing.
Qed.

(** Linear interpolation between two values does not decrease. *)
Lemma between_monotone x0 x1 f0 f1 q q' :
  x0 < q -> q <= q' -> q' < x1 -> f0 <= f1 ->
  (f1 + - f0) / (x1 + - x0) * (q + - x0) + f0
  <= (f1 + - f0) / (x1 + - x0) * (q' + - x0) + f0.
Proof.
  intros H0 Hq H1 Hf.
  set (k := (f1 + - f0) / (x1 + - x0)).
  assert (Hk : 0 <= k).
  { unfold k. apply Qle_shift_div_l; lra. }
  nra.
Qed.

Lemma interp_seg_monotone q q' xq : forall fq x0 f0,
  x0 <= q -> q <= q' ->
  nondecreasing (map Fin (f0 :: fq)) ->
  exists v v',
    np.interp_seg (Fin q) (map Fin (x0 :: xq)) (map Fin (f0 :: fq)) = Fin v
    /\ np.interp_seg (Fin q') (map Fin (x0 :: xq)) (map Fin (f0 :: fq))
       = Fin v'
    /\ v <= v'.
Proof.
  induction xq as [|x1 xq IH]; intros fq x0 f0 Hx Hq Hn.
  - exists f0, f0. repeat split; apply Qle_refl.
  - destruct fq as [|f1 fq].
    + exists f0, f0. repeat split; apply Qle_refl.
    + assert (H01 : f0 <= f1)
        by (apply (nondecreasing_le (f0 :: f1 :: fq) 0 1); auto).
      assert (Hn1 : nondecreasing (map Fin (f1 :: fq)))
        by (apply (nondecreasing_tail (Fin f0)), Hn).
      cbn [map np.interp_seg flt feqb].
      destruct (Qltb q x1) eqn:E1; destruct (Qltb q' x1) eqn:E1'.
      * (* both in the first segment *)
        apply Qltb_true in E1, E1'.
        destruct (Qeq_bool x0 q) eqn:E0; destruct (Qeq_bool x0 q') eqn:E0'.
        -- exists f0, f0. repeat split; apply Qle_refl.
        -- assert (Hne : ~ x0 == q')
             by (intros E; apply Qeq_bool_iff in E; congruence).
           assert (H0 : x0 < q') by lra.
           cbn [fsub fopp fadd]. rewrite fdiv_Fin by lra. cbn [fmul fadd].
           eexists _, _. split; [reflexivity|]. split; [reflexivity|].
           destruct (between_values x0 x1 f0 f1 q' H0 E1' H01) as [B _].
           exact B.
        -- apply Qeq_bool_iff in E0'.
           assert (Hne : ~ x0 == q)
             by (intros E; apply Qeq_bool_iff in E; congruence).
           exfalso. apply Hne. lra.
        -- assert (Hne : ~ x0 == q)
             by (intros E; apply Qeq_bool_iff in E; congruence).
           assert (H0 : x0 < q) by lra.
           cbn [fsub fopp fadd]. rewrite fdiv_Fin by lra. cbn [fmul fadd].
           eexists _, _. split; [reflexivity|]. split; [reflexivity|].
           now apply between_monotone.
      * (* [q] in the first segment, [q'] beyond it *)
        apply Qltb_true in E1. apply Qltb_false in E1'.
        destruct (interp_seg_bounds q' xq fq x1 f1 E1' Hn1) as (v' & Ev' & B' & _).
        destruct (Qeq_bool x0 q) eqn:E0.
        -- exists f0, v'. split; [reflexivity|]. split; [exact Ev'|]. lra.
        -- assert (Hne : ~ x0 == q)
             by (intros E; apply Qeq_bool_iff in E; congruence).
           assert (H0 : x0 < q) by lra.
           cbn [fsub fopp fadd]. rewrite fdiv_Fin by lra. cbn [fmul fadd].
           eexists _, v'. split; [reflexivity|]. split; [exact Ev'|].
           destruct (between_values x0 x1 f0 f1 q H0 E1 H01) as [_ B].
           cbv zeta in B. lra.
      * apply Qltb_false in E1. apply Qltb_true in E1'. exfalso. lra.
      * apply Qltb_false in E1.
        now apply (IH fq x1 f1).
Qed.

(** [np.interp] into nondecreasing finite values does not decrease. *)
Lemma interp1_monotone xp fp q q' :
  finite_array xp ->
  finite_array fp ->
  nondecreasing fp ->
  xp <> [] ->
  length xp = length fp ->
  q <= q' ->
  fle (np.interp1 xp fp (Fin q)) (np.interp1 xp fp (Fin q')) = true.
Proof.
  intros [xq ->]%finite_array_Fin [fq ->]%finite_array_Fin Hn Hne L Hq.
  rewrite !length_map in L.
  destruct xq as [|x0 xq]; [contradiction|].
  destruct fq as [|f0 fq]; [discriminate L|].
  unfold np.interp1. cbn [isnan map fle].
  destruct (Qle_bool q x0) eqn:E; destruct (Qle_bool q' x0) eqn:E'.
  - cbn. apply Qle_bool_iff, Qle_refl.
  - assert (Hx : x0 <= q').
    { apply Qlt_le_weak, Qnot_le_lt. intros H.
      apply Qle_bool_iff in H. congruence. }
    destruct (interp_seg_bounds q' xq fq x0 f0 Hx Hn) as (v & Ev & B & _).
    change (Fin x0 :: map Fin xq) with (map Fin (x0 :: xq)).
    change (Fin f0 :: map Fin fq) with (map Fin (f0 :: fq)).
    rewrite Ev. cbn. now apply Qle_bool_iff.
  - apply Qle_bool_iff in E'. exfalso.
    assert (q <= x0) by lra. apply Qle_bool_iff in H. congruence.
  - assert (Hx : x0 <= q).
    { apply Qlt_le_weak, Qnot_le_lt. intros H.
      apply Qle_bool_iff in H. congruence. }
    destruct (interp_seg_monotone q q' xq fq x0 f0 Hx Hq Hn)
      as (v & v' & Ev & Ev' & B).
    change (Fin x0 :: map Fin xq) with (map Fin (x0 :: xq)).
    change (Fin f0 :: map Fin fq) with (map Fin (f0 :: fq)).
    rewrite Ev, Ev'. cbn. now apply Qle_bool_iff.
Qed.

(** X29.  The energies come out in ascending order: the uniform variates are
    sorted before they are mapped through the cumulative distribution, and
    the interpolation into nondecreasing edges keeps their order. On a
    spectrum with finite nondecreasing edges and a finite nondecreasing
    cumulative distribution, whenever the generator returns a photon count,
    the energies that [_generate_energies] returns do not decrease. *)
Theorem generated_energies_ascend
    w spec o g st t_exp rate quiet n st1 :
  heap w !! spec = Some o ->
  generators w !! g = Some st ->
  RandomState_poisson st (fmul t_exp rate) = (Ok n, st1) ->
  finite_array (cumspec o) ->
  nondecreasing (cumspec o) ->
  finite_array (ebins o) ->
  nondecreasing (ebins o) ->
  length (cumspec o) = length (ebins o) ->
  cumspec o <> [] ->
  exists e,
    (_generate_energies spec t_exp rate g quiet w).1 = Ok e
    /\ nondecreasing e.
Proof.
  intros Hs Hg Hp Fc Nc Fe Ne L Hne.
  destruct (_generate_energies_result w spec o g st t_exp rate quiet Hs Hg)
    as [R _].
  rewrite R. unfold drawn. rewrite Hp.
  cbn [mbind result_bind rbind].
  destruct (RandomState_uniform st1 n) as [v st2].
  unfold np.interp.
  destruct (cumspec o) as [|c0 cs] eqn:Ec; [contradiction|].
  rewrite L, Nat.eqb_refl. rewrite <- Ec in *.
  eexists. split; [reflexivity|].
  pose proof (sort_nondecreasing v) as Hsorted.
  destruct (sort_Fin v) as [v' Ev]. rewrite Ev in Hsorted |- *.
  intros i a b Ha Hb.
  apply list_lookup_fmap_Some in Ha as (x & -> & Hx).
  apply list_lookup_fmap_Some in Hb as (y & -> & Hy).
  pose proof (Hsorted i x y Hx Hy) as Hxy.
  apply list_lookup_fmap_Some in Hx as (qx & -> & _).
  apply list_lookup_fmap_Some in Hy as (qy & -> & _).
  cbn [fle] in Hxy. apply Qle_bool_iff in Hxy.
  apply interp1_monotone; auto.
Qed.

End SampledOrder.

(** ** A column density of zero *)

Section ZeroColumn.
Context `{ext : Externals}.
Context (laws : exponential_laws).

Lemma fmul_one x e : e == 1 -> same (fmul x (Fin e)) x.
Proof.
  intros He.
  assert (H0 : Qeq_bool e 0 = false)
    by (apply Qeq_bool_false; rewrite He; discriminate).
  assert (H1 : Qltb 0 e = true) by (apply Qltb_true; rewrite He; reflexivity).
  destruct x as [a| | |]; cbn [fmul same]; unfold inf_times;
    rewrite ?H0, ?H1; cbn; try exact I.
  rewrite He. ring.
Qed.

(** X30.  Absorption by no column at all changes no flux value: with [nH =
    0] and the wabs model, on positive edges and redshift 0,
    [apply_foreground_absorption] returns and leaves the value of the flux
    of every bin as it was, finite or not. *)
Theorem absorption_zero_column w sp s nH z :
  heap w !! sp = Some s ->
  well_formed s ->
  Forall positive (ebins s) ->
  nH == 0 ->
  z == 0 ->
  exists w' s',
    Spectrum.apply_foreground_absorption sp (Fin nH) "wabs" (Fin z) w
    = (Ok tt, w')
    /\ heap w' !! sp = Some s'
    /\ aggregates_consistent s'
    /\ same_array (flux s') (flux s).
Proof.
  intros Hs Ws He Hn Hz. destruct (wf_lengths _ Ws) as (L1 & L2 & L3 & L4).
  assert (Hm : Forall positive (emid s))
    by (rewrite (wf_emid _ Ws); now apply positive_midpoints).
  set (E := map (fun m => fmul m (fadd (Fin 1.0) (Fin z))) (emid s)).
  destruct (wabs_cross_section_total E) as (sigma & Hsg & Lsg).
  unfold E in Lsg. rewrite length_map in Lsg.
  eexists _, _. split; [|split; [|split]].
  - eapply absorption_run; [exact Hs | exact Ws | | | exact Lsg].
    + replace (String.eqb "wabs" "wabs") with true by reflexivity.
      fold E. rewrite Hsg. reflexivity.
    + reflexivity.
  - cbn [heap with_heap]. eapply heap_insert_lookup, Hs.
  - apply refreshed_consistent.
  - cbn [flux refreshed set_cumspec set_total_energy_flux set_total_flux
           set_flux].
    apply Forall2_same_length_lookup_2.
    { rewrite length_zip_with, length_map. lia. }
    intros i new old Hnew Hold.
    apply lookup_zip_with_Some in Hnew as (x' & t & -> & Hx' & Ht).
    assert (x' = old) by congruence. subst x'.
    apply list_lookup_fmap_Some in Ht as (sg & -> & Hi).
    destruct (lookup_lt_is_Some_2 (emid s) i) as [e Hei];
      [rewrite <- Lsg; eapply lookup_lt_Some, Hi|].
    pose proof (proj1 (Forall_lookup _ _) Hm i e Hei) as (q & -> & Pq).
    destruct (proj2 (mapM_result_lookup _ _ _ Hsg) i (Fin (q * (1.0 + z))))
      as (sg' & Hsg' & Hw).
    { unfold E. now rewrite list_lookup_fmap, Hei. }
    rewrite Hi in Hsg'. injection Hsg' as <-.
    destruct (wabs_positive (q * (1.0 + z))) as (sv & Hsv & Psv).
    { rewrite Hz. lra. }
    rewrite Hw in Hsv. injection Hsv as ->.
    cbn [transmission fopp fmul fexp].
    apply fmul_one. apply (exp_at_0 laws). rewrite Hn. ring.
Qed.

End ZeroColumn.

(** ** The further properties on concrete spectra *)

Section FurtherExamples.
#[local] Existing Instance standin.externals.

(** Monotonicity of a given array, entry by entry. *)
Ltac by_entries :=
  let i := fresh "i" in
  let x := fresh "x" in
  let y := fresh "y" in
  let Hx := fresh "Hx" in
  let Hy := fresh "Hy" in
  intros i x y Hx Hy;
  repeat (destruct i as [|i];
          [cbv in Hx, Hy; injection Hx as <-; injection Hy as <-;
           reflexivity|]);
  cbv in Hy; discriminate Hy.

Lemma example_a_finite_edges : finite_array (ebins example.a).
Proof. repeat constructor. Qed.

Lemma example_a_finite_flux : finite_array (flux example.a).
Proof. repeat constructor. Qed.

Lemma example_b_finite_flux : finite_array (flux example.b).
Proof. repeat constructor. Qed.

Lemma example_a_nondecreasing_edges : nondecreasing (ebins example.a).
Proof. by_entries. Qed.

Lemma example_a_increasing_edges : increasing (ebins example.a).
Proof. by_entries. Qed.

Lemma cumulative_distribution_normalised_witness :
  let w := example.world [example.a] in
  heap w !! 0%nat = Some example.a
  /\ finite_array (ebins example.a)
  /\ finite_array (flux example.a)
  /\ exists w' s' t,
       Spectrum._compute_total_flux 0%nat w = (Ok tt, w')
       /\ heap w' !! 0%nat = Some s'
       /\ total_flux s' = Fin t
       /\ length (cumspec s') = length (ebins example.a).
Proof.
  cbv zeta. split; [reflexivity|].
  split; [exact example_a_finite_edges|].
  split; [exact example_a_finite_flux|].
  destruct (cumulative_distribution_normalised
              (example.world [example.a]) 0%nat example.a eq_refl
              example_a_well_formed example_a_finite_edges
              example_a_finite_flux)
    as (w' & s' & t & H1 & H2 & _ & H3 & H4 & _).
  exists w', s', t. auto.
Defined.

Lemma get_flux_in_band_full_range_witness :
  let w := example.world [example.a] in
  heap w !! 0%nat = Some example.a
  /\ nondecreasing (ebins example.a)
  /\ np.getitem (ebins example.a) 0 = Ok (Fin 0)
  /\ np.getitem (ebins example.a) (-1) = Ok (Fin 2)
  /\ Spectrum.get_flux_in_band 0%nat (Fin 0) (Fin 2) w
     = (Ok (photon_rate example.a, energy_rate example.a), w).
Proof.
  cbv zeta. split; [reflexivity|].
  split; [exact example_a_nondecreasing_edges|].
  split; [reflexivity|]. split; [reflexivity|].
  exact (proj1 (get_flux_in_band_full_range
                  (example.world [example.a]) 0%nat example.a (Fin 0) (Fin 2)
                  eq_refl example_a_well_formed example_a_finite_edges
                  example_a_nondecreasing_edges eq_refl eq_refl)).
Defined.

Lemma get_flux_in_band_empty_band_witness :
  let w := example.world [example.a] in
  heap w !! 0%nat = Some example.a
  /\ Forall (fun e => in_band (Fin 5) (Fin 6) e = false) (emid example.a)
  /\ exists p e,
       Spectrum.get_flux_in_band 0%nat (Fin 5) (Fin 6) w
       = (Ok (Fin p, Fin e), w)
       /\ p == 0 /\ e == 0.
Proof.
  cbv zeta.
  assert (Hb : Forall (fun e => in_band (Fin 5) (Fin 6) e = false)
                 (emid example.a)) by (repeat constructor).
  split; [reflexivity|]. split; [exact Hb|].
  exact (get_flux_in_band_empty_band
           (example.world [example.a]) 0%nat example.a (Fin 5) (Fin 6)
           eq_refl example_a_well_formed Hb).
Defined.

Lemma restrict_within_band_contract_witness :
  let w := example.world [example.a] in
  heap w !! 0%nat = Some example.a
  /\ exists w' s',
       Spectrum.restrict_within_band 0%nat (Some (Fin 1)) None w = (Ok tt, w')
       /\ heap w' !! 0%nat = Some s'
       /\ ebins s' = ebins example.a
       /\ well_formed s'
       /\ aggregates_consistent s'
       /\ (forall i e x,
             emid example.a !! i = Some e ->
             flux example.a !! i = Some x ->
             flux s' !! i = Some (restricted (Some (Fin 1)) None e x))
       /\ (forall other, other <> 0%nat ->
             heap w' !! other = heap w !! other).
Proof.
  cbv zeta. split; [reflexivity|].
  exact (restrict_within_band_contract
           (example.world [example.a]) 0%nat example.a (Some (Fin 1)) None
           eq_refl example_a_well_formed).
Defined.

Lemma restrict_within_band_idempotent_witness :
  let w := example.world [example.a] in
  heap w !! 0%nat = Some example.a
  /\ (Spectrum.restrict_within_band 0%nat (Some (Fin 1)) None
        ≫= fun _ => Spectrum.restrict_within_band 0%nat (Some (Fin 1)) None) w
     = Spectrum.restrict_within_band 0%nat (Some (Fin 1)) None w.
Proof.
  cbv zeta. split; [reflexivity|].
  exact (restrict_within_band_idempotent
           (example.world [example.a]) 0%nat example.a (Some (Fin 1)) None
           eq_refl example_a_well_formed).
Defined.

Lemma restrict_within_band_total_witness :
  let w := example.world [example.a] in
  heap w !! 0%nat = Some example.a
  /\ finite_array (ebins example.a)
  /\ finite_array (flux example.a)
  /\ exists p e w' s',
       Spectrum.get_flux_in_band 0%nat (Fin 1) (Fin 2) w = (Ok (p, e), w)
       /\ Spectrum.restrict_within_band 0%nat (Some (Fin 1)) (Some (Fin 2)) w
          = (Ok tt, w')
       /\ heap w' !! 0%nat = Some s'
       /\ same (total_flux s') p.
Proof.
  cbv zeta. split; [reflexivity|].
  split; [exact example_a_finite_edges|].
  split; [exact example_a_finite_flux|].
  exact (restrict_within_band_total
           (example.world [example.a]) 0%nat example.a 1 2
           eq_refl example_a_well_formed example_a_finite_edges
           example_a_finite_flux).
Defined.

Lemma rescale_flux_contract_witness :
  let w := example.world [example.a] in
  heap w !! 0%nat = Some example.a
  /\ band_limit None (ebins example.a) 0 (Fin 0)
  /\ band_limit None (ebins example.a) (-1) (Fin 2)
  /\ exists f,
       band_photon_rate (Fin 0) (Fin 2) example.a = Fin f
       /\ ~ f == 0
       /\ exists w' s' p e,
            Spectrum.rescale_flux 0%nat (Fin 10) None None "photons" w
            = (Ok tt, w')
            /\ heap w' !! 0%nat = Some s'
            /\ flux s' = map (fun x => fmul x (Fin (10 / f))) (flux example.a)
            /\ Spectrum.get_flux_in_band 0%nat (Fin 0) (Fin 2) w'
               = (Ok (p, e), w')
            /\ same p (Fin 10).
Proof.
  cbv zeta. split; [reflexivity|]. split; [reflexivity|].
  split; [reflexivity|].
  eexists. split; [reflexivity|].
  assert (Hnz : ~ 0 + 1 * (1 + - 0) + 1 * (2 + - 1) == 0)
    by (intros E; discriminate E).
  split; [exact Hnz|].
  exact (rescale_flux_contract
           (example.world [example.a]) 0%nat example.a 10 None None
           (Fin 0) (Fin 2) "photons" _
           eq_refl example_a_well_formed example_a_finite_edges
           example_a_finite_flux eq_refl eq_refl
           (or_introl (conj eq_refl eq_refl)) Hnz).
Defined.

Lemma rescale_flux_zero_band_witness :
  let w := example.world [example.a] in
  heap w !! 0%nat = Some example.a
  /\ finite_array (flux example.a)
  /\ band_photon_rate (Fin 5) (Fin 6) example.a = Fin 0
  /\ exists w' s',
       Spectrum.rescale_flux 0%nat (Fin 10) (Some (Fin 5)) (Some (Fin 6))
         "photons" w = (Ok tt, w')
       /\ heap w' !! 0%nat = Some s'
       /\ length (flux s') = length (flux example.a)
       /\ Forall (fun x => isfinite x = false) (flux s').
Proof.
  cbv zeta. split; [reflexivity|].
  split; [exact example_a_finite_flux|]. split; [reflexivity|].
  destruct (rescale_flux_zero_band
              (example.world [example.a]) 0%nat example.a 10
              (Some (Fin 5)) (Some (Fin 6)) (Fin 5) (Fin 6) 0
              eq_refl example_a_well_formed example_a_finite_flux
              eq_refl eq_refl eq_refl (Qeq_refl 0))
    as (w' & s' & H1 & H2 & H3 & H4 & _).
  exists w', s'. auto.
Defined.

Lemma add_then_subtract_witness :
  let w := example.world [example.a; example.b] in
  heap w !! 0%nat = Some example.a
  /\ heap w !! 1%nat = Some example.b
  /\ edges_differ example.a example.b = false
  /\ units_differ example.a example.b = false
  /\ finite_array (flux example.b)
  /\ exists c w1 d w2 sd,
       obj.__add__ 0%nat 1%nat w = (Ok c, w1)
       /\ obj.__sub__ c 1%nat w1 = (Ok d, w2)
       /\ heap w2 !! d = Some sd
       /\ class_ sd = class_ example.a
       /\ ebins sd = ebins example.a
       /\ same_array (flux sd) (flux example.a).
Proof.
  cbv zeta. split; [reflexivity|]. split; [reflexivity|].
  split; [reflexivity|]. split; [reflexivity|].
  split; [exact example_b_finite_flux|].
  exact (add_then_subtract
           (example.world [example.a; example.b]) 0%nat 1%nat
           example.a example.b eq_refl eq_refl
           example_a_well_formed example_b_well_formed eq_refl eq_refl
           example_b_finite_flux).
Defined.

Lemma add_commutes_in_flux_witness :
  let w := example.world [example.a; example.b] in
  heap w !! 0%nat = Some example.a
  /\ heap w !! 1%nat = Some example.b
  /\ edges_differ example.a example.b = false
  /\ edges_differ example.b example.a = false
  /\ units_differ example.a example.b = false
  /\ exists c w1 c' w2 s1 s2,
       obj.__add__ 0%nat 1%nat w = (Ok c, w1)
       /\ obj.__add__ 1%nat 0%nat w = (Ok c', w2)
       /\ heap w1 !! c = Some s1
       /\ heap w2 !! c' = Some s2
       /\ ebins s1 = ebins example.a
       /\ ebins s2 = ebins example.b
       /\ same_array (flux s1) (flux s2).
Proof.
  cbv zeta. split; [reflexivity|]. split; [reflexivity|].
  split; [reflexivity|]. split; [reflexivity|]. split; [reflexivity|].
  exact (add_commutes_in_flux
           (example.world [example.a; example.b]) 0%nat 1%nat
           example.a example.b eq_refl eq_refl
           example_a_well_formed example_b_well_formed
           eq_refl eq_refl eq_refl).
Defined.

Lemma iadd_agrees_with_add_witness :
  let w := example.world [example.a; example.b] in
  heap w !! 0%nat = Some example.a
  /\ heap w !! 1%nat = Some example.b
  /\ exists w1 sa' c w2 sc,
       obj.__iadd__ 0%nat 1%nat w = (Ok 0%nat, w1)
       /\ heap w1 !! 0%nat = Some sa'
       /\ obj.__add__ 0%nat 1%nat w = (Ok c, w2)
       /\ heap w2 !! c = Some sc
       /\ flux sa' = flux sc
       /\ ebins sa' = ebins example.a
       /\ (forall other, other <> 0%nat ->
             heap w1 !! other = heap w !! other).
Proof.
  cbv zeta. split; [reflexivity|]. split; [reflexivity|].
  pose proof (iadd_agrees_with_add
                (example.world [example.a; example.b]) 0%nat 1%nat
                example.a example.b eq_refl eq_refl
                example_a_well_formed example_b_well_formed) as T.
  change (edges_differ example.a example.b
          || units_differ example.a example.b) with false in T.
  cbv iota in T. exact T.
Defined.

Lemma new_spec_from_band_edges_witness :
  let w := example.world [example.a] in
  heap w !! 0%nat = Some example.a
  /\ exists flux',
       Spectrum._new_spec_from_band 0%nat (Fin 0) (Fin 1) w
       = (Ok (List.filter (in_band (Fin 0) (Fin 1)) (ebins example.a), flux'),
          w)
       /\ length flux'
          = (length (List.filter (in_band (Fin 0) (Fin 1))
                       (ebins example.a)) - 1)%nat
       /\ returns_new (Spectrum.new_spec_from_band 0%nat (Fin 0) (Fin 1)) w
            (instance cSpectrum
               (List.filter (in_band (Fin 0) (Fin 1)) (ebins example.a))
               flux' None).
Proof.
  cbv zeta. split; [reflexivity|].
  destruct (new_spec_from_band_edges
              (example.world [example.a]) 0%nat example.a (Fin 0) (Fin 1)
              eq_refl example_a_well_formed)
    as (fl & H1 & H2 & H3 & _).
  exists fl. auto.
Defined.

Lemma tbabs_table_read_once_witness :
  let w := example.world [] in
  (5 < length tbabs_file_cross_section)%nat
  /\ exists w1,
       tbabs_cross_section [Fin 1] w
       = (Ok (map (spline_call (tbabs_spline_in_use w)) [Fin 1]), w1)
       /\ heap w1 = heap w
       /\ _tbabs_spline w1 = Some (tbabs_spline_in_use w)
       /\ tbabs_cross_section [Fin 2; Fin 9] w1
          = (Ok (map (spline_call (tbabs_spline_in_use w)) [Fin 2; Fin 9]),
             w1).
Proof.
  cbv zeta.
  assert (Hl : (5 < length tbabs_file_cross_section)%nat) by (cbn; lia).
  split; [exact Hl|].
  exact (tbabs_table_read_once (example.world []) [Fin 1] [Fin 2; Fin 9]
           (or_intror Hl)).
Defined.

Lemma line_profile_not_implemented_witness :
  let w := example.world [example.a] in
  let msg := "Line profile type 'lorentzian' not implemented!"%string in
  "lorentzian"%string <> "gaussian"%string
  /\ Spectrum.add_emission_line 0%nat (Fin 1) (Fin 0.1) (Fin 1) "lorentzian" w
     = (Raise (NotImplementedError msg), w)
  /\ Spectrum.add_absorption_line 0%nat (Fin 1) (Fin 0.1) (Fin 1)
       "lorentzian" w
     = (Raise (NotImplementedError msg), w).
Proof.
  cbv zeta.
  assert (N : "lorentzian"%string <> "gaussian"%string) by discriminate.
  split; [exact N|].
  exact (line_profile_not_implemented (example.world [example.a]) 0%nat
           (Fin 1) (Fin 0.1) (Fin 1) "lorentzian" N).
Defined.

Lemma absorption_model_unknown_witness :
  let w := example.world [example.a] in
  heap w !! 0%nat = Some example.a
  /\ "phabs"%string <> "wabs"%string
  /\ "phabs"%string <> "tbabs"%string
  /\ Spectrum.apply_foreground_absorption 0%nat (Fin 1) "phabs" (Fin 0) w
     = (Raise (UnboundLocalError "sigma"), w).
Proof.
  cbv zeta.
  assert (N1 : "phabs"%string <> "wabs"%string) by discriminate.
  assert (N2 : "phabs"%string <> "tbabs"%string) by discriminate.
  split; [reflexivity|]. split; [exact N1|]. split; [exact N2|].
  exact (absorption_model_unknown (example.world [example.a]) 0%nat
           example.a (Fin 1) "phabs" (Fin 0) eq_refl N1 N2).
Defined.

Lemma convolve_deconvolve_zero_area_witness :
  let w := example.world [example.a] in
  let r := example.constant_response 0 in
  heap w !! 0%nat = Some example.a
  /\ class_ example.a = cSpectrum
  /\ exists c w1 d w2 s',
       ConvolvedSpectrum.convolve 0%nat (ArfObject r) w = (Ok c, w1)
       /\ obj.deconvolve c w1 = (Ok d, w2)
       /\ heap w2 !! d = Some s'
       /\ ebins s' = ebins example.a
       /\ forall i f e a,
            flux example.a !! i = Some (Fin f) ->
            emid example.a !! i = Some e ->
            interpolate_area r e = Fin a ->
            a == 0 ->
            flux s' !! i = Some (Fin 0).
Proof.
  cbv zeta. split; [reflexivity|]. split; [reflexivity|].
  exact (convolve_deconvolve_zero_area
           (example.world [example.a]) 0%nat example.a
           (example.constant_response 0) eq_refl eq_refl
           example_a_well_formed).
Defined.

Lemma example_b_finite_edges : finite_array (ebins example.b).
Proof. repeat constructor. Qed.

Lemma example_b_nondecreasing_edges : nondecreasing (ebins example.b).
Proof. by_entries. Qed.

Lemma example_b_finite_distribution : finite_array (cumspec example.b).
Proof. repeat constructor. Qed.

Lemma example_b_nondecreasing_distribution : nondecreasing (cumspec example.b).
Proof. by_entries. Qed.

Lemma generated_energies_within_edges_witness :
  let st := RandomState_seed 42 in
  let w := with_generators [st] (example.world [example.b]) in
  let st1 := (RandomState_poisson st (fmul (Fin 2) (Fin 6))).2 in
  heap w !! 0%nat = Some example.b
  /\ generators w !! 0%nat = Some st
  /\ RandomState_poisson st (fmul (Fin 2) (Fin 6)) = (Ok 12%nat, st1)
  /\ nondecreasing (cumspec example.b)
  /\ nondecreasing (ebins example.b)
  /\ exists e,
       (_generate_energies 0%nat (Fin 2) (Fin 6) 0%nat true w).1 = Ok e
       /\ length e = length (RandomState_uniform st1 12).1
       /\ Forall (fun x => exists q, x = Fin q /\ 0 <= q <= 2) e.
Proof.
  cbv zeta. split; [reflexivity|]. split; [reflexivity|].
  split; [reflexivity|].
  split; [exact example_b_nondecreasing_distribution|].
  split; [exact example_b_nondecreasing_edges|].
  destruct (generated_energies_within_edges
              (with_generators [RandomState_seed 42]
                 (example.world [example.b]))
              0%nat example.b 0%nat (RandomState_seed 42) (Fin 2) (Fin 6) true
              12%nat
              (RandomState_poisson (RandomState_seed 42)
                 (fmul (Fin 2) (Fin 6))).2
              0 2
              eq_refl eq_refl eq_refl
              example_b_finite_distribution
              example_b_nondecreasing_distribution
              example_b_finite_edges example_b_nondecreasing_edges
              eq_refl eq_refl eq_refl)
    as (e & H1 & _ & H2 & H3).
  exists e. auto.
Defined.

Lemma emission_line_raises_flux_witness :
  let w := example.world [example.a] in
  exponential_laws
  /\ 0 < sigma_to_fwhm
  /\ 0 < sqrt2pi
  /\ heap w !! 0%nat = Some example.a
  /\ exists w' s',
       Spectrum.add_emission_line 0%nat (Fin 1) (Fin 0.5) (Fin 3) "gaussian" w
       = (Ok tt, w')
       /\ heap w' !! 0%nat = Some s'
       /\ aggregates_consistent s'
       /\ Forall2 (fun new old => flt old new = true)
                  (flux s') (flux example.a).
Proof.
  cbv zeta. split; [exact standin_exponential_laws|].
  split; [reflexivity|]. split; [reflexivity|]. split; [reflexivity|].
  exact (emission_line_raises_flux standin_exponential_laws
           (eq_refl : 0 < sigma_to_fwhm) (eq_refl : 0 < sqrt2pi)
           (example.world [example.a]) 0%nat example.a 1 0.5 3
           eq_refl example_a_well_formed example_a_finite_edges
           example_a_finite_flux eq_refl eq_refl).
Defined.

Lemma absorption_line_lowers_flux_witness :
  let w := example.world [example.soft] in
  exponential_laws
  /\ 0 < sigma_to_fwhm
  /\ 0 < sqrt2pi
  /\ 0 < hc
  /\ heap w !! 0%nat = Some example.soft
  /\ Forall positive (flux example.soft)
  /\ exists w' s',
       Spectrum.add_absorption_line 0%nat (Fin 2) (Fin 0.5) (Fin 3)
         "gaussian" w = (Ok tt, w')
       /\ heap w' !! 0%nat = Some s'
       /\ aggregates_consistent s'
       /\ Forall2 (fun new old => flt new old = true /\ positive new)
                  (flux s') (flux example.soft).
Proof.
  cbv zeta.
  assert (Fe : finite_array (ebins example.soft)) by (repeat constructor).
  assert (Pf : Forall positive (flux example.soft))
    by (repeat constructor; eexists; split; reflexivity).
  assert (Nc : ~ 2 == 0) by (intros E; discriminate E).
  split; [exact standin_exponential_laws|].
  split; [reflexivity|]. split; [reflexivity|]. split; [reflexivity|].
  split; [reflexivity|]. split; [exact Pf|].
  exact (absorption_line_lowers_flux standin_exponential_laws
           (eq_refl : 0 < sigma_to_fwhm) (eq_refl : 0 < sqrt2pi)
           (eq_refl : 0 < hc)
           (example.world [example.soft]) 0%nat example.soft 2 0.5 3
           eq_refl example_soft_well_formed Fe Pf Nc eq_refl eq_refl).
Defined.

Lemma constructor_shapes_witness :
  let w := example.world [] in
  let edges := [Fin 0; Fin 1; Fin 2] in
  cSpectrum <> cConvolvedSpectrum
  /\ returns_new (Spectrum.__init__ cSpectrum edges (Bare [Fin 1; Fin 1])) w
       (instance cSpectrum edges [Fin 1; Fin 1] None)
  /\ (exists s,
        Spectrum.__init__ cSpectrum edges (Bare [Fin 5]) w
        = (Ok (length (heap w)), with_heap (heap w ++ [s]) w)
        /\ flux s = [Fin 5]
        /\ nbins s = 2%nat
        /\ ~ well_formed s)
  /\ (exists s,
        Spectrum.__init__ cSpectrum [Fin 1; Fin 2]
          (Bare [Fin 1; Fin 2; Fin 3]) w
        = (Ok (length (heap w)), with_heap (heap w ++ [s]) w)
        /\ flux s = [Fin 1; Fin 2; Fin 3]
        /\ nbins s = 1%nat
        /\ ~ well_formed s)
  /\ (Spectrum.__init__ cSpectrum [Fin 0; Fin 1; Fin 2; Fin 3]
        (Bare [Fin 1; Fin 1]) w).1
     = Raise ValueError.
Proof.
  cbv zeta.
  assert (N : cSpectrum <> cConvolvedSpectrum) by discriminate.
  split; [exact N|]. split; [|split; [|split]].
  - exact (proj1 (proj1 (constructor_shapes cSpectrum [Fin 0; Fin 1; Fin 2]
                           (Bare [Fin 1; Fin 1]) [Fin 1; Fin 1]
                           (example.world []) N eq_refl)
                    eq_refl)).
  - destruct (proj1 (proj2 (constructor_shapes cSpectrum
                              [Fin 0; Fin 1; Fin 2] (Bare [Fin 5]) [Fin 5]
                              (example.world []) N eq_refl))
                (Fin 5) eq_refl)
      as (s & H1 & H2 & H3 & _ & H4); [discriminate|].
    exists s. auto.
  - destruct (proj1 (proj2 (proj2 (constructor_shapes cSpectrum
                                     [Fin 1; Fin 2]
                                     (Bare [Fin 1; Fin 2; Fin 3])
                                     [Fin 1; Fin 2; Fin 3]
                                     (example.world []) N eq_refl)))
                (Fin 1) (Fin 2) eq_refl)
      as (s & H1 & H2 & H3 & _ & H4); [discriminate|].
    exists s. auto.
  - apply (proj2 (proj2 (proj2 (constructor_shapes cSpectrum
                                  [Fin 0; Fin 1; Fin 2; Fin 3]
                                  (Bare [Fin 1; Fin 1]) [Fin 1; Fin 1]
                                  (example.world []) N eq_refl))));
      discriminate.
Defined.

Lemma scalar_product_contract_witness :
  let w := example.world [example.a; example.c] in
  heap w !! 0%nat = Some example.a
  /\ heap w !! 1%nat = Some example.c
  /\ class_ example.a <> cConvolvedSpectrum
  /\ class_ example.c = cConvolvedSpectrum
  /\ returns_new (Spectrum'.__mul__ 0%nat (Number (Fin 2))) w
       (instance cSpectrum (ebins example.a)
          (map (fmul (Fin 2)) (flux example.a)) None)
  /\ Spectrum'.__mul__ 1%nat (Number (Fin 2)) w = (Raise TypeError, w).
Proof.
  cbv zeta.
  assert (N : class_ example.a <> cConvolvedSpectrum) by discriminate.
  split; [reflexivity|]. split; [reflexivity|]. split; [exact N|].
  split; [reflexivity|]. split.
  - exact (proj1 (proj2 (scalar_product_contract
                           (example.world [example.a; example.c]) 0%nat
                           example.a (Fin 2) eq_refl example_a_well_formed)
                    N)).
  - exact (proj1 (proj1 (scalar_product_contract
                           (example.world [example.a; example.c]) 1%nat
                           example.c (Fin 2) eq_refl example_c_well_formed)
                    eq_refl)).
Defined.

Lemma multiply_then_divide_witness :
  let w := example.world [example.a] in
  heap w !! 0%nat = Some example.a
  /\ class_ example.a <> cConvolvedSpectrum
  /\ finite_array (flux example.a)
  /\ ~ 2 == 0
  /\ exists p w1 d w2 sd,
       Spectrum'.__mul__ 0%nat (Number (Fin 2)) w = (Ok p, w1)
       /\ Spectrum'.__truediv__ p (Fin 2) w1 = (Ok d, w2)
       /\ heap w2 !! d = Some sd
       /\ class_ sd = class_ example.a
       /\ ebins sd = ebins example.a
       /\ same_array (flux sd) (flux example.a)
       /\ heap w2 !! 0%nat = Some example.a.
Proof.
  cbv zeta.
  assert (N : class_ example.a <> cConvolvedSpectrum) by discriminate.
  assert (Nq : ~ 2 == 0) by (intros E; discriminate E).
  split; [reflexivity|]. split; [exact N|].
  split; [exact example_a_finite_flux|]. split; [exact Nq|].
  exact (multiply_then_divide (example.world [example.a]) 0%nat example.a 2
           eq_refl example_a_well_formed N example_a_finite_flux Nq).
Defined.

Lemma call_interpolates_flux_witness :
  let w := example.world [example.b] in
  heap w !! 0%nat = Some example.b
  /\ increasing (ebins example.b)
  /\ Spectrum'.__call__ 0%nat (emid example.b) w = (Ok (flux example.b), w).
Proof.
  cbv zeta.
  assert (Hi : increasing (ebins example.b)) by by_entries.
  split; [reflexivity|]. split; [exact Hi|].
  exact (proj1 (proj2 (call_interpolates_flux
                         (example.world [example.b]) 0%nat example.b
                         eq_refl example_b_well_formed
                         example_b_finite_edges Hi)
                  (le_S 1 1 (le_n 1)))).
Defined.

Lemma from_constant_contract_witness :
  let w := example.world [] in
  (1 <= 4)%nat
  /\ cSpectrum <> cConvolvedSpectrum
  /\ exists edges fl,
       let s := instance cSpectrum edges fl None in
       returns_new
         (Spectrum'.from_constant cSpectrum (Fin 3) (Fin 1) (Fin 5) 4) w s
       /\ well_formed s
       /\ nbins s = 4%nat
       /\ same (total_flux s) (Fin (3 * (5 - 1))).
Proof.
  cbv zeta.
  assert (L : (1 <= 4)%nat) by lia.
  assert (N : cSpectrum <> cConvolvedSpectrum) by discriminate.
  split; [exact L|]. split; [exact N|].
  destruct (proj2 (from_constant_contract (example.world []) cSpectrum
                     3 1 5 4 L) N)
    as (edges & fl & H1 & H2 & H3 & _ & _ & _ & H4).
  exists edges, fl. auto.
Defined.

Lemma write_overwrite_protection_witness :
  let w := example.world [example.a] in
  let fs : gmap string file := {["spec.dat"%string := Text "" []]} in
  let msg := "File spec.dat exists and overwrite=False!"%string in
  heap w !! 0%nat = Some example.a
  /\ is_Some (fs !! "spec.dat"%string)
  /\ Spectrum'.write_file 0%nat "spec.dat" false fs w
     = (Failed (IOError msg), fs)
  /\ Spectrum'.write_h5_file 0%nat "spec.dat" false fs w
     = (Failed (IOError msg), fs).
Proof.
  cbv zeta.
  assert (He : is_Some (({["spec.dat"%string := Text "" []]}
                          : gmap string file) !! "spec.dat"%string))
    by (rewrite lookup_singleton_eq; eauto).
  split; [reflexivity|]. split; [exact He|].
  exact (proj1 (write_overwrite_protection
                  (example.world [example.a])
                  {["spec.dat"%string := Text "" []]} 0%nat example.a
                  "spec.dat" false eq_refl example_a_well_formed)
           He eq_refl).
Defined.

Lemma example_a_uniform_edges : uniform_edges 0 1 (ebins example.a).
Proof.
  intros i e He.
  repeat (destruct i as [|i];
          [cbv in He; injection He as <-; eexists; split; reflexivity|]).
  cbv in He. discriminate He.
Qed.

Lemma h5_round_trip_witness :
  let w := example.world [example.a] in
  let fs : gmap string file := ∅ in
  heap w !! 0%nat = Some example.a
  /\ (1 <= nbins example.a)%nat
  /\ endswith "spec.h5" ".h5" = true
  /\ uniform_edges 0 1 (ebins example.a)
  /\ exists fs' e0 e1,
       Spectrum'.write_h5_file 0%nat "spec.h5" false fs w = (Done tt, fs')
       /\ np.getitem (ebins example.a) 0 = Ok e0
       /\ np.getitem (ebins example.a) (-1) = Ok e1
       /\ let restored :=
            instance (class_ example.a)
              (linspace e0 e1 (nbins example.a + 1)) (flux example.a)
              (AuxiliaryResponseFile ∘ filename <$> arf example.a) in
          Spectrum'.from_file (class_ example.a) "spec.h5" fs' w
          = (Done (length (heap w)), with_heap (heap w ++ [restored]) w)
          /\ same_array (ebins restored) (ebins example.a).
Proof.
  cbv zeta.
  assert (L : (1 <= nbins example.a)%nat) by (cbn; lia).
  split; [reflexivity|]. split; [exact L|]. split; [reflexivity|].
  split; [exact example_a_uniform_edges|].
  destruct (h5_round_trip (example.world [example.a]) ∅ 0%nat example.a
              "spec.h5" false 0 1 eq_refl example_a_well_formed L eq_refl
              (or_introl (lookup_empty _)))
    as (fs' & e0 & e1 & H1 & H2 & H3 & H4 & H5).
  exists fs', e0, e1.
  split; [exact H1|]. split; [exact H2|]. split; [exact H3|].
  split; [exact H4 | exact (H5 example_a_uniform_edges)].
Defined.

Lemma text_round_trip_witness :
  let w := example.world [example.a] in
  let fs : gmap string file := ∅ in
  heap w !! 0%nat = Some example.a
  /\ endswith "spec.dat" ".h5" = false
  /\ (2 <= nbins example.a)%nat
  /\ class_ example.a <> cConvolvedSpectrum
  /\ uniform_edges 0 1 (ebins example.a)
  /\ exists fs' edges',
       Spectrum'.write_file 0%nat "spec.dat" false fs w = (Done tt, fs')
       /\ Spectrum'.from_file (class_ example.a) "spec.dat" fs' w
          = (Done (length (heap w)),
             with_heap
               (heap w ++ [instance (class_ example.a) edges'
                             (flux example.a) None]) w)
       /\ same_array edges' (ebins example.a).
Proof.
  cbv zeta.
  assert (L : (2 <= nbins example.a)%nat) by (cbn; lia).
  assert (N : class_ example.a <> cConvolvedSpectrum) by discriminate.
  split; [reflexivity|]. split; [reflexivity|]. split; [exact L|].
  split; [exact N|]. split; [exact example_a_uniform_edges|].
  destruct (text_round_trip (example.world [example.a]) ∅ 0%nat example.a
              "spec.dat" false 0 1 eq_refl example_a_well_formed eq_refl
              (or_introl (lookup_empty _)))
    as (fs' & H1 & _ & _ & H2).
  destruct (H2 L N) as (edges' & H3 & _ & H4).
  exists fs', edges'.
  split; [exact H1|]. split; [exact H3 | exact (H4 example_a_uniform_edges)].
Defined.

Lemma generated_energies_ascend_witness :
  let st := RandomState_seed 42 in
  let w := with_generators [st] (example.world [example.b]) in
  let st1 := (RandomState_poisson st (fmul (Fin 2) (Fin 6))).2 in
  heap w !! 0%nat = Some example.b
  /\ generators w !! 0%nat = Some st
  /\ RandomState_poisson st (fmul (Fin 2) (Fin 6)) = (Ok 12%nat, st1)
  /\ nondecreasing (cumspec example.b)
  /\ nondecreasing (ebins example.b)
  /\ exists e,
       (_generate_energies 0%nat (Fin 2) (Fin 6) 0%nat true w).1 = Ok e
       /\ nondecreasing e.
Proof.
  cbv zeta. split; [reflexivity|]. split; [reflexivity|].
  split; [reflexivity|].
  split; [exact example_b_nondecreasing_distribution|].
  split; [exact example_b_nondecreasing_edges|].
  assert (Hne : cumspec example.b <> []) by discriminate.
  exact (generated_energies_ascend
           (with_generators [RandomState_seed 42] (example.world [example.b]))
           0%nat example.b 0%nat (RandomState_seed 42) (Fin 2) (Fin 6) true
           12%nat
           (RandomState_poisson (RandomState_seed 42)
              (fmul (Fin 2) (Fin 6))).2
           eq_refl eq_refl eq_refl
           example_b_finite_distribution
           example_b_nondecreasing_distribution
           example_b_finite_edges example_b_nondecreasing_edges
           eq_refl Hne).
Defined.

Lemma absorption_zero_column_witness :
  let w := example.world [example.soft] in
  exponential_laws
  /\ heap w !! 0%nat = Some example.soft
  /\ Forall positive (ebins example.soft)
  /\ exists w' s',
       Spectrum.apply_foreground_absorption 0%nat (Fin 0) "wabs" (Fin 0) w
       = (Ok tt, w')
       /\ heap w' !! 0%nat = Some s'
       /\ aggregates_consistent s'
       /\ same_array (flux s') (flux example.soft).
Proof.
  cbv zeta.
  assert (Pe : Forall positive (ebins example.soft))
    by (repeat constructor; eexists; split; reflexivity).
  split; [exact standin_exponential_laws|].
  split; [reflexivity|]. split; [exact Pe|].
  exact (absorption_zero_column standin_exponential_laws
           (example.world [example.soft]) 0%nat example.soft 0 0
           eq_refl example_soft_well_formed Pe (Qeq_refl 0) (Qeq_refl 0)).
Defined.

End FurtherExamples.
